(** * Resilience layer of the paper-search server: a shallow embedding

    The development follows the TypeScript sources:
    - [ErrorHandler]  : the classes [ApiError] and [ErrorHandler] (error
      classification), and the retry loop with its waits built on them;
    - [QuotaManager]  : the class [QuotaManager] (per-platform daily quota);
    - [RequestCache]  : src/utils/RequestCache.ts (cache key derivation,
      hit/miss accounting over an LRU+TTL store);
    - [RateLimiter]   : the token-bucket admission gate;
    - [MirrorRegistry]: mirror ranking, selection and failure feedback.

    The retry loop, the LRU+TTL store, the rate limiter and the mirror
    registry are used by the sources but their code is not part of them;
    their definitions follow the specification and say so.

    Numbers are [Z] (the sources use them as integer counts, statuses and
    millisecond timestamps), strings are sequences of code units in
    U+0000..U+00FF, JavaScript maps are [gmap], property lists are
    association lists in enumeration order. *)

From Stdlib Require Import ZArith QArith Qminmax Lia Lqa Bool List Ascii String.
From stdpp Require Import gmap strings list.

Set Warnings "-register-all".

Local Open Scope Z_scope.

(** ** JavaScript string primitives used by the sources *)

Module JS.

(** Code unit of a character. *)
Definition code (c : ascii) : Z := Z.of_N (N_of_ascii c).

Definition chr (z : Z) : ascii := ascii_of_N (Z.to_N z).

(** WhiteSpace and LineTerminator code units below U+0100: TAB, LF, VT, FF,
    CR, SPACE and NO-BREAK SPACE. *)
Definition isWhiteSpace (c : ascii) : bool :=
  let n := code c in
  (9 <=? n) && (n <=? 13) || (n =? 32) || (n =? 160).

Definition isDigit (c : ascii) : bool :=
  let n := code c in (48 <=? n) && (n <=? 57).

(** [String.prototype.toLowerCase] on one code unit: A-Z, and the Latin-1
    capitals U+00C0..U+00DE without the multiplication sign U+00D7. *)
Definition lowerChar (c : ascii) : ascii :=
  let n := code c in
  if (65 <=? n) && (n <=? 90) then chr (n + 32)
  else if (192 <=? n) && (n <=? 222) && negb (n =? 215) then chr (n + 32)
  else c.

Fixpoint toLowerCase (s : string) : string :=
  match s with
  | EmptyString => EmptyString
  | String c r => String (lowerChar c) (toLowerCase r)
  end.

Fixpoint trimStart (s : string) : string :=
  match s with
  | EmptyString => EmptyString
  | String c r => if isWhiteSpace c then trimStart r else s
  end.

(** [trimEnd] drops the white space that is followed by white space only. *)
Fixpoint trimEnd (s : string) : string :=
  match s with
  | EmptyString => EmptyString
  | String c r =>
      match trimEnd r with
      | EmptyString => if isWhiteSpace c then EmptyString else String c EmptyString
      | r' => String c r'
      end
  end.

Definition trim (s : string) : string := trimEnd (trimStart s).

(** Leading decimal digits of a string, accumulated most significant first. *)
Fixpoint digits (s : string) (acc : Z) : Z :=
  match s with
  | EmptyString => acc
  | String c r => if isDigit c then digits r (10 * acc + (code c - 48)) else acc
  end.

(** Truthiness of an optional number: [undefined] and [0] are falsy. *)
Definition truthy (n : option Z) : bool :=
  match n with
  | Some z => negb (z =? 0)
  | None => false
  end.

(** [a || b] on optional numbers. *)
Definition orElse (a b : option Z) : option Z := if truthy a then a else b.

Fixpoint allWhiteSpace (s : string) : bool :=
  match s with
  | EmptyString => true
  | String c r => isWhiteSpace c && allWhiteSpace r
  end.

(** Two strings that differ only in the case of their letters. *)
Fixpoint caseVariant (s1 s2 : string) : bool :=
  match s1, s2 with
  | EmptyString, EmptyString => true
  | String c1 r1, String c2 r2 =>
      (Ascii.eqb c1 c2 || Ascii.eqb (lowerChar c1) c2 || Ascii.eqb c1 (lowerChar c2))
      && caseVariant r1 r2
  | _, _ => false
  end.

End JS.

(** ** ErrorHandler *)

Module ErrorHandler.

(** [error.response]: the HTTP status and the [retry-after] header. *)
Record response := {
  resp_status : option Z;
  retry_after : option string
}.

(** A thrown value as the handler inspects it: whether it is an [ApiError]
    instance, its [response] and its own [status] property. *)
Record error := {
  instanceofApiError : bool;
  err_response : option response;
  err_status : option Z
}.

Definition retryableStatuses : list Z := [408; 429; 500; 502; 503; 504].

Definition includes (l : list Z) (x : Z) : bool := existsb (Z.eqb x) l.

(** [ApiError.isRetryable(status)], which the constructor stores in the
    read-only field [retryable]. *)
Definition ApiError_isRetryable (status : option Z) : bool :=
  if negb (JS.truthy status) then true
  else match status with
       | Some s => includes retryableStatuses s
       | None => true
       end.

Definition retryable (e : error) : bool := ApiError_isRetryable (err_status e).

(** [error.response?.status] *)
Definition responseStatus (e : error) : option Z :=
  match err_response e with
  | Some r => resp_status r
  | None => None
  end.

(** [ErrorHandler.isRetryable(error)] *)
Definition isRetryable (e : error) : bool :=
  if instanceofApiError e then retryable e
  else
    let status := responseStatus e in
    if negb (JS.truthy status) then true
    else match status with
         | Some s => includes retryableStatuses s
         | None => true
         end.

(** [error.response?.headers?.['retry-after']] *)
Definition retryAfterHeader (e : error) : option string :=
  match err_response e with
  | Some r => retry_after r
  | None => None
  end.

(** The status that the classification inspects: the error's own status for
    an [ApiError], the response status otherwise. *)
Definition inspectedStatus (e : error) : option Z :=
  if instanceofApiError e then err_status e else responseStatus e.

(** The error that the tests throw: [{ response: { status }, status }], with
    an optional [retry-after] header. *)
Definition httpError (s : Z) (hint : option string) : error :=
  {| instanceofApiError := false;
     err_response := Some {| resp_status := Some s; retry_after := hint |};
     err_status := Some s |}.

(** What one invocation of the attempt function produces. *)
Inductive outcome (T : Type) :=
| Success (v : T)
| Failure (e : error).

Arguments Success {T} v.
Arguments Failure {T} e.

(** The options of the retry loop. *)
Record retryOptions := {
  maxRetries : nat;
  initialDelayMs : Z;
  maxDelayMs : Z
}.

(** What the outcomes of the successive invocations satisfy for a budget of
    [n] retries: their number, the result, and who is followed by a retry. *)
Definition wellFormedTrace {T : Type} (n : nat) (result : outcome T)
    (calls : list (outcome T)) : Prop :=
  (1 <= length calls <= n + 1)%nat /\
  last calls = Some result /\
  (forall i e, calls !! i = Some (Failure e) ->
     (is_Some (calls !! S i) <-> isRetryable e = true /\ (i < n)%nat)) /\
  (forall i v, calls !! i = Some (Success v) -> calls !! S i = None).

Section Retry.

(** The attempt function reads and changes a world [W] (the remote service,
    the limiter it composes with, the clock); [pause opts k e] is the wait
    before retry [k] after the failure [e], which passes time in that world
    and does not invoke the attempt function. *)
Context {W T : Type}.
Variable attemptFn : W -> outcome T * W.
Variable pause : retryOptions -> nat -> error -> W -> W.

(** Modelled from the spec: [ErrorHandler.retryWithBackoff] is called by the
    searchers and exercised by the tests, but its body is not in the sources.
    Section 4.2 of the specification: the attempt function is invoked up to
    [maxRetries + 1] times; the first success is returned; a fatal failure
    is returned immediately; a retryable failure is retried after the
    backoff wait while retries remain, and the last failure is returned when
    they are exhausted. Classification is the source's [isRetryable]. The
    result carries the world afterwards and the outcomes of the invocations
    in order. *)
Fixpoint retryLoop (opts : retryOptions) (retriesLeft k : nat) (w : W)
    : outcome T * W * list (outcome T) :=
  let '(o, w1) := attemptFn w in
  match o with
  | Success _ => (o, w1, [o])
  | Failure e =>
      if isRetryable e then
        match retriesLeft with
        | O => (o, w1, [o])
        | S n =>
            let '(r, w2, tr) := retryLoop opts n (S k) (pause opts k e w1) in
            (r, w2, o :: tr)
        end
      else (o, w1, [o])
  end.

(** Modelled from the spec: [ErrorHandler.retryWithBackoff(attemptFn,
    options)], the loop above with a budget of [maxRetries] retries. *)
Definition retryWithBackoff (opts : retryOptions) (w : W)
    : outcome T * W * list (outcome T) :=
  retryLoop opts (maxRetries opts) 1 w.

End Retry.

(** The mock of the retry tests: the world counts the invocations, the first
    [failures] of them fail with [e], the later ones succeed. *)
Definition failingFirst (failures : nat) (e : error) (w : nat) : outcome string * nat :=
  if (w <? failures)%nat then (Failure e, S w) else (Success "success"%string, S w).

Definition noPause (opts : retryOptions) (k : nat) (e : error) (w : nat) : nat := w.

(** Modelled from the spec: the computed delay of section 4.2 before retry
    [k] (1-indexed), [min(maxDelayMs, initialDelayMs * 2^(k-1))], in
    milliseconds. The body of [retryWithBackoff], which waits, is not in the
    sources. *)
Definition backoffDelay (opts : retryOptions) (k : nat) : Z :=
  Z.min (maxDelayMs opts) (initialDelayMs opts * 2 ^ (Z.of_nat k - 1)).

Fixpoint allDigits (s : string) : bool :=
  match s with
  | EmptyString => true
  | String c r => JS.isDigit c && allDigits r
  end.

(** Modelled from the spec: the retry hint of section 4.2. The failure is a
    429 and its response carries the seconds to wait, read here from the
    decimal digits of the [retry-after] header. *)
Definition retryHintSeconds (e : error) : option Z :=
  match responseStatus e, retryAfterHeader e with
  | Some status, Some (String c r) =>
      if (status =? 429) && allDigits (String c r) then Some (JS.digits (String c r) 0)
      else None
  | _, _ => None
  end.

(** Modelled from the spec: the wait before retry [k] after the failure [e],
    in milliseconds. A hint is used verbatim, [seconds] seconds; without one
    the wait is the computed delay plus the jitter, which is the fraction
    [random] of the delay for a random number [0 <= random < 1], so that it
    lies in [0, delay). *)
Definition backoffWait (opts : retryOptions) (k : nat) (e : error) (random : Q) : Q :=
  match retryHintSeconds e with
  | Some seconds => inject_Z (1000 * seconds)
  | None => (inject_Z (backoffDelay opts k) + random * inject_Z (backoffDelay opts k))%Q
  end.

(** The world of a run that waits: the state of the remote service, the
    clock in milliseconds, the random numbers that will be drawn (0 once
    they are used up) and the waits made so far, in order. *)
Record Timeline (St : Type) := {
  service : St;
  clock : Q;
  randoms : list Q;
  waits : list Q
}.

Arguments service {St} _.
Arguments clock {St} _.
Arguments randoms {St} _.
Arguments waits {St} _.

(** An attempt function of the service, run in a timeline. *)
Definition attemptOn {St T : Type} (attemptFn : St -> outcome T * St) (w : Timeline St)
    : outcome T * Timeline St :=
  let '(o, s) := attemptFn (service w) in
  (o, {| service := s; clock := clock w; randoms := randoms w; waits := waits w |}).

(** Modelled from the spec: the pause of [retryWithBackoff] before retry [k]:
    it draws a random number and lets the wait pass. *)
Definition backoffPause {St : Type} (opts : retryOptions) (k : nat) (e : error)
    (w : Timeline St) : Timeline St :=
  let wait := backoffWait opts k e (hd 0%Q (randoms w)) in
  {| service := service w; clock := (clock w + wait)%Q; randoms := tl (randoms w);
     waits := waits w ++ [wait] |}.

(** The waits that the outcomes [calls] of a run ask for, when the first of
    them is attempt [k]: one after each failure that another attempt
    follows. *)
Fixpoint waitsFor {T : Type} (opts : retryOptions) (k : nat) (rs : list Q)
    (calls : list (outcome T)) : list Q :=
  match calls with
  | Failure e :: ((_ :: _) as rest) =>
      backoffWait opts k e (hd 0%Q rs) :: waitsFor opts (S k) (tl rs) rest
  | _ => []
  end.

End ErrorHandler.

(** ** The clock: [Date] as milliseconds since the epoch, in UTC *)

Module Date.

Definition msPerDay : Z := 86400000.

(** Day number since 1970-01-01 of a time value. *)
Definition dayOf (t : Z) : Z := t / msPerDay.

(** Proleptic Gregorian calendar date (year, month, day) of a day number. *)
Definition civil (d : Z) : Z * Z * Z :=
  let z := d + 719468 in
  let era := z / 146097 in
  let doe := z - era * 146097 in
  let yoe := (doe - doe / 1460 + doe / 36524 - doe / 146096) / 365 in
  let doy := doe - (365 * yoe + yoe / 4 - yoe / 100) in
  let mp := (5 * doy + 2) / 153 in
  let day := doy - (153 * mp + 2) / 5 + 1 in
  let month := if mp <? 10 then mp + 3 else mp - 9 in
  let year := yoe + era * 400 + (if month <=? 2 then 1 else 0) in
  (year, month, day).

Definition digitChar (n : Z) : ascii := JS.chr (48 + n mod 10).

(** The [width] least significant decimal digits of [n], zero padded. *)
Fixpoint pad (width : nat) (n : Z) : string :=
  match width with
  | O => EmptyString
  | S w => pad w (n / 10) +:+ String (digitChar n) EmptyString
  end.

(** Years 0..9999 print with four digits, the others with a sign and six. *)
Definition isoYear (y : Z) : string :=
  if (0 <=? y) && (y <=? 9999) then pad 4 y
  else if y <? 0 then "-" +:+ pad 6 (- y)
  else "+" +:+ pad 6 y.

(** [date.toISOString()] *)
Definition toISOString (t : Z) : string :=
  let '(y, m, d) := civil (dayOf t) in
  let ms := t mod msPerDay in
  isoYear y +:+ "-" +:+ pad 2 m +:+ "-" +:+ pad 2 d +:+ "T" +:+
  pad 2 (ms / 3600000) +:+ ":" +:+ pad 2 (ms / 60000 mod 60) +:+ ":" +:+
  pad 2 (ms / 1000 mod 60) +:+ "." +:+ pad 3 (ms mod 1000) +:+ "Z".

(** [s.split(sep)[0]]: the part of [s] before the first [sep]. *)
Fixpoint splitHead (sep : ascii) (s : string) : string :=
  match s with
  | EmptyString => EmptyString
  | String c r => if Ascii.eqb c sep then EmptyString else String c (splitHead sep r)
  end.

(** [setUTCDate(getUTCDate() + 1)] followed by [setUTCHours(0, 0, 0, 0)]. *)
Definition nextUTCMidnight (t : Z) : Z := (dayOf t + 1) * msPerDay.

End Date.

(** ** QuotaManager *)

Module QuotaManager.

Record quota := {
  limit : Z;
  used : Z;
  dayKey : string
}.

Record QuotaStatus := {
  st_platform : string;
  st_used : Z;
  st_limit : Z;
  st_remaining : Z;
  st_resetAt : string
}.

Record QuotaExhaustedError := {
  qe_platform : string;
  qe_limit : Z;
  qe_resetAt : string
}.

(** Outcome of a method that may throw [QuotaExhaustedError]. *)
Inductive completion :=
| Normal
| Thrown (e : QuotaExhaustedError).

(** [getDayKey(date)]: [date.toISOString().split('T')[0]] *)
Definition getDayKey (now : Z) : string :=
  Date.splitHead "T" (Date.toISOString now).

Definition getNextResetTime (now : Z) : string :=
  Date.toISOString (Date.nextUTCMidnight now).

(** [registerPlatform(platform, config)]; [limitFromEnv] is the value of
    [Number(process.env[envVar])] when it is finite, [None] when the
    variable is not configured or does not parse (NaN). *)
Definition registerPlatform (now : Z) (platform : string) (dailyLimit : Z)
    (limitFromEnv : option Z) (quotas : gmap string quota) : gmap string quota :=
  let limit :=
    match limitFromEnv with
    | Some l => if 0 <? l then l else dailyLimit
    | None => dailyLimit
    end in
  <[platform := {| limit := limit; used := 0; dayKey := getDayKey now |}]> quotas.

(** [resetIfNeeded(platform, quota)]: the record after the in-place update. *)
Definition resetIfNeeded (now : Z) (q : quota) : quota :=
  let currentKey := getDayKey now in
  if String.eqb currentKey (dayKey q) then q
  else {| limit := limit q; used := 0; dayKey := currentKey |}.

(** [checkQuota(platform)]: how the call completes and the map afterwards.
    The record is mutated through the reference held by the map. *)
Definition checkQuota (now : Z) (platform : string) (quotas : gmap string quota)
    : completion * gmap string quota :=
  match quotas !! platform with
  | None => (Normal, quotas)
  | Some q =>
      let q' := resetIfNeeded now q in
      let quotas' := <[platform := q']> quotas in
      if limit q' <=? 0 then (Normal, quotas')
      else if used q' >=? limit q' then
        (Thrown {| qe_platform := platform; qe_limit := limit q';
                   qe_resetAt := getNextResetTime now |}, quotas')
      else (Normal, quotas')
  end.

Definition incrementUsage (now : Z) (platform : string) (quotas : gmap string quota)
    : gmap string quota :=
  match quotas !! platform with
  | None => quotas
  | Some q =>
      let q' := resetIfNeeded now q in
      if 0 <? limit q' then
        <[platform := {| limit := limit q'; used := used q' + 1; dayKey := dayKey q' |}]> quotas
      else <[platform := q']> quotas
  end.

Definition getStatus (now : Z) (platform : string) (quotas : gmap string quota)
    : option QuotaStatus * gmap string quota :=
  match quotas !! platform with
  | None => (None, quotas)
  | Some q =>
      let q' := resetIfNeeded now q in
      (Some {| st_platform := platform; st_used := used q'; st_limit := limit q';
               st_remaining := Z.max 0 (limit q' - used q');
               st_resetAt := getNextResetTime now |},
       <[platform := q']> quotas)
  end.

(** The calls that a client of the ledger makes. [CheckedIncrement] is an
    increment that runs only after a [checkQuota] on the same platform
    returned normally. *)
Inductive call :=
| Register (now : Z) (platform : string) (dailyLimit : Z) (limitFromEnv : option Z)
| CheckQuota (now : Z) (platform : string)
| GetStatus (now : Z) (platform : string)
| IncrementUsage (now : Z) (platform : string)
| CheckedIncrement (nowCheck nowIncrement : Z) (platform : string).

Definition perform (quotas : gmap string quota) (c : call) : gmap string quota :=
  match c with
  | Register now platform dailyLimit limitFromEnv =>
      registerPlatform now platform dailyLimit limitFromEnv quotas
  | CheckQuota now platform => (checkQuota now platform quotas).2
  | GetStatus now platform => (getStatus now platform quotas).2
  | IncrementUsage now platform => incrementUsage now platform quotas
  | CheckedIncrement nowCheck nowIncrement platform =>
      match checkQuota nowCheck platform quotas with
      | (Normal, quotas') => incrementUsage nowIncrement platform quotas'
      | (Thrown _, quotas') => quotas'
      end
  end.

Definition performAll (quotas : gmap string quota) (calls : list call)
    : gmap string quota :=
  fold_left perform calls quotas.

Definition isGuarded (c : call) : bool :=
  match c with
  | IncrementUsage _ _ => false
  | _ => true
  end.

(** The invariant of the quota records with a positive limit. *)
Definition withinLimit (quotas : gmap string quota) : Prop :=
  forall platform q, quotas !! platform = Some q -> 0 < limit q -> 0 <= used q <= limit q.

End QuotaManager.

(** ** SHA-256 over octets, as [createHash('sha256').update(data).digest('hex')] *)

Module SHA256.

Definition mask32 : Z := 0xffffffff.

Definition add32 (a b : Z) : Z := Z.land (a + b) mask32.

Definition rotr (n x : Z) : Z :=
  Z.lor (Z.shiftr x n) (Z.land (Z.shiftl x (32 - n)) mask32).

Definition Ch (x y z : Z) : Z := Z.lxor (Z.land x y) (Z.land (Z.lxor x mask32) z).

Definition Maj (x y z : Z) : Z :=
  Z.lxor (Z.lxor (Z.land x y) (Z.land x z)) (Z.land y z).

Definition bigSigma0 (x : Z) : Z := Z.lxor (Z.lxor (rotr 2 x) (rotr 13 x)) (rotr 22 x).

Definition bigSigma1 (x : Z) : Z := Z.lxor (Z.lxor (rotr 6 x) (rotr 11 x)) (rotr 25 x).

Definition smallSigma0 (x : Z) : Z := Z.lxor (Z.lxor (rotr 7 x) (rotr 18 x)) (Z.shiftr x 3).

Definition smallSigma1 (x : Z) : Z := Z.lxor (Z.lxor (rotr 17 x) (rotr 19 x)) (Z.shiftr x 10).

(** Whether [n] has no divisor among 2, ..., 2 + [k] - 1. *)
Fixpoint noDivisor (k : nat) (d n : Z) : bool :=
  match k with
  | O => true
  | S k' => if d * d >? n then true else negb (n mod d =? 0) && noDivisor k' (d + 1) n
  end.

(** The first [count] primes from [n] on, looking at [fuel] numbers. *)
Fixpoint primesFrom (fuel count : nat) (n : Z) : list Z :=
  match fuel, count with
  | S f, S c =>
      if noDivisor (Z.to_nat n) 2 n then n :: primesFrom f c (n + 1)
      else primesFrom f count (n + 1)
  | _, _ => []
  end.

(** The largest [r] below [2 ^ bits] with [r ^ 3 <= n], one bit at a time. *)
Fixpoint cubeRoot (bits : nat) (r n : Z) : Z :=
  match bits with
  | O => r
  | S b =>
      let r' := r + 2 ^ Z.of_nat b in
      cubeRoot b (if r' * r' * r' <=? n then r' else r) n
  end.

(** The round constants: the first 32 bits of the fractional parts of the
    cube roots of the first 64 primes. *)
Definition K : list Z :=
  Eval cbv in
    List.map (fun p => Z.land (cubeRoot 36 0 (p * 2 ^ 96)) mask32) (primesFrom 400 64 2).

(** The initial hash value: the first 32 bits of the fractional parts of the
    square roots of the first 8 primes. *)
Definition H0 : list Z :=
  Eval cbv in
    List.map (fun p => Z.land (Z.sqrt (p * 2 ^ 64)) mask32) (primesFrom 400 8 2).

(** Big-endian octets of [x], [n] of them. *)
Fixpoint bigEndian (n : nat) (x : Z) : list Z :=
  match n with
  | O => []
  | S m => bigEndian m (Z.shiftr x 8) ++ [Z.land x 255]
  end.

(** The message followed by the bit 1, zero bits up to 56 modulo 64 octets,
    and the bit length as a 64-bit big-endian integer. *)
Definition padMessage (msg : list Z) : list Z :=
  let len := Z.of_nat (length msg) in
  let zeros := Z.to_nat ((55 - len) mod 64) in
  msg ++ [128] ++ repeat 0 zeros ++ bigEndian 8 (8 * len).

(** Big-endian 32-bit words of a list of octets. *)
Fixpoint toWords (fuel : nat) (bytes : list Z) : list Z :=
  match fuel, bytes with
  | S f, a :: b :: c :: d :: rest =>
      (Z.shiftl a 24 + Z.shiftl b 16 + Z.shiftl c 8 + d) :: toWords f rest
  | _, _ => []
  end.

(** Message schedule, most recent word first: [rev] of it is W0..W63. *)
Fixpoint schedule (n : nat) (ws : list Z) : list Z :=
  match n with
  | O => ws
  | S m =>
      let w := add32 (add32 (smallSigma1 (nth 1 ws 0)) (nth 6 ws 0))
                     (add32 (smallSigma0 (nth 14 ws 0)) (nth 15 ws 0)) in
      schedule m (w :: ws)
  end.

Definition round (st : list Z) (kw : Z * Z) : list Z :=
  match st with
  | [a; b; c; d; e; f; g; h] =>
      let t1 := add32 (add32 (add32 h (bigSigma1 e)) (add32 (Ch e f g) (fst kw))) (snd kw) in
      let t2 := add32 (bigSigma0 a) (Maj a b c) in
      [add32 t1 t2; a; b; c; add32 d t1; e; f; g]
  | _ => st
  end.

Definition compress (h : list Z) (block : list Z) : list Z :=
  let w := rev (schedule 48 (rev block)) in
  let st := fold_left round (combine K w) h in
  map (fun p => add32 (fst p) (snd p)) (combine h st).

Fixpoint blocks (fuel : nat) (h : list Z) (ws : list Z) : list Z :=
  match fuel, ws with
  | S f, _ :: _ => blocks f (compress h (firstn 16 ws)) (skipn 16 ws)
  | _, _ => h
  end.

Definition digest (msg : list Z) : list Z :=
  let bytes := padMessage msg in
  let ws := toWords (length bytes) bytes in
  blocks (length ws) H0 ws.

Definition hexDigit (n : Z) : ascii :=
  if n <? 10 then JS.chr (48 + n) else JS.chr (87 + n).

(** [n] lowercase hexadecimal digits of [x]. *)
Fixpoint hex (n : nat) (x : Z) : string :=
  match n with
  | O => EmptyString
  | S m => hex m (Z.shiftr x 4) +:+ String (hexDigit (Z.land x 15)) EmptyString
  end.

Definition hexdigest (msg : list Z) : string :=
  fold_right (fun w s => hex 8 w +:+ s) EmptyString (digest msg).

End SHA256.

(** ** JSON values and [JSON.stringify] *)

Module JSON.

(** Values of an options object. Property lists are in the order in which
    the engine enumerates them (insertion order for the string keys that are
    not array indices); numbers are the integers that print in plain
    decimal notation. *)
Inductive value :=
| JUndefined
| JNull
| JBool (b : bool)
| JNumber (n : Z)
| JString (s : string)
| JArray (items : list value)
| JObject (props : list (string * value)).

(** The two-character escapes of QuoteJSONString, and [\u00XX] for the other
    control characters. *)
Definition quoteChar (c : ascii) : string :=
  let n := JS.code c in
  if n =? 8 then "\b"
  else if n =? 9 then "\t"
  else if n =? 10 then "\n"
  else if n =? 12 then "\f"
  else if n =? 13 then "\r"
  else if n =? 34 then String "\" (String c EmptyString)
  else if n =? 92 then "\\"
  else if n <? 32 then "\u00" +:+ SHA256.hex 2 n
  else String c EmptyString.

Fixpoint quoteBody (s : string) : string :=
  match s with
  | EmptyString => EmptyString
  | String c r => quoteChar c +:+ quoteBody r
  end.

Definition dquote : ascii := JS.chr 34.

Definition quote (s : string) : string :=
  String dquote (quoteBody s +:+ String dquote EmptyString).

Definition unhexDigit (c : ascii) : Z :=
  let n := JS.code c in if n <? 58 then n - 48 else n - 87.

(** Reads back one character of the body of a quoted string: [None] at the
    closing quote or at a malformed escape. *)
Definition unquoteChar (s : string) : option (ascii * string) :=
  match s with
  | String c r =>
      if JS.code c =? 34 then None
      else if JS.code c =? 92 then
        match r with
        | String x r' =>
            let n := JS.code x in
            if n =? 98 then Some (JS.chr 8, r')
            else if n =? 116 then Some (JS.chr 9, r')
            else if n =? 110 then Some (JS.chr 10, r')
            else if n =? 102 then Some (JS.chr 12, r')
            else if n =? 114 then Some (JS.chr 13, r')
            else if n =? 34 then Some (x, r')
            else if n =? 92 then Some (x, r')
            else if n =? 117 then
              match r' with
              | String _ (String _ (String h (String l r''))) =>
                  Some (JS.chr (16 * unhexDigit h + unhexDigit l), r'')
              | _ => None
              end
            else None
        | EmptyString => None
        end
      else Some (c, r)
  | EmptyString => None
  end.

(** Decimal digits of a natural number, most significant first. *)
Fixpoint decimal (fuel : nat) (n : Z) (acc : string) : string :=
  match fuel with
  | O => acc
  | S f =>
      let acc' := String (Date.digitChar n) acc in
      if n <? 10 then acc' else decimal f (n / 10) acc'
  end.

Definition numberToString (n : Z) : string :=
  if n <? 0 then "-" +:+ decimal (Z.to_nat (Z.log2 (- n)) + 1) (- n) EmptyString
  else decimal (Z.to_nat (Z.log2 n) + 1) n EmptyString.

Fixpoint join (sep : string) (l : list string) : string :=
  match l with
  | [] => EmptyString
  | [x] => x
  | x :: r => x +:+ sep +:+ join sep r
  end.

(** SerializeJSONProperty: [None] is [undefined]. An undefined property is
    left out of an object and printed as null in an array. *)
Fixpoint serialize (v : value) : option string :=
  match v with
  | JUndefined => None
  | JNull => Some "null"
  | JBool b => Some (if b then "true" else "false")
  | JNumber n => Some (numberToString n)
  | JString s => Some (quote s)
  | JArray items =>
      Some ("[" +:+ join "," (List.map (fun x => default "null" (serialize x)) items) +:+ "]")
  | JObject props =>
      Some ("{" +:+
            join "," (List.flat_map
                        (fun kv => match kv with
                                   | (k, x) => match serialize x with
                                               | Some s => [quote k +:+ ":" +:+ s]
                                               | None => []
                                               end
                                   end) props) +:+ "}")
  end.

(** What a property contributes to the text of its object. *)
Definition property (kv : string * value) : list string :=
  match serialize kv.2 with
  | Some s => [quote kv.1 +:+ ":" +:+ s]
  | None => []
  end.

(** [JSON.stringify] of a value that is not undefined. *)
Definition stringify (v : value) : string := default EmptyString (serialize v).

(** UTF-8 octets of a string of code units below U+0100. *)
Fixpoint utf8 (s : string) : list Z :=
  match s with
  | EmptyString => []
  | String c r =>
      let n := JS.code c in
      if n <? 128 then n :: utf8 r
      else Z.lor 192 (Z.shiftr n 6) :: Z.lor 128 (Z.land n 63) :: utf8 r
  end.

End JSON.

(** ** The LRU+TTL store behind the request cache *)

Module LRUCache.

Section Store.

Context {V : Type}.

(** Modelled from the spec: the cache entry of section 3 of the
    specification, a key, a value and the time of insertion (values are the
    defined ones: the store holds no undefined value). [ageStart] is the time
    from which the age of the entry counts: the time of the [set], or of the
    last [get] that returned the entry, since the constructor of
    [RequestCache] passes [updateAgeOnGet: true]. *)
Record entry := {
  e_key : string;
  e_value : V;
  insertedAt : Z;
  ageStart : Z
}.

(** Modelled from the spec: the store, with its bound, its TTL and the
    entries from the least to the most recently used. *)
Record t := {
  max : nat;
  ttl : Z;
  items : list entry
}.

(** Modelled from the spec: the store is the [lru-cache] package, a
    dependency whose code is not in the sources. Section 3 of the
    specification: an entry is visible iff its age is below the TTL; the age
    counts from [ageStart]. *)
Definition visible (c : t) (now : Z) (e : entry) : bool :=
  now - ageStart e <? ttl c.

Definition hasKey (key : string) (e : entry) : bool := String.eqb key (e_key e).

Definition lookup (key : string) (c : t) : option entry :=
  List.find (hasKey key) (items c).

Definition remove (key : string) (l : list entry) : list entry :=
  List.filter (fun e => negb (hasKey key e)) l.

Definition withItems (c : t) (l : list entry) : t :=
  {| max := max c; ttl := ttl c; items := l |}.

(** Modelled from the spec: [get] of the [lru-cache] store as the
    constructor configures it ([updateAgeOnGet: true]). A visible entry
    becomes the most recently used one and its age restarts, the time of its
    insertion staying what it was; an expired entry is treated as absent and
    purged. *)
Definition get (now : Z) (key : string) (c : t) : option V * t :=
  match lookup key c with
  | None => (None, c)
  | Some e =>
      if visible c now e then
        (Some (e_value e),
         withItems c (remove key (items c) ++
                      [{| e_key := key; e_value := e_value e;
                          insertedAt := insertedAt e; ageStart := now |}]))
      else (None, withItems c (remove key (items c)))
  end.

(** Modelled from the spec: [set] of the [lru-cache] store. Section 4.3 of the
    specification: it inserts or refreshes the entry, which becomes the most
    recently used one, and evicts the least recently used entry if the size
    exceeds [max] after the insertion. *)
Definition set (now : Z) (key : string) (v : V) (c : t) : t :=
  let l := remove key (items c) ++
           [{| e_key := key; e_value := v; insertedAt := now; ageStart := now |}] in
  withItems c (if (max c <? length l)%nat then tl l else l).

(** Modelled from the spec: [has] of the [lru-cache] store with
    [updateAgeOnHas: false]: it reports a visible entry and changes
    nothing. *)
Definition has (now : Z) (key : string) (c : t) : bool :=
  match lookup key c with
  | Some e => visible c now e
  | None => false
  end.

(** Modelled from the spec: [delete] of the [lru-cache] store, with whether
    the key was present. *)
Definition delete (key : string) (c : t) : bool * t :=
  (bool_decide (is_Some (lookup key c)), withItems c (remove key (items c))).

(** Modelled from the spec: [clear] of the [lru-cache] store. *)
Definition clear (c : t) : t := withItems c [].

Definition size (c : t) : nat := length (items c).

End Store.

Arguments entry V : clear implicits.
Arguments t V : clear implicits.

End LRUCache.

(** ** RequestCache *)

Module RequestCache.

Record CacheOptions := {
  maxSize : option Z;
  ttlMs : option Z
}.

Record t (V : Type) := {
  cache : LRUCache.t V;
  hits : Z;
  misses : Z
}.

Arguments cache {V} _.
Arguments hits {V} _.
Arguments misses {V} _.

(** [options.maxSize || 100] and [options.ttlMs || 3600000]: 0 stands for
    the default. *)
Definition boundOf (options : CacheOptions) : Z :=
  default 100 (JS.orElse (maxSize options) (Some 100)).

Definition ttlOf (options : CacheOptions) : Z :=
  default 3600000 (JS.orElse (ttlMs options) (Some 3600000)).

(** [new RequestCache(options)]. The constructor of the store throws a
    TypeError for a bound or a TTL that is not a positive integer, which for
    the integers of this model is a negative one; [None] stands for that
    exception. *)
Definition create {V : Type} (options : CacheOptions) : option (t V) :=
  if (boundOf options <? 0) || (ttlOf options <? 0) then None
  else
    Some {| cache := {| LRUCache.max := Z.to_nat (boundOf options);
                        LRUCache.ttl := ttlOf options;
                        LRUCache.items := [] |};
            hits := 0; misses := 0 |}.

(** The string that [generateKey] hashes. *)
Definition keyData (platform query : string) (options : option (list (string * JSON.value)))
    : string :=
  JSON.stringify
    (JSON.JObject
       [("platform"%string, JSON.JString platform);
        ("query"%string, JSON.JString (JS.trim (JS.toLowerCase query)));
        ("options"%string, JSON.JObject (default [] options))]).

(** The text of the key up to the properties of the options. *)
Definition keyPrefix (platform query : string) : string :=
  "{" +:+ JSON.quote "platform" +:+ ":" +:+ JSON.quote platform +:+ "," +:+
  JSON.quote "query" +:+ ":" +:+ JSON.quote (JS.trim (JS.toLowerCase query)) +:+ "," +:+
  JSON.quote "options" +:+ ":" +:+ "{".

(** [generateKey(platform, query, options)] *)
Definition generateKey (platform query : string) (options : option (list (string * JSON.value)))
    : string :=
  SHA256.hexdigest (JSON.utf8 (keyData platform query options)).

(** [get(key)]: the value or [undefined], and the cache afterwards. *)
Definition get {V : Type} (now : Z) (key : string) (c : t V) : option V * t V :=
  match LRUCache.get now key (cache c) with
  | (Some value, store) =>
      (Some value, {| cache := store; hits := hits c + 1; misses := misses c |})
  | (None, store) =>
      (None, {| cache := store; hits := hits c; misses := misses c + 1 |})
  end.

Definition set {V : Type} (now : Z) (key : string) (value : V) (c : t V) : t V :=
  {| cache := LRUCache.set now key value (cache c); hits := hits c; misses := misses c |}.

Definition has {V : Type} (now : Z) (key : string) (c : t V) : bool :=
  LRUCache.has now key (cache c).

Definition delete {V : Type} (key : string) (c : t V) : bool * t V :=
  let '(r, store) := LRUCache.delete key (cache c) in
  (r, {| cache := store; hits := hits c; misses := misses c |}).

Definition clear {V : Type} (c : t V) : t V :=
  {| cache := LRUCache.clear (cache c); hits := 0; misses := 0 |}.

Record CacheStats := {
  stat_size : nat;
  stat_maxSize : nat;
  stat_hits : Z;
  stat_misses : Z;
  stat_hitRate : Q
}.

(** The calls that a client of the cache makes. *)
Inductive call (V : Type) :=
| Get (now : Z) (key : string)
| Set_ (now : Z) (key : string) (value : V)
| Has (now : Z) (key : string)
| Delete (key : string)
| Clear.

Arguments Get {V} now key.
Arguments Set_ {V} now key value.
Arguments Has {V} now key.
Arguments Delete {V} key.
Arguments Clear {V}.

Definition perform {V : Type} (c : t V) (op : call V) : t V :=
  match op with
  | Get now key => (get now key c).2
  | Set_ now key value => set now key value c
  | Has now key => c
  | Delete key => (delete key c).2
  | Clear => clear c
  end.

Definition performAll {V : Type} (c : t V) (ops : list (call V)) : t V :=
  fold_left perform ops c.

(** The keys held by the cache, from the least to the most recently used. *)
Definition keys {V : Type} (c : t V) : list string :=
  List.map LRUCache.e_key (LRUCache.items (cache c)).

(** The number of entries is within the bound of the store. *)
Definition bounded {V : Type} (c : t V) : Prop :=
  (LRUCache.size (cache c) <= LRUCache.max (cache c))%nat.

Definition getStats {V : Type} (c : t V) : CacheStats :=
  let total := hits c + misses c in
  {| stat_size := LRUCache.size (cache c);
     stat_maxSize := LRUCache.max (cache c);
     stat_hits := hits c;
     stat_misses := misses c;
     stat_hitRate := if 0 <? total then Qmake (hits c) (Z.to_pos total) else 0%Q |}.

End RequestCache.

(** ** RateLimiter: the token bucket *)

Module RateLimiter.

(** Modelled from the spec: [RateLimiter] is constructed by the searchers and
    exercised by the integration tests, but its code is not in the sources.
    Section 3 of the specification: a bucket has a capacity, a refill rate
    per second, the available tokens (a fraction), the time of the last
    refill and the ordered queue of pending callers. [disposed] records that
    [dispose] ran. Callers are named by numbers. *)
Record Bucket := {
  capacity : Q;
  refillRatePerSecond : Q;
  availableTokens : Q;
  lastRefillTimestamp : Z;
  waiters : list nat;
  disposed : bool
}.

(** Modelled from the spec: a new limiter starts with a full bucket, since
    bursts up to the capacity succeed with no delay. *)
Definition create (now : Z) (requestsPerSecond burstCapacity : Q) : Bucket :=
  {| capacity := burstCapacity; refillRatePerSecond := requestsPerSecond;
     availableTokens := burstCapacity; lastRefillTimestamp := now;
     waiters := []; disposed := false |}.

(** Modelled from the spec: the lazy refill of section 4.1,
    [availableTokens = min(capacity, availableTokens + elapsedSeconds * rate)]. *)
Definition refill (now : Z) (b : Bucket) : Bucket :=
  let elapsedSeconds := (inject_Z (now - lastRefillTimestamp b) * (1 # 1000))%Q in
  {| capacity := capacity b; refillRatePerSecond := refillRatePerSecond b;
     availableTokens :=
       Qmin (capacity b) (availableTokens b + elapsedSeconds * refillRatePerSecond b)%Q;
     lastRefillTimestamp := now;
     waiters := waiters b; disposed := disposed b |}.

(** Modelled from the spec: while a token is available it is granted to the
    head of the queue, one token per grant. The result is the callers
    granted, in order, the tokens left and the callers still waiting. *)
Fixpoint drain (tokens : Q) (queue : list nat) : list nat * Q * list nat :=
  match queue with
  | [] => ([], tokens, [])
  | caller :: rest =>
      if Qle_bool 1 tokens then
        let '(granted, tokens', waiting) := drain (tokens - 1)%Q rest in
        (caller :: granted, tokens', waiting)
      else ([], tokens, queue)
  end.

Definition grantWaiters (b : Bucket) : Bucket * list nat :=
  let '(granted, tokens, waiting) := drain (availableTokens b) (waiters b) in
  ({| capacity := capacity b; refillRatePerSecond := refillRatePerSecond b;
      availableTokens := tokens; lastRefillTimestamp := lastRefillTimestamp b;
      waiters := waiting; disposed := disposed b |}, granted).

(** Modelled from the spec: a caller that asks for admission joins the
    queue at its end. *)
Definition enqueue (caller : nat) (b : Bucket) : Bucket :=
  {| capacity := capacity b; refillRatePerSecond := refillRatePerSecond b;
     availableTokens := availableTokens b;
     lastRefillTimestamp := lastRefillTimestamp b;
     waiters := waiters b ++ [caller]; disposed := disposed b |}.

(** Modelled from the spec: [acquire()] / [waitForPermission()] at time
    [now]: refill, join the queue, grant from the head. After [dispose] the
    call fails fast and nothing changes. *)
Definition acquire (now : Z) (caller : nat) (b : Bucket) : Bucket * list nat :=
  if disposed b then (b, []) else grantWaiters (enqueue caller (refill now b)).

(** Modelled from the spec: the scheduled check that wakes queued callers
    once the next token exists. *)
Definition wake (now : Z) (b : Bucket) : Bucket * list nat :=
  if disposed b then (b, []) else grantWaiters (refill now b).

(** Modelled from the spec: [dispose()] cancels all pending waiters. *)
Definition dispose (b : Bucket) : Bucket :=
  {| capacity := capacity b; refillRatePerSecond := refillRatePerSecond b;
     availableTokens := availableTokens b;
     lastRefillTimestamp := lastRefillTimestamp b;
     waiters := []; disposed := true |}.

Inductive event :=
| Acquire (now : Z) (caller : nat)
| Wake (now : Z)
| Dispose.

(** One event: the bucket afterwards and the callers it grants, in order. *)
Definition step (b : Bucket) (ev : event) : Bucket * list nat :=
  match ev with
  | Acquire now caller => acquire now caller b
  | Wake now => wake now b
  | Dispose => (dispose b, [])
  end.

Fixpoint run (b : Bucket) (evs : list event) : Bucket * list nat :=
  match evs with
  | [] => (b, [])
  | ev :: rest =>
      let '(b1, g1) := step b ev in
      let '(b2, g2) := run b1 rest in
      (b2, g1 ++ g2)
  end.

(** An [acquire] is granted immediately when its caller, the last of the
    queue, does not have to wait. *)
Definition immediate (b : Bucket) (ev : event) : bool :=
  match ev with
  | Acquire now caller =>
      negb (disposed b) && bool_decide (waiters (fst (acquire now caller b)) = [])
  | _ => false
  end.

Fixpoint countImmediate (b : Bucket) (evs : list event) : nat :=
  match evs with
  | [] => O
  | ev :: rest =>
      ((if immediate b ev then 1 else 0) + countImmediate (fst (step b ev)) rest)%nat
  end.

(** The callers that asked for admission before any [dispose], in arrival
    order. *)
Fixpoint arrivals (evs : list event) : list nat :=
  match evs with
  | [] => []
  | Acquire _ caller :: rest => caller :: arrivals rest
  | Wake _ :: rest => arrivals rest
  | Dispose :: _ => []
  end.

(** The clock does not go backwards along the events. *)
Fixpoint monotone (t : Z) (evs : list event) : Prop :=
  match evs with
  | [] => True
  | Acquire now _ :: rest => t <= now /\ monotone now rest
  | Wake now :: rest => t <= now /\ monotone now rest
  | Dispose :: rest => monotone t rest
  end.

(** The states a run goes through, the first one included. *)
Fixpoint states (b : Bucket) (evs : list event) : list Bucket :=
  match evs with
  | [] => [b]
  | ev :: rest => b :: states (fst (step b ev)) rest
  end.

(** The parameters are non-negative and the tokens lie between 0 and the
    capacity. *)
Definition wellFormed (b : Bucket) : Prop :=
  (0 <= capacity b)%Q /\ (0 <= refillRatePerSecond b)%Q /\
  (0 <= availableTokens b)%Q /\ (availableTokens b <= capacity b)%Q.

Definition elapsedSeconds (t0 t1 : Z) : Q := (inject_Z (t1 - t0) * (1 # 1000))%Q.

(** No caller waits while a whole token is available. *)
Definition settled (b : Bucket) : Prop :=
  waiters b = [] \/ (availableTokens b < 1)%Q.

(** The event does not turn the clock of the bucket back. *)
Definition eventTimeOk (b : Bucket) (ev : event) : Prop :=
  match ev with
  | Acquire now _ => lastRefillTimestamp b <= now
  | Wake now => lastRefillTimestamp b <= now
  | Dispose => True
  end.

(** All the events happen at time [t]. *)
Definition allAt (t : Z) (evs : list event) : Prop :=
  Forall (fun ev => match ev with
                    | Acquire now _ => now = t
                    | Wake now => now = t
                    | Dispose => True
                    end) evs.

(** [status()] *)
Definition status (b : Bucket) : Q * Q * nat :=
  (availableTokens b, capacity b, length (waiters b)).

(** The calls are issued faster than the refill rate: each [acquire] comes
    before the time since the one before it, [previous] for the first, has
    refilled a whole token. *)
Fixpoint fasterThanRefill (rate : Q) (previous : Z) (evs : list event) : Prop :=
  match evs with
  | [] => True
  | Acquire now _ :: rest =>
      (elapsedSeconds previous now * rate < 1)%Q /\ fasterThanRefill rate now rest
  | _ :: rest => fasterThanRefill rate previous rest
  end.

End RateLimiter.

(** ** MirrorRegistry *)

Module MirrorRegistry.

(** Modelled from the spec: the three states of a mirror. *)
Inductive MirrorStatus := Unknown | Healthy | Unhealthy.

(** Modelled from the spec: the mirror registry lives in the Sci-Hub
    searcher, whose code is not in the sources. Section 3 of the
    specification gives the record. *)
Record MirrorRecord := {
  url : string;
  status : MirrorStatus;
  lastResponseTimeMs : Z;
  lastCheckedAt : Z;
  consecutiveFailures : nat
}.

Inductive SelectError := NoMirrorAvailable.

Definition isHealthy (m : MirrorRecord) : bool :=
  match status m with Healthy => true | _ => false end.

Definition isUnknown (m : MirrorRecord) : bool :=
  match status m with Unknown => true | _ => false end.

Definition isUnhealthy (m : MirrorRecord) : bool :=
  match status m with Unhealthy => true | _ => false end.

(** The first mirror of the list with the lowest response time. *)
Fixpoint fastest (best : MirrorRecord) (l : list MirrorRecord) : MirrorRecord :=
  match l with
  | [] => best
  | m :: rest =>
      fastest (if lastResponseTimeMs m <? lastResponseTimeMs best then m else best) rest
  end.

(** Modelled from the spec: [selectBest()] of section 4.5 returns the Healthy
    mirror with the lowest [lastResponseTimeMs], falls back to an Unknown
    mirror if none is Healthy, and fails with [NoMirrorAvailable]
    otherwise. *)
Definition selectBest (mirrors : list MirrorRecord) : MirrorRecord + SelectError :=
  match List.filter isHealthy mirrors with
  | m :: rest => inl (fastest m rest)
  | [] =>
      match List.find isUnknown mirrors with
      | Some m => inl m
      | None => inr NoMirrorAvailable
      end
  end.

Section Feedback.

(** The number of consecutive failures at which a mirror is demoted. *)
Variable failureThreshold : nat.

(** Modelled from the spec: [reportFailure(mirrorUrl)] increments
    [consecutiveFailures] and demotes the mirror to Unhealthy once the
    threshold is reached. *)
Definition reportFailure (mirrorUrl : string) (mirrors : list MirrorRecord)
    : list MirrorRecord :=
  List.map
    (fun m =>
       if String.eqb (url m) mirrorUrl then
         let failures := S (consecutiveFailures m) in
         {| url := url m;
            status := if (failureThreshold <=? failures)%nat then Unhealthy else status m;
            lastResponseTimeMs := lastResponseTimeMs m;
            lastCheckedAt := lastCheckedAt m;
            consecutiveFailures := failures |}
       else m)
    mirrors.

(** Modelled from the spec: [reportSuccess(mirrorUrl)] resets
    [consecutiveFailures] and promotes the mirror to Healthy. *)
Definition reportSuccess (mirrorUrl : string) (mirrors : list MirrorRecord)
    : list MirrorRecord :=
  List.map
    (fun m =>
       if String.eqb (url m) mirrorUrl then
         {| url := url m; status := Healthy;
            lastResponseTimeMs := lastResponseTimeMs m;
            lastCheckedAt := lastCheckedAt m;
            consecutiveFailures := O |}
       else m)
    mirrors.

End Feedback.

(** The registry of the selection test: measured at 50 ms and 10 ms
    (Healthy) and at 9999 ms (Unhealthy). *)
Definition mirror50 : MirrorRecord :=
  {| url := "https://sci-hub.se"; status := Healthy; lastResponseTimeMs := 50;
     lastCheckedAt := 0; consecutiveFailures := O |}.

Definition mirror10 : MirrorRecord :=
  {| url := "https://sci-hub.st"; status := Healthy; lastResponseTimeMs := 10;
     lastCheckedAt := 0; consecutiveFailures := O |}.

Definition mirror9999 : MirrorRecord :=
  {| url := "https://sci-hub.ru"; status := Unhealthy; lastResponseTimeMs := 9999;
     lastCheckedAt := 0; consecutiveFailures := O |}.

Definition threeMirrors : list MirrorRecord := [mirror50; mirror10; mirror9999].

End MirrorRegistry.

(** ** String methods used by the security utilities *)

Module Str.

(** [s.startsWith(prefix)] *)
Fixpoint startsWith (s prefix : string) {struct prefix} : bool :=
  match prefix, s with
  | EmptyString, _ => true
  | String p ps, String c cs => Ascii.eqb c p && startsWith cs ps
  | String _ _, EmptyString => false
  end.

(** [s.includes(sub)] *)
Fixpoint includes (s sub : string) : bool :=
  startsWith s sub ||
  match s with
  | EmptyString => false
  | String _ r => includes r sub
  end.

(** [s.substring(0, n)] *)
Fixpoint take (n : nat) (s : string) : string :=
  match n, s with
  | S m, String c r => String c (take m r)
  | _, _ => EmptyString
  end.

(** [s.substring(n)] *)
Fixpoint drop (n : nat) (s : string) : string :=
  match n, s with
  | S m, String _ r => drop m r
  | _, _ => s
  end.

(** The characters of [s] that satisfy [p], in order. *)
Fixpoint filter (p : ascii -> bool) (s : string) : string :=
  match s with
  | EmptyString => EmptyString
  | String c r => if p c then String c (filter p r) else filter p r
  end.

Fixpoint forallb (p : ascii -> bool) (s : string) : bool :=
  match s with
  | EmptyString => true
  | String c r => p c && forallb p r
  end.

(** [c.repeat(n)] for a one-character string. *)
Fixpoint repeat (c : ascii) (n : nat) : string :=
  match n with
  | O => EmptyString
  | S m => String c (repeat c m)
  end.

(** [s.includes(c)] for a one-character string. *)
Definition hasChar (c : ascii) (s : string) : bool :=
  negb (forallb (fun x => negb (Ascii.eqb x c)) s).

End Str.

(** ** Regular expressions

    The patterns of the sources use literals, character classes,
    alternation and repetition; [test] on such a pattern decides membership
    in its language, which the derivative of Brzozowski computes. *)

Module Regex.

Inductive regex :=
| Void
| Eps
| Class (p : ascii -> bool)
| Cat (r1 r2 : regex)
| Alt (r1 r2 : regex)
| Star (r : regex).

Fixpoint nullable (r : regex) : bool :=
  match r with
  | Void => false
  | Eps => true
  | Class _ => false
  | Cat r1 r2 => nullable r1 && nullable r2
  | Alt r1 r2 => nullable r1 || nullable r2
  | Star _ => true
  end.

Fixpoint deriv (c : ascii) (r : regex) : regex :=
  match r with
  | Void => Void
  | Eps => Void
  | Class p => if p c then Eps else Void
  | Cat r1 r2 =>
      if nullable r1 then Alt (Cat (deriv c r1) r2) (deriv c r2)
      else Cat (deriv c r1) r2
  | Alt r1 r2 => Alt (deriv c r1) (deriv c r2)
  | Star r1 => Cat (deriv c r1) (Star r1)
  end.

(** Whether the whole of [s] matches [r]: [/^r$/.test(s)]. *)
Fixpoint matches (r : regex) (s : string) : bool :=
  match s with
  | EmptyString => nullable r
  | String c s' => matches (deriv c r) s'
  end.

(** The language of a pattern. *)
Inductive Lang : regex -> string -> Prop :=
| LangEps : Lang Eps EmptyString
| LangClass (p : ascii -> bool) (c : ascii) :
    p c = true -> Lang (Class p) (String c EmptyString)
| LangCat (r1 r2 : regex) (s1 s2 : string) :
    Lang r1 s1 -> Lang r2 s2 -> Lang (Cat r1 r2) (s1 +:+ s2)
| LangAltL (r1 r2 : regex) (s : string) : Lang r1 s -> Lang (Alt r1 r2) s
| LangAltR (r1 r2 : regex) (s : string) : Lang r2 s -> Lang (Alt r1 r2) s
| LangStarNil (r : regex) : Lang (Star r) EmptyString
| LangStarCons (r : regex) (s1 s2 : string) :
    Lang r s1 -> Lang (Star r) s2 -> Lang (Star r) (s1 +:+ s2).

(** A literal character, and one matched without regard to case (flag i). *)
Definition char (c : ascii) : regex := Class (Ascii.eqb c).

Definition charCI (c : ascii) : regex :=
  Class (fun x => Ascii.eqb (JS.lowerChar x) (JS.lowerChar c)).

Fixpoint lit (s : string) : regex :=
  match s with
  | EmptyString => Eps
  | String c r => Cat (char c) (lit r)
  end.

Fixpoint litCI (s : string) : regex :=
  match s with
  | EmptyString => Eps
  | String c r => Cat (charCI c) (litCI r)
  end.

(** [r?], [r+] and [r{n,}] *)
Definition opt (r : regex) : regex := Alt Eps r.

Definition plus (r : regex) : regex := Cat r (Star r).

Fixpoint atLeast (n : nat) (r : regex) : regex :=
  match n with
  | O => Star r
  | S m => Cat r (atLeast m r)
  end.

(** A pattern anchored at the start only: [/^r/.test(s)]. *)
Definition matchesPrefix (r : regex) (s : string) : bool :=
  matches (Cat r (Star (Class (fun _ => true)))) s.

(** The classes [\d], [\s], [\S] and [[a-zA-Z0-9_-]]. *)
Definition digit : regex := Class JS.isDigit.

Definition space : regex := Class JS.isWhiteSpace.

Definition isNonSpace (c : ascii) : bool := negb (JS.isWhiteSpace c).

Definition nonSpace : regex := Class isNonSpace.

Definition isTokenChar (c : ascii) : bool :=
  let n := JS.code c in
  (97 <=? n) && (n <=? 122) || (65 <=? n) && (n <=? 90) ||
  (48 <=? n) && (n <=? 57) || (n =? 95) || (n =? 45).

(** Every character that a class of the pattern accepts satisfies [q]. *)
Fixpoint classesWithin (q : ascii -> bool) (r : regex) : Prop :=
  match r with
  | Void => True
  | Eps => True
  | Class p => forall c, p c = true -> q c = true
  | Cat r1 r2 => classesWithin q r1 /\ classesWithin q r2
  | Alt r1 r2 => classesWithin q r1 /\ classesWithin q r2
  | Star r1 => classesWithin q r1
  end.

(** Every class of the pattern accepts a character exactly when it accepts
    its lower-case form. *)
Fixpoint caseBlind (r : regex) : Prop :=
  match r with
  | Void => True
  | Eps => True
  | Class p => forall c, p (JS.lowerChar c) = p c
  | Cat r1 r2 => caseBlind r1 /\ caseBlind r2
  | Alt r1 r2 => caseBlind r1 /\ caseBlind r2
  | Star r1 => caseBlind r1
  end.

End Regex.

(** ** SecurityUtils *)

Module SecurityUtils.

Import Regex.

Definition REDACTED : string := "***REDACTED***".

(** [maskSensitiveData(str)] *)
Definition maskSensitiveData (str : string) : string :=
  if (String.length str <? 8)%nat then "***"
  else
    let visibleChars := Nat.min 4 (String.length str / 4) in
    Str.take visibleChars str +:+
    Str.repeat "*" (String.length str - visibleChars * 2) +:+
    Str.drop (String.length str - visibleChars) str.

Record DoiResult := {
  valid : bool;
  sanitized : string;
  error : option string
}.

Definition doiPrefixes : list string :=
  ["https://doi.org/"; "http://doi.org/"; "https://dx.doi.org/"; "http://dx.doi.org/";
   "doi:"; "DOI:"].

(** The loop over the prefixes: the first one that the string starts with,
    without regard to case, is cut off, and the loop ends. *)
Fixpoint stripPrefix (prefixes : list string) (s : string) : string :=
  match prefixes with
  | [] => s
  | prefix :: rest =>
      if Str.startsWith (JS.toLowerCase s) (JS.toLowerCase prefix)
      then Str.drop (String.length prefix) s
      else stripPrefix rest s
  end.

(** [/^10\.\d{4,}(\.\d+)*\/\S+$/] *)
Definition doiPattern : regex :=
  Cat (lit "10.")
    (Cat (atLeast 4 digit)
       (Cat (Star (Cat (char ".") (plus digit)))
          (Cat (char "/") (plus nonSpace)))).

Definition invalidDoi (message : string) : DoiResult :=
  {| valid := false; sanitized := EmptyString; error := Some message |}.

(** [sanitizeDoi(doi)] *)
Definition sanitizeDoi (doi : string) : DoiResult :=
  match doi with
  | EmptyString => invalidDoi "DOI must be a non-empty string"
  | _ =>
      let sanitized := stripPrefix doiPrefixes (JS.trim doi) in
      if negb (matches doiPattern sanitized) then invalidDoi "Invalid DOI format"
      else if (256 <? String.length sanitized)%nat
      then invalidDoi "DOI too long (max 256 characters)"
      else if Str.hasChar "<" sanitized || Str.hasChar ">" sanitized ||
              Str.hasChar JSON.dquote sanitized || Str.hasChar "'" sanitized
      then invalidDoi "DOI contains invalid characters"
      else {| valid := true; sanitized := sanitized; error := None |}
  end.

Inductive QueryContext := Springer | Wos | General.

(** [[\x00-\x1F\x7F]] *)
Definition isControl (c : ascii) : bool :=
  let n := JS.code c in (n <=? 31) || (n =? 127).

Definition isParen (c : ascii) : bool :=
  let n := JS.code c in (n =? 40) || (n =? 41).

Definition isQuote (c : ascii) : bool := JS.code c =? 34.

(** The class of the double quote and the two angle brackets. *)
Definition isQuoteOrAngle (c : ascii) : bool :=
  let n := JS.code c in (n =? 34) || (n =? 60) || (n =? 62).

Definition isSemicolon (c : ascii) : bool := JS.code c =? 59.

Definition isSlash (c : ascii) : bool := JS.code c =? 47.

(** [s.replace(/[...]/g, '')] for a character class. *)
Definition removeChars (p : ascii -> bool) (s : string) : string :=
  Str.filter (fun c => negb (p c)) s.

(** The global replacement that puts a backslash before every double
    quote. *)
Fixpoint escapeQuotes (s : string) : string :=
  match s with
  | EmptyString => EmptyString
  | String c r =>
      if isQuote c then String "\" (String c (escapeQuotes r))
      else String c (escapeQuotes r)
  end.

(** [s.replace(/ab/g, '')] for the two characters [a] and [b]: the
    occurrences are removed from left to right, and what is left is not
    searched again. *)
Fixpoint removePair (a b : ascii) (s : string) : string :=
  match s with
  | String c1 (String c2 r as t) =>
      if Ascii.eqb c1 a && Ascii.eqb c2 b then removePair a b r
      else String c1 (removePair a b t)
  | _ => s
  end.

(** [s.replace(/\/\/+/g, '')]: every run of two or more slashes is removed;
    [inRun] tells that the slashes read belong to such a run. *)
Fixpoint removeSlashRuns (inRun : bool) (s : string) : string :=
  match s with
  | EmptyString => EmptyString
  | String c r =>
      if isSlash c then
        if inRun then removeSlashRuns true r
        else
          match r with
          | String c' _ =>
              if isSlash c' then removeSlashRuns true r
              else String c (removeSlashRuns false r)
          | EmptyString => String c EmptyString
          end
      else String c (removeSlashRuns false r)
  end.

(** [escapeQueryValue(value, context)] *)
Definition escapeQueryValue (value : string) (context : QueryContext) : string :=
  match value with
  | EmptyString => EmptyString
  | _ =>
      let escaped := removeChars isControl value in
      let escaped :=
        match context with
        | Springer =>
            removePair "*" "/"
              (removePair "/" "*"
                 (removeChars isSemicolon (removeChars isParen (escapeQuotes escaped))))
        | Wos =>
            if negb (Str.includes escaped "TS=") && negb (Str.includes escaped "TI=") &&
               negb (Str.includes escaped "AU=") && negb (Str.includes escaped "SO=")
            then JS.trim (removeChars isParen (removeChars isQuote escaped))
            else escaped
        | General =>
            JS.trim (removeSlashRuns false (removeChars isQuoteOrAngle escaped))
        end in
      let escaped :=
        if (200 <? String.length escaped)%nat then Str.take 200 escaped else escaped in
      JS.trim escaped
  end.

(** Every double quote of [s] comes directly after a backslash;
    [afterBackslash] tells whether the character before [s] is one. *)
Fixpoint quotesEscaped (afterBackslash : bool) (s : string) : bool :=
  match s with
  | EmptyString => true
  | String c r =>
      (negb (isQuote c) || afterBackslash) && quotesEscaped (Ascii.eqb c "\") r
  end.

(** [/^[a-zA-Z0-9_-]{n,}$/.test(s)] *)
Definition tokenPattern (n : nat) : regex := atLeast n (Class isTokenChar).

(** The words that make the name of a URL parameter sensitive. *)
Definition sensitiveParamWords : list string :=
  ["api_key"; "apikey"; "token"; "secret"; "password"; "private"; "auth"].

Definition isSensitiveParam (key : string) : bool :=
  let lowerKey := JS.toLowerCase key in
  existsb (Str.includes lowerKey) sensitiveParamWords.

(** The body of the loop of [sanitizeParams] for one key. *)
Definition sanitizeParam (kv : string * JSON.value) : string * JSON.value :=
  let value := if isSensitiveParam kv.1 then JSON.JString REDACTED else kv.2 in
  (kv.1,
   match value with
   | JSON.JString s =>
       if matches (tokenPattern 16) s then JSON.JString (Str.take 4 s +:+ "***")
       else value
   | _ => value
   end).

(** [sanitizeParams(params)]; [None] is a missing [params]. *)
Definition sanitizeParams (params : option (list (string * JSON.value)))
    : option (list (string * JSON.value)) :=
  List.map sanitizeParam <$> params.

(** A separator [[-_]], and the patterns of the sensitive header names. *)
Definition sep : regex := Class (fun c => (JS.code c =? 45) || (JS.code c =? 95)).

Definition sensitiveHeaderPatterns : list regex :=
  [Cat (litCI "api") (Cat (opt sep) (litCI "key"));
   Cat (litCI "x") (Cat sep (Cat (litCI "api") (Cat sep (litCI "key"))));
   litCI "authorization";
   Cat (litCI "x") (Cat sep (litCI "apikey"));
   Cat (litCI "access") (Cat sep (litCI "token"));
   litCI "bearer";
   Cat (litCI "x") (Cat sep (Cat (litCI "auth") (Cat sep (litCI "token"))));
   litCI "cookie";
   Cat (litCI "set") (Cat sep (litCI "cookie"));
   Cat (litCI "x") (Cat sep (Cat (litCI "csrf") (Cat sep (litCI "token"))));
   Cat (litCI "x") (Cat sep (Cat (litCI "forwarded") (Cat sep (litCI "for"))));
   litCI "referer";
   Cat (litCI "user") (Cat sep (litCI "agent"))].

Definition isSensitiveHeader (key : string) : bool :=
  existsb (fun pattern => matches pattern key) sensitiveHeaderPatterns.

(** [/^(Bearer|Basic)\s+/i] *)
Definition authScheme : regex :=
  Cat (Alt (litCI "Bearer") (litCI "Basic")) (plus space).

(** The test of a header value that may contain a token. *)
Definition isCredential (s : string) : bool :=
  matchesPrefix authScheme s || matches (tokenPattern 20) s ||
  Str.includes s "session=" || Str.includes s "token=".

Definition sanitizeHeader (kv : string * JSON.value) : string * JSON.value :=
  let value := if isSensitiveHeader kv.1 then JSON.JString REDACTED else kv.2 in
  (kv.1,
   match value with
   | JSON.JString s => if isCredential s then JSON.JString REDACTED else value
   | _ => value
   end).

(** [sanitizeHeaders(headers)] *)
Definition sanitizeHeaders (headers : option (list (string * JSON.value)))
    : option (list (string * JSON.value)) :=
  List.map sanitizeHeader <$> headers.

(** The words that make a key of the request body sensitive. *)
Definition sensitiveBodyWords : list string :=
  ["password"; "secret"; "token"; "api_key"; "private"].

Definition isSensitiveBodyKey (key : string) : bool :=
  let lowerKey := JS.toLowerCase key in
  existsb (Str.includes lowerKey) sensitiveBodyWords.

Fixpoint dropWhile (p : ascii -> bool) (s : string) : string :=
  match s with
  | EmptyString => EmptyString
  | String c r => if p c then dropWhile p r else s
  end.

(** [s.replace(/\s+\S+/, ' ***REDACTED***')]: the first run of white space
    that a character other than white space follows is replaced together
    with the word after it. *)
Fixpoint redactFirstWord (s : string) : string :=
  match s with
  | EmptyString => EmptyString
  | String c r =>
      if JS.isWhiteSpace c then
        match dropWhile JS.isWhiteSpace r with
        | EmptyString => s
        | word => " " +:+ REDACTED +:+ dropWhile Regex.isNonSpace word
        end
      else String c (redactFirstWord r)
  end.

(** [sanitizeBody(body)]. A key [__proto__] is assigned to the prototype of
    the new object and is no property of it. *)
Fixpoint sanitizeBody (body : JSON.value) : JSON.value :=
  match body with
  | JSON.JArray items => JSON.JArray (List.map sanitizeBody items)
  | JSON.JObject props =>
      JSON.JObject
        (List.flat_map
           (fun kv =>
              match kv with
              | (key, value) =>
                  if String.eqb key "__proto__" then []
                  else if isSensitiveBodyKey key then [(key, JSON.JString REDACTED)]
                  else [(key, sanitizeBody value)]
              end) props)
  | JSON.JString s =>
      if matchesPrefix authScheme s then JSON.JString (redactFirstWord s)
      else if matches (tokenPattern 32) s then JSON.JString (Str.take 8 s +:+ "***")
      else body
  | _ => body
  end.

(** The properties that a value holds, at any depth: [Holds body key value]
    when an object inside [body], or [body] itself, has the property [key]
    with the value [value]. *)
Inductive Holds : JSON.value -> string -> JSON.value -> Prop :=
| HoldsHere (props : list (string * JSON.value)) (key : string) (value : JSON.value) :
    In (key, value) props -> Holds (JSON.JObject props) key value
| HoldsInProperty (props : list (string * JSON.value)) (key' : string)
    (value' : JSON.value) (key : string) (value : JSON.value) :
    In (key', value') props -> Holds value' key value ->
    Holds (JSON.JObject props) key value
| HoldsInItem (items : list JSON.value) (item : JSON.value) (key : string)
    (value : JSON.value) :
    In item items -> Holds item key value -> Holds (JSON.JArray items) key value.

End SecurityUtils.

(** ** ErrorHandler: the errors it throws and their messages *)

Module ErrorMessages.

Import ErrorHandler.

(** [HTTP_ERROR_CODES] *)
Definition HTTP_ERROR_CODES : list (Z * string) :=
  [(400, "Bad Request - Invalid parameters or syntax");
   (401, "Unauthorized - Invalid or missing API key");
   (403, "Forbidden - Access denied or rate limit exceeded");
   (404, "Not Found - Resource does not exist");
   (405, "Method Not Allowed - HTTP method not supported");
   (408, "Request Timeout - Server took too long to respond");
   (429, "Too Many Requests - Rate limit exceeded");
   (500, "Internal Server Error - Server error");
   (502, "Bad Gateway - Server communication error");
   (503, "Service Unavailable - Server temporarily unavailable");
   (504, "Gateway Timeout - Server timeout")]%string.

Definition describeStatus (status : Z) : option string :=
  snd <$> List.find (fun entry => fst entry =? status) HTTP_ERROR_CODES.

(** A caught value as the handler reads it: the fields that classification
    inspects ([core]), the body and the status text of the response, and the
    message of the error, a string when there is one. The body and the status
    text belong to the response and are read only when there is one. The
    request configuration, which the handler only logs, is left out; its
    [method], when present, is taken to be a string. *)
Record CaughtError := {
  core : error;
  responseData : JSON.value;
  responseStatusText : JSON.value;
  errorMessage : option string
}.

(** [value?.key]: the property of an object, undefined for anything else. *)
Definition getProperty (value : JSON.value) (key : string) : JSON.value :=
  match value with
  | JSON.JObject props =>
      match List.find (fun kv => String.eqb (fst kv) key) props with
      | Some kv => snd kv
      | None => JSON.JUndefined
      end
  | _ => JSON.JUndefined
  end.

(** [error.response?.data] and [error.response?.statusText] *)
Definition dataOf (e : CaughtError) : JSON.value :=
  match err_response (core e) with
  | Some _ => responseData e
  | None => JSON.JUndefined
  end.

Definition statusTextOf (e : CaughtError) : JSON.value :=
  match err_response (core e) with
  | Some _ => responseStatusText e
  | None => JSON.JUndefined
  end.

(** The places where a message is looked for, in order. *)
Definition candidates (e : CaughtError) : list JSON.value :=
  [getProperty (dataOf e) "message";
   getProperty (getProperty (dataOf e) "error") "message";
   getProperty (dataOf e) "error";
   getProperty (dataOf e) "detail";
   statusTextOf e;
   match errorMessage e with
   | Some m => JSON.JString m
   | None => JSON.JUndefined
   end].

(** [candidate && typeof candidate === 'string'] *)
Definition isMessage (candidate : JSON.value) : bool :=
  match candidate with
  | JSON.JString (String _ _) => true
  | _ => false
  end.

(** [extractErrorMessage(error)] *)
Definition extractErrorMessage (e : CaughtError) : string :=
  match List.find isMessage (candidates e) with
  | Some (JSON.JString s) => s
  | _ => "Unknown error"
  end.

(** What [new ApiError(options)] holds, but for the timestamp and the
    details: [retryable] is computed by the constructor. *)
Record ApiError := {
  message : string;
  status : option Z;
  platform : string;
  operation : string;
  retryable : bool
}.

Definition newApiError (message : string) (status : option Z)
    (platform operation : string) : ApiError :=
  {| message := message; status := status; platform := platform;
     operation := operation; retryable := ApiError_isRetryable status |}.

(** An [ApiError] as [isRetryable] sees it: an instance of the class, with
    no [response] property. *)
Definition asError (a : ApiError) : error :=
  {| instanceofApiError := true; err_response := None; err_status := status a |}.

(** An [ApiError] that is caught again: it has a message and no
    [response]. *)
Definition caught (a : ApiError) : CaughtError :=
  {| core := asError a; responseData := JSON.JUndefined;
     responseStatusText := JSON.JUndefined; errorMessage := Some (message a) |}.

Section Handler.

(** [this.platform] *)
Variable thisPlatform : string.

(** [status === n] *)
Definition statusIs (status : option Z) (n : Z) : bool :=
  match status with
  | Some s => s =? n
  | None => false
  end.

(** [createUserMessage(status, message, operation)] *)
Definition createUserMessage (status : option Z) (message operation : string) : string :=
  let statusDesc :=
    if JS.truthy status then describeStatus (default 0 status) else Some EmptyString in
  if statusIs status 401 then
    thisPlatform +:+ ": Invalid or missing API key. Please check your credentials."
  else if statusIs status 403 then
    thisPlatform +:+
    ": Access forbidden. This may be due to rate limiting or insufficient permissions."
  else if statusIs status 404 then
    thisPlatform +:+ ": Resource not found. The requested item may not exist."
  else if statusIs status 429 then
    thisPlatform +:+ ": Rate limit exceeded. Please wait before making more requests."
  else if JS.truthy status && (500 <=? default 0 status) then
    thisPlatform +:+ ": Server error (" +:+ JSON.numberToString (default 0 status) +:+
    "). The service may be temporarily unavailable."
  else
    let prefix := thisPlatform +:+ " " +:+ operation +:+ " failed" in
    let statusInfo :=
      if JS.truthy status then
        " (" +:+ JSON.numberToString (default 0 status) +:+
        match statusDesc with
        | Some (String c r) => ": " +:+ String c r
        | _ => EmptyString
        end +:+ ")"
      else EmptyString in
    prefix +:+ statusInfo +:+ ": " +:+ SecurityUtils.maskSensitiveData message.

(** [handleHttpError(error, operation)]: the [ApiError] it throws. *)
Definition handleHttpError (e : CaughtError) (operation : string) : ApiError :=
  let status := responseStatus (core e) in
  let responseMessage := extractErrorMessage e in
  newApiError (createUserMessage status responseMessage operation) status
    thisPlatform operation.

(** [handleError(error, operation)]: the [ApiError] it throws. *)
Definition handleError (e : CaughtError) (operation : string) : ApiError :=
  match err_response (core e) with
  | Some _ => handleHttpError e operation
  | None =>
      let message :=
        match errorMessage e with
        | Some (String c r) => String c r
        | _ => "Unknown error occurred"%string
        end in
      newApiError (thisPlatform +:+ " " +:+ operation +:+ " failed: " +:+ message) None
        thisPlatform operation
  end.

End Handler.

End ErrorMessages.

(** ** The calendar behind the day key

    The date of a day depends on the day of its era of 400 years, which
    [cycle] maps to the year of the era, the month and the day; [uncycle]
    counts the days back. Both serve to show that [Date.civil] gives
    different dates to different days. *)

Module Calendar.

Definition cycle (doe : Z) : Z * Z * Z :=
  let yoe := (doe - doe / 1460 + doe / 36524 - doe / 146096) / 365 in
  let doy := doe - (365 * yoe + yoe / 4 - yoe / 100) in
  let mp := (5 * doy + 2) / 153 in
  let day := doy - (153 * mp + 2) / 5 + 1 in
  let month := if mp <? 10 then mp + 3 else mp - 9 in
  (yoe, month, day).

Definition uncycle (yoe month day : Z) : Z :=
  365 * yoe + yoe / 4 - yoe / 100 +
  (153 * (if 2 <? month then month - 3 else month + 9) + 2) / 5 + day - 1.

(** The time values of a [Date]: 100 000 000 days on each side of the
    epoch. *)
Definition validTime (t : Z) : Prop :=
  - 8640000000000000 <= t <= 8640000000000000.

(** The date part of an ISO string. *)
Definition isoDate (date : Z * Z * Z) : string :=
  let '(y, m, d) := date in
  Date.isoYear y +:+ "-" +:+ Date.pad 2 m +:+ "-" +:+ Date.pad 2 d.

End Calendar.

(** ** Sequences of calls of the quota ledger *)

Module QuotaLedger.

Import QuotaManager.

Definition platformOf (c : call) : string :=
  match c with
  | Register _ platform _ _ => platform
  | CheckQuota _ platform => platform
  | GetStatus _ platform => platform
  | IncrementUsage _ platform => platform
  | CheckedIncrement _ _ platform => platform
  end.

(** One guarded request for each pair of times: the time of the check and
    the time of the increment. *)
Definition requests (platform : string) (times : list (Z * Z)) : list call :=
  List.map (fun t => CheckedIncrement t.1 t.2 platform) times.

End QuotaLedger.

(** ** Sequences of calls of the request cache *)

Module CacheCalls.

Import RequestCache.

(** The number of [get] calls since the last [clear], starting from
    [count]. *)
Fixpoint lookups {V : Type} (ops : list (call V)) (count : Z) : Z :=
  match ops with
  | [] => count
  | Get _ _ :: rest => lookups rest (count + 1)
  | Clear :: rest => lookups rest 0
  | _ :: rest => lookups rest count
  end.

(** The characters of a lower-case hexadecimal number. *)
Definition isHexDigit (c : ascii) : bool :=
  let n := JS.code c in
  (48 <=? n) && (n <=? 57) || (97 <=? n) && (n <=? 102).

End CacheCalls.

(** * Properties *)

(** ** Error classification, retry loop and suggested delay *)

Module ErrorHandlerFacts.

Import ErrorHandler.

Lemma includes_retryable (s : Z) :
  includes retryableStatuses s = true <->
  s = 408 \/ s = 429 \/ s = 500 \/ s = 502 \/ s = 503 \/ s = 504.
Proof.
  unfold includes, retryableStatuses. cbn [existsb].
  rewrite !orb_true_iff, !Z.eqb_eq. intuition discriminate.
Qed.

Lemma isRetryable_iff (e : error) :
  isRetryable e = true <->
  JS.truthy (inspectedStatus e) = false \/
  (exists s, inspectedStatus e = Some s /\
             (s = 408 \/ s = 429 \/ s = 500 \/ s = 502 \/ s = 503 \/ s = 504)).
Proof.
  unfold isRetryable, retryable, ApiError_isRetryable, inspectedStatus.
  destruct (instanceofApiError e).
  - destruct (err_status e) as [s|]; cbn [JS.truthy].
    + destruct (s =? 0) eqn:Hs; cbn [negb].
      * split; auto.
      * rewrite includes_retryable. split.
        -- intros H. right. exists s. auto.
        -- intros [H | (s' & [= <-] & H)]; [discriminate | exact H].
    + split; auto.
  - destruct (responseStatus e) as [s|]; cbn [JS.truthy].
    + destruct (s =? 0) eqn:Hs; cbn [negb].
      * split; auto.
      * rewrite includes_retryable. split.
        -- intros H. right. exists s. auto.
        -- intros [H | (s' & [= <-] & H)]; [discriminate | exact H].
    + split; auto.
Qed.

Section RetryFacts.

Context {W T : Type}.
Variable attemptFn : W -> outcome T * W.
Variable pause : retryOptions -> nat -> error -> W -> W.

Lemma wellFormedTrace_single (n : nat) (o : outcome T) :
  (forall e, o = Failure e -> isRetryable e = false \/ n = O) ->
  wellFormedTrace n o [o].
Proof.
  intros Hstop. unfold wellFormedTrace. split; [cbn; lia|]. split; [reflexivity|]. split.
  - intros i e Hi. destruct i as [|i]; [|discriminate]. injection Hi as ->.
    split.
    + intros [x Hx]. discriminate.
    + intros [Hre Hlt]. destruct (Hstop e eq_refl); [congruence | lia].
  - intros i v Hi. destruct i; [reflexivity | discriminate].
Qed.

Lemma wellFormedTrace_retry (n : nat) (e : error) (r : outcome T) (tr : list (outcome T)) :
  isRetryable e = true ->
  wellFormedTrace n r tr ->
  wellFormedTrace (S n) r (Failure e :: tr).
Proof.
  intros Hr (Hlen & Hlast & Hfail & Hsucc). unfold wellFormedTrace.
  split; [cbn [length]; lia|]. split.
  { destruct tr as [|o tr]; [cbn in Hlen; lia | exact Hlast]. }
  split.
  - intros i e0 Hi. destruct i as [|i].
    + injection Hi as <-. split.
      * intros _. split; [exact Hr | lia].
      * intros _. destruct tr; [cbn in Hlen; lia | cbn; eauto].
    + cbn in Hi. specialize (Hfail i e0 Hi). cbn. rewrite Hfail.
      split; intros [? ?]; split; auto; lia.
  - intros i v Hi. destruct i as [|i]; [discriminate|].
    cbn in Hi. cbn. eapply Hsucc; eassumption.
Qed.

Lemma retryLoop_trace (opts : retryOptions) (n k : nat) (w : W) :
  wellFormedTrace n (retryLoop attemptFn pause opts n k w).1.1
                    (retryLoop attemptFn pause opts n k w).2.
Proof.
  revert k w. induction n as [|n IH]; intros k w; cbn [retryLoop].
  - destruct (attemptFn w) as [o w1]. destruct o as [v|e].
    + apply wellFormedTrace_single. discriminate.
    + destruct (isRetryable e) eqn:Hr; apply wellFormedTrace_single; auto.
  - destruct (attemptFn w) as [o w1]. destruct o as [v|e].
    + apply wellFormedTrace_single. discriminate.
    + destruct (isRetryable e) eqn:Hr.
      * specialize (IH (S k) (pause opts k e w1)).
        destruct (retryLoop attemptFn pause opts n (S k) (pause opts k e w1))
          as [[r w2] tr].
        cbn. apply wellFormedTrace_retry; assumption.
      * apply wellFormedTrace_single. intros e' [= <-]. auto.
Qed.

(** The first recorded outcome is that of the invocation in the initial
    world. *)
Lemma retryLoop_head (opts : retryOptions) (n k : nat) (w : W) :
  (retryLoop attemptFn pause opts n k w).2 !! O = Some (attemptFn w).1.
Proof.
  destruct n; cbn [retryLoop]; destruct (attemptFn w) as [o w1];
    destruct o as [v|e]; try reflexivity;
    destruct (isRetryable e); try reflexivity.
  destruct (retryLoop attemptFn pause opts n (S k) (pause opts k e w1)) as [[r w2] tr].
  reflexivity.
Qed.

End RetryFacts.

(** C1. [retryWithBackoff] invokes the attempt function at least once and at
    most [maxRetries + 1] times; what it returns is the outcome of the last
    invocation, a success ends the loop, and a failed invocation is followed
    by another one exactly when it is retryable and retries remain. An
    error is retryable exactly when the inspected status is missing (or 0)
    or one of 408, 429, 500, 502, 503, 504; a first failure with any other
    status is returned after that single invocation. *)
Theorem retryWithBackoff_contract
    (W T : Type) (attemptFn : W -> outcome T * W)
    (pause : retryOptions -> nat -> error -> W -> W)
    (opts : retryOptions) (w : W) :
  let result := (retryWithBackoff attemptFn pause opts w).1.1 in
  let calls := (retryWithBackoff attemptFn pause opts w).2 in
  (1 <= length calls <= maxRetries opts + 1)%nat /\
  last calls = Some result /\
  (forall i v, calls !! i = Some (Success v) -> calls !! S i = None) /\
  (forall i e, calls !! i = Some (Failure e) ->
     (is_Some (calls !! S i) <-> isRetryable e = true /\ (i < maxRetries opts)%nat)) /\
  (forall e, isRetryable e = true <->
     JS.truthy (inspectedStatus e) = false \/
     (exists s, inspectedStatus e = Some s /\
        (s = 408 \/ s = 429 \/ s = 500 \/ s = 502 \/ s = 503 \/ s = 504))) /\
  (forall e, (attemptFn w).1 = Failure e -> isRetryable e = false ->
     calls = [Failure e] /\ result = Failure e).
Proof.
  intros result calls.
  pose proof (retryLoop_trace attemptFn pause opts (maxRetries opts) 1 w) as Htr.
  pose proof (retryLoop_head attemptFn pause opts (maxRetries opts) 1 w) as Hhd.
  fold (retryWithBackoff attemptFn pause opts w) in Htr, Hhd.
  fold result calls in Htr. fold calls in Hhd.
  destruct Htr as (Hlen & Hlast & Hfail & Hsucc).
  split; [exact Hlen|]. split; [exact Hlast|]. split; [exact Hsucc|].
  split; [exact Hfail|]. split; [exact isRetryable_iff|].
  intros e He Hno. rewrite He in Hhd.
  assert (Hnext : calls !! 1%nat = None).
  { destruct (calls !! 1%nat) eqn:Hc; [|reflexivity].
    destruct (proj1 (Hfail O e Hhd)) as [Hre _]; [eauto | congruence]. }
  assert (Hcalls : calls = [Failure e]).
  { destruct calls as [|o [|o' tl]]; try discriminate.
    injection Hhd as ->. reflexivity. }
  split; [exact Hcalls|]. rewrite Hcalls in Hlast. cbn in Hlast. congruence.
Qed.

(** The retry test with status 429 failing twice and then succeeding: the
    mock is invoked three times, within the budget of four. *)
Lemma retryWithBackoff_contract_witness :
  let opts := {| maxRetries := 3; initialDelayMs := 10; maxDelayMs := 1000 |} in
  let run := retryWithBackoff (failingFirst 2 (httpError 429 None)) noPause opts O in
  length run.2 = 3%nat /\ (1 <= length run.2 <= 3 + 1)%nat /\
  run.1.1 = Success "success"%string.
Proof.
  intros opts run.
  split; [reflexivity|].
  split; [exact (proj1 (retryWithBackoff_contract nat string
                   (failingFirst 2 (httpError 429 None)) noPause opts O))|].
  reflexivity.
Defined.

(** Status 404 is not retried: exactly one invocation. *)
Example retry_404_once :
  (retryWithBackoff (failingFirst 5 (httpError 404 None)) noPause
     {| maxRetries := 3; initialDelayMs := 10; maxDelayMs := 1000 |} O).2
  = [Failure (httpError 404 None)].
Proof. reflexivity. Qed.

(** Status 429 persisting beyond [maxRetries = 2]: three invocations, and the
    last error is returned. *)
Example retry_429_exhausted :
  let run := retryWithBackoff (failingFirst 9 (httpError 429 None)) noPause
               {| maxRetries := 2; initialDelayMs := 10; maxDelayMs := 1000 |} O in
  length run.2 = 3%nat /\ run.1.1 = Failure (httpError 429 None).
Proof. split; reflexivity. Qed.

(** A thrown value with a status of its own but no response is classified
    like a network failure. *)
Example isRetryable_status_without_response :
  isRetryable {| instanceofApiError := false; err_response := None;
                 err_status := Some 404 |} = true.
Proof. reflexivity. Qed.

Lemma backoffDelay_bounds (opts : retryOptions) (k : nat) :
  0 <= initialDelayMs opts -> 0 <= maxDelayMs opts ->
  0 <= backoffDelay opts k <= maxDelayMs opts.
Proof.
  intros Hi Hm. unfold backoffDelay.
  pose proof (Z.pow_nonneg 2 (Z.of_nat k - 1) ltac:(lia)).
  split; [apply Z.min_glb; [lia | apply Z.mul_nonneg_nonneg; lia] | apply Z.le_min_l].
Qed.

Lemma backoffDelay_mono (opts : retryOptions) (k k' : nat) :
  0 <= initialDelayMs opts -> (1 <= k <= k')%nat ->
  backoffDelay opts k <= backoffDelay opts k'.
Proof.
  intros Hi Hk. unfold backoffDelay. apply Z.min_le_compat_l.
  apply Z.mul_le_mono_nonneg_l; [exact Hi|]. apply Z.pow_le_mono_r; lia.
Qed.

Lemma backoffWait_jitter (opts : retryOptions) (k : nat) (e : error) (random : Q) :
  0 <= initialDelayMs opts -> 0 <= maxDelayMs opts -> (0 <= random < 1)%Q ->
  retryHintSeconds e = None ->
  let delay := inject_Z (backoffDelay opts k) in
  let jitter := (backoffWait opts k e random - delay)%Q in
  (jitter == random * delay)%Q /\ (0 <= jitter)%Q /\ (0 < delay -> jitter < delay)%Q /\
  (delay <= backoffWait opts k e random)%Q /\
  (backoffWait opts k e random <= 2 * inject_Z (maxDelayMs opts))%Q.
Proof.
  intros Hi Hm [Hr0 Hr1] Hh delay jitter. unfold jitter, backoffWait. rewrite Hh.
  fold delay.
  destruct (backoffDelay_bounds opts k Hi Hm) as [Hd0 Hdm].
  assert (Hd : (0 <= delay)%Q)
    by (unfold delay; change 0%Q with (inject_Z 0); now rewrite <- Zle_Qle).
  assert (Hdmax : (delay <= inject_Z (maxDelayMs opts))%Q)
    by (unfold delay; now rewrite <- Zle_Qle).
  assert (Hj0 : (0 <= random * delay)%Q) by (apply Qmult_le_0_compat; assumption).
  assert (Hj1 : (random * delay <= 1 * delay)%Q)
    by (apply Qmult_le_compat_r; [lra | exact Hd]).
  split; [ring|]. split; [lra|]. split; [|split; lra].
  intros Hpos.
  assert (0 < (1 - random) * delay)%Q by (apply Qmult_lt_0_compat; lra).
  lra.
Qed.

Lemma backoffWait_hint (opts : retryOptions) (k : nat) (e : error) (random : Q)
    (seconds : Z) :
  retryHintSeconds e = Some seconds ->
  backoffWait opts k e random = inject_Z (1000 * seconds) /\
  responseStatus e = Some 429 /\
  (exists header, retryAfterHeader e = Some header /\ header <> EmptyString /\
                  allDigits header = true /\ seconds = JS.digits header 0).
Proof.
  intros Hh. unfold backoffWait. rewrite Hh. split; [reflexivity|].
  unfold retryHintSeconds in Hh.
  destruct (responseStatus e) as [status|]; [|discriminate].
  destruct (retryAfterHeader e) as [[|c r]|]; try discriminate.
  destruct (Z.eqb_spec status 429) as [-> | Hne]; [|discriminate].
  destruct (allDigits (String c r)) eqn:Hd; [|discriminate].
  injection Hh as <-. split; [reflexivity|]. exists (String c r). auto.
Qed.

Lemma nth_tl (i : nat) (rs : list Q) : nth i (tl rs) 0%Q = nth (S i) rs 0%Q.
Proof. destruct rs; [now destruct i | reflexivity]. Qed.

Lemma waitsFor_cons {T : Type} (opts : retryOptions) (k : nat) (rs : list Q)
    (e : error) (o : outcome T) (calls : list (outcome T)) :
  waitsFor opts k rs (Failure e :: o :: calls) =
  backoffWait opts k e (hd 0%Q rs) :: waitsFor opts (S k) (tl rs) (o :: calls).
Proof. reflexivity. Qed.

(** Before the last outcome of a run come failures only, and the waits go
    with them one by one. *)
Lemma waitsFor_lookup {T : Type} (opts : retryOptions) (calls : list (outcome T)) :
  (forall j v, calls !! j = Some (Success v) -> calls !! S j = None) ->
  forall (k : nat) (rs : list Q),
    length (waitsFor opts k rs calls) = (length calls - 1)%nat /\
    forall i e, calls !! i = Some (Failure e) -> is_Some (calls !! S i) ->
      waitsFor opts k rs calls !! i = Some (backoffWait opts (k + i) e (nth i rs 0%Q)).
Proof.
  induction calls as [|o calls IH]; intros Hs k rs.
  - split; [reflexivity|]. intros i e H. rewrite lookup_nil in H. discriminate.
  - assert (Hs' : forall j v, calls !! j = Some (Success v) -> calls !! S j = None)
      by (intros j v Hj; exact (Hs (S j) v Hj)).
    destruct calls as [|o' calls'].
    + destruct o; split; try reflexivity; intros [|i] e' H [x Hx]; discriminate.
    + destruct o as [v|e0].
      * specialize (Hs O v eq_refl). discriminate.
      * destruct (IH Hs' (S k) (tl rs)) as [Hlen Hget].
        rewrite waitsFor_cons. split.
        -- cbn [length] in *. rewrite Hlen. lia.
        -- intros [|i] e' H Hnext.
           ++ injection H as <-. cbn. rewrite Nat.add_0_r. now destruct rs.
           ++ change (waitsFor opts (S k) (tl rs) (o' :: calls') !! i =
                      Some (backoffWait opts (k + S i) e' (nth (S i) rs 0%Q))).
              rewrite (Hget i e' H Hnext), nth_tl. do 2 f_equal. lia.
Qed.

Lemma retryLoop_waits {St T : Type} (attemptFn : St -> outcome T * St)
    (opts : retryOptions) (n k : nat) (w : Timeline St) :
  waits (retryLoop (attemptOn attemptFn) backoffPause opts n k w).1.2 =
  waits w ++ waitsFor opts k (randoms w)
               (retryLoop (attemptOn attemptFn) backoffPause opts n k w).2.
Proof.
  revert k w. induction n as [|n IH]; intros k w.
  - cbn [retryLoop]. unfold attemptOn.
    destruct (attemptFn (service w)) as [[v|e] s]; [|destruct (isRetryable e)];
      cbn [fst snd waits waitsFor]; now rewrite app_nil_r.
  - cbn [retryLoop]. unfold attemptOn at 1 3.
    destruct (attemptFn (service w)) as [[v|e] s];
      [cbn [fst snd waits waitsFor]; now rewrite app_nil_r|].
    destruct (isRetryable e); [|cbn [fst snd waits waitsFor]; now rewrite app_nil_r].
    set (w1 := backoffPause opts k e _).
    specialize (IH (S k) w1).
    pose proof (retryLoop_trace (attemptOn attemptFn) backoffPause opts n (S k) w1)
      as ([Hlen _] & _).
    destruct (retryLoop (attemptOn attemptFn) backoffPause opts n (S k) w1)
      as [[r w2] tr]. cbn [fst snd] in *. rewrite IH.
    destruct tr as [|o' tr']; [cbn in Hlen; lia|].
    rewrite waitsFor_cons.
    subst w1. cbn [backoffPause waits randoms]. now rewrite <- app_assoc.
Qed.




Example backoffWait_429_date :
  retryHintSeconds (httpError 429 (Some "Wed, 21 Oct 2015 07:28:00 GMT"%string)) = None.
Proof. reflexivity. Qed.

Example backoffWait_503_hint :
  retryHintSeconds (httpError 503 (Some "5"%string)) = None.
Proof. reflexivity. Qed.

End ErrorHandlerFacts.

(** ** The daily quota ledger *)

Module QuotaManagerFacts.

Import QuotaManager.

Lemma resetIfNeeded_same (now : Z) (q : quota) :
  getDayKey now = dayKey q -> resetIfNeeded now q = q.
Proof.
  intros H. unfold resetIfNeeded. rewrite H, String.eqb_refl. reflexivity.
Qed.

Lemma resetIfNeeded_new (now : Z) (q : quota) :
  getDayKey now <> dayKey q ->
  resetIfNeeded now q = {| limit := limit q; used := 0; dayKey := getDayKey now |}.
Proof.
  intros H. unfold resetIfNeeded.
  destruct (String.eqb_spec (getDayKey now) (dayKey q)); [contradiction | reflexivity].
Qed.

Lemma resetIfNeeded_limit (now : Z) (q : quota) :
  limit (resetIfNeeded now q) = limit q.
Proof. unfold resetIfNeeded. destruct (String.eqb _ _); reflexivity. Qed.

Lemma resetIfNeeded_dayKey (now : Z) (q : quota) :
  dayKey (resetIfNeeded now q) = getDayKey now.
Proof.
  unfold resetIfNeeded.
  destruct (String.eqb_spec (getDayKey now) (dayKey q)); [symmetry; assumption | reflexivity].
Qed.

Lemma resetIfNeeded_used (now : Z) (q : quota) :
  used (resetIfNeeded now q) =
  if String.eqb (getDayKey now) (dayKey q) then used q else 0.
Proof. unfold resetIfNeeded. destruct (String.eqb _ _); reflexivity. Qed.

Lemma checkQuota_state (now : Z) (platform : string) (quotas : gmap string quota) (q : quota) :
  quotas !! platform = Some q ->
  (checkQuota now platform quotas).2 = <[platform := resetIfNeeded now q]> quotas.
Proof.
  intros H. unfold checkQuota. rewrite H.
  destruct (limit _ <=? 0); [reflexivity|]. destruct (used _ >=? limit _); reflexivity.
Qed.

Lemma checkQuota_thrown (now : Z) (platform : string) (quotas : gmap string quota) (q : quota) :
  quotas !! platform = Some q -> 0 < limit q ->
  ((checkQuota now platform quotas).1 =
     Thrown {| qe_platform := platform; qe_limit := limit q;
               qe_resetAt := getNextResetTime now |}
   <-> used (resetIfNeeded now q) >= limit q).
Proof.
  intros H Hpos. unfold checkQuota. rewrite H. cbn zeta.
  rewrite resetIfNeeded_limit.
  destruct (Z.leb_spec (limit q) 0); [lia|].
  destruct (Z.geb_spec (used (resetIfNeeded now q)) (limit q)); cbn.
  - split; [intros _; lia | reflexivity].
  - split; [discriminate | lia].
Qed.

Lemma checkQuota_normal (now : Z) (platform : string) (quotas : gmap string quota) (q : quota) :
  quotas !! platform = Some q -> 0 < limit q ->
  ((checkQuota now platform quotas).1 = Normal <-> used (resetIfNeeded now q) < limit q).
Proof.
  intros H Hpos. unfold checkQuota. rewrite H. cbn zeta.
  rewrite resetIfNeeded_limit.
  destruct (Z.leb_spec (limit q) 0); [lia|].
  destruct (Z.geb_spec (used (resetIfNeeded now q)) (limit q)); cbn.
  - split; [discriminate | lia].
  - split; [intros _; lia | reflexivity].
Qed.

Lemma incrementUsage_same_day (now : Z) (platform : string) (quotas : gmap string quota)
    (q : quota) :
  quotas !! platform = Some q -> getDayKey now = dayKey q -> 0 < limit q ->
  incrementUsage now platform quotas =
  <[platform := {| limit := limit q; used := used q + 1; dayKey := dayKey q |}]> quotas.
Proof.
  intros H Hday Hpos. unfold incrementUsage. rewrite H, resetIfNeeded_same by assumption.
  destruct (Z.ltb_spec 0 (limit q)); [reflexivity | lia].
Qed.

(** Registering with [dailyLimit = 3] and incrementing three times on the
    day of the registration. *)
Lemma three_increments (t0 t1 t2 t3 : Z) (platform : string) (quotas : gmap string quota) :
  getDayKey t1 = getDayKey t0 -> getDayKey t2 = getDayKey t0 ->
  getDayKey t3 = getDayKey t0 ->
  performAll quotas
    [Register t0 platform 3 None; IncrementUsage t1 platform;
     IncrementUsage t2 platform; IncrementUsage t3 platform] !! platform
  = Some {| limit := 3; used := 3; dayKey := getDayKey t0 |}.
Proof.
  intros H1 H2 H3. unfold performAll. cbn [fold_left perform registerPlatform].
  erewrite (incrementUsage_same_day t1); [|apply lookup_insert_eq|exact H1|cbn; lia].
  erewrite (incrementUsage_same_day t2); [|apply lookup_insert_eq|exact H2|cbn; lia].
  erewrite (incrementUsage_same_day t3); [|apply lookup_insert_eq|exact H3|cbn; lia].
  rewrite lookup_insert_eq. reflexivity.
Qed.

(** C2. For a registered platform with a positive limit, [checkQuota] first
    applies the day rollover (the stored record gets today's [dayKey], and
    [used] becomes 0 when the stored [dayKey] differs from today's), then
    throws [QuotaExhaustedError] with the platform, the limit and the next
    reset time exactly when [used >= limit], and returns normally otherwise.
    After registering with [dailyLimit = 3] and three increments on that day,
    [checkQuota] throws; on another day [used] reads 0 and [checkQuota]
    returns normally. *)
Theorem checkQuota_contract :
  (forall now platform quotas q,
     quotas !! platform = Some q -> 0 < limit q ->
     let q' := resetIfNeeded now q in
     used q' = (if String.eqb (getDayKey now) (dayKey q) then used q else 0) /\
     dayKey q' = getDayKey now /\
     limit q' = limit q /\
     (checkQuota now platform quotas).2 = <[platform := q']> quotas /\
     ((checkQuota now platform quotas).1 =
        Thrown {| qe_platform := platform; qe_limit := limit q;
                  qe_resetAt := getNextResetTime now |}
      <-> used q' >= limit q) /\
     ((checkQuota now platform quotas).1 = Normal <-> used q' < limit q)) /\
  (forall t0 t1 t2 t3 t4 platform quotas,
     getDayKey t1 = getDayKey t0 -> getDayKey t2 = getDayKey t0 ->
     getDayKey t3 = getDayKey t0 -> getDayKey t4 = getDayKey t0 ->
     let registered :=
       performAll quotas
         [Register t0 platform 3 None; IncrementUsage t1 platform;
          IncrementUsage t2 platform; IncrementUsage t3 platform] in
     (checkQuota t4 platform registered).1 =
       Thrown {| qe_platform := platform; qe_limit := 3;
                 qe_resetAt := getNextResetTime t4 |} /\
     (forall t5, getDayKey t5 <> getDayKey t0 ->
        st_used <$> (getStatus t5 platform registered).1 = Some 0 /\
        (checkQuota t5 platform registered).1 = Normal)).
Proof.
  split.
  - intros now platform quotas q H Hpos q'. subst q'.
    split; [apply resetIfNeeded_used|].
    split; [apply resetIfNeeded_dayKey|].
    split; [apply resetIfNeeded_limit|].
    split; [now apply checkQuota_state|].
    split; [now apply checkQuota_thrown | now apply checkQuota_normal].
  - intros t0 t1 t2 t3 t4 platform quotas H1 H2 H3 H4 registered.
    pose proof (three_increments t0 t1 t2 t3 platform quotas H1 H2 H3) as Hq.
    fold registered in Hq.
    split.
    + apply (checkQuota_thrown t4 platform registered _ Hq); [cbn; lia|].
      rewrite resetIfNeeded_same by exact H4. cbn. lia.
    + intros t5 H5. split.
      * unfold getStatus. rewrite Hq. cbn [fst fmap option_fmap option_map st_used].
        rewrite resetIfNeeded_new by exact H5. reflexivity.
      * apply (checkQuota_normal t5 platform registered _ Hq); [cbn; lia|].
        rewrite resetIfNeeded_new by exact H5. cbn. lia.
Qed.

(** On 2026-11-01 a record that has used its three requests makes
    [checkQuota] throw; the same record read on 2026-11-02 does not. *)
Lemma checkQuota_contract_witness :
  let day1 := 1793491200000 in
  let day2 := 1793577600000 in
  let quotas : gmap string quota :=
    {[ "test-platform"%string := {| limit := 3; used := 3; dayKey := getDayKey day1 |} ]} in
  ((checkQuota day1 "test-platform" quotas).1 =
     Thrown {| qe_platform := "test-platform"; qe_limit := 3;
               qe_resetAt := "2026-11-02T00:00:00.000Z" |}) /\
  (checkQuota day2 "test-platform" quotas).1 = Normal.
Proof.
  intros day1 day2 quotas.
  destruct (proj1 checkQuota_contract day1 "test-platform"%string quotas
              {| limit := 3; used := 3; dayKey := getDayKey day1 |} eq_refl eq_refl)
    as (_ & _ & _ & _ & Hthrown & _).
  destruct (proj1 checkQuota_contract day2 "test-platform"%string quotas
              {| limit := 3; used := 3; dayKey := getDayKey day1 |} eq_refl eq_refl)
    as (_ & _ & _ & _ & _ & Hnormal).
  split.
  - apply Hthrown. vm_compute. discriminate.
  - apply Hnormal. vm_compute. reflexivity.
Defined.

(** C10. For a platform that was never registered, [checkQuota] and
    [incrementUsage] return normally and leave the ledger as it is, and
    [getStatus] returns null. *)
Theorem unregistered_platform_unchecked (now : Z) (platform : string)
    (quotas : gmap string quota) :
  quotas !! platform = None ->
  checkQuota now platform quotas = (Normal, quotas) /\
  incrementUsage now platform quotas = quotas /\
  getStatus now platform quotas = (None, quotas).
Proof.
  intros H. unfold checkQuota, incrementUsage, getStatus. rewrite H. auto.
Qed.

Lemma unregistered_platform_unchecked_witness :
  let quotas : gmap string quota :=
    registerPlatform 1793491200000 "test-platform" 10 None ∅ in
  checkQuota 1793491200000 "unknown-platform" quotas = (Normal, quotas) /\
  incrementUsage 1793491200000 "unknown-platform" quotas = quotas /\
  getStatus 1793491200000 "unknown-platform" quotas = (None, quotas).
Proof.
  intros quotas.
  apply (unregistered_platform_unchecked 1793491200000 "unknown-platform" quotas).
  vm_compute. reflexivity.
Defined.

Lemma withinLimit_insert (quotas : gmap string quota) (platform : string) (q : quota) :
  withinLimit quotas ->
  (0 < limit q -> 0 <= used q <= limit q) ->
  withinLimit (<[platform := q]> quotas).
Proof.
  intros Hall Hq p q' Hp. destruct (decide (platform = p)) as [-> | Hne].
  - rewrite lookup_insert_eq in Hp. injection Hp as <-. exact Hq.
  - rewrite lookup_insert_ne in Hp by exact Hne. now apply (Hall p).
Qed.

Lemma resetIfNeeded_bounded (now : Z) (q : quota) :
  (0 < limit q -> 0 <= used q <= limit q) ->
  0 < limit (resetIfNeeded now q) ->
  0 <= used (resetIfNeeded now q) <= limit (resetIfNeeded now q).
Proof.
  unfold resetIfNeeded. destruct (String.eqb _ _); cbn; intros H Hpos; [auto | lia].
Qed.

Lemma checkQuota_withinLimit (now : Z) (platform : string) (quotas : gmap string quota) :
  withinLimit quotas -> withinLimit (checkQuota now platform quotas).2.
Proof.
  intros Hall. destruct (quotas !! platform) as [q|] eqn:Hq.
  - rewrite (checkQuota_state now platform quotas q Hq).
    apply withinLimit_insert; [exact Hall|].
    apply resetIfNeeded_bounded. now apply (Hall platform).
  - unfold checkQuota. rewrite Hq. exact Hall.
Qed.

Lemma getStatus_withinLimit (now : Z) (platform : string) (quotas : gmap string quota) :
  withinLimit quotas -> withinLimit (getStatus now platform quotas).2.
Proof.
  intros Hall. unfold getStatus. destruct (quotas !! platform) as [q|] eqn:Hq; [|exact Hall].
  apply withinLimit_insert; [exact Hall|].
  apply resetIfNeeded_bounded. now apply (Hall platform).
Qed.

Lemma registerPlatform_withinLimit (now : Z) (platform : string) (dailyLimit : Z)
    (limitFromEnv : option Z) (quotas : gmap string quota) :
  withinLimit quotas ->
  withinLimit (registerPlatform now platform dailyLimit limitFromEnv quotas).
Proof.
  intros Hall. unfold registerPlatform. apply withinLimit_insert; [exact Hall|].
  cbn. lia.
Qed.

(** An increment that follows a [checkQuota] that returned normally keeps the
    record within its limit, also when the day changes between the two. *)
Lemma checkedIncrement_withinLimit (nowCheck nowIncrement : Z) (platform : string)
    (quotas : gmap string quota) :
  withinLimit quotas ->
  withinLimit (perform quotas (CheckedIncrement nowCheck nowIncrement platform)).
Proof.
  intros Hall. cbn [perform].
  pose proof (checkQuota_withinLimit nowCheck platform quotas Hall) as Hchecked.
  destruct (quotas !! platform) as [q|] eqn:Hq.
  - pose proof (checkQuota_state nowCheck platform quotas q Hq) as Hstate.
    destruct (checkQuota nowCheck platform quotas) as [res quotas'] eqn:Hcheck.
    cbn in Hstate, Hchecked. destruct res as [|err]; [|exact Hchecked].
    set (q1 := resetIfNeeded nowCheck q) in *.
    assert (Hq1 : quotas' !! platform = Some q1) by (subst quotas'; apply lookup_insert_eq).
    unfold incrementUsage. rewrite Hq1.
    pose proof (resetIfNeeded_bounded nowIncrement q1 (Hchecked platform q1 Hq1)) as Hb.
    destruct (Z.ltb_spec 0 (limit (resetIfNeeded nowIncrement q1))) as [Hpos | Hnonpos].
    + apply withinLimit_insert; [exact Hchecked|]. cbn. intros _.
      specialize (Hb Hpos). rewrite resetIfNeeded_limit in *.
      assert (Hnormal : (checkQuota nowCheck platform quotas).1 = Normal)
        by (rewrite Hcheck; reflexivity).
      apply (checkQuota_normal nowCheck platform quotas q Hq) in Hnormal;
        [|subst q1; rewrite resetIfNeeded_limit in Hpos; exact Hpos].
      fold q1 in Hnormal. rewrite resetIfNeeded_used in *.
      subst q1. rewrite resetIfNeeded_limit in *.
      destruct (String.eqb (getDayKey nowIncrement) _); lia.
    + apply withinLimit_insert; [exact Hchecked|]. intros Hpos. lia.
  - unfold checkQuota. rewrite Hq. unfold incrementUsage. rewrite Hq. exact Hall.
Qed.

Lemma perform_withinLimit (quotas : gmap string quota) (c : call) :
  isGuarded c = true -> withinLimit quotas -> withinLimit (perform quotas c).
Proof.
  intros Hg Hall. destruct c; try discriminate Hg.
  - now apply registerPlatform_withinLimit.
  - now apply checkQuota_withinLimit.
  - now apply getStatus_withinLimit.
  - now apply checkedIncrement_withinLimit.
Qed.

Lemma performAll_withinLimit (calls : list call) (quotas : gmap string quota) :
  forallb isGuarded calls = true -> withinLimit quotas ->
  withinLimit (performAll quotas calls).
Proof.
  revert quotas. induction calls as [|c calls IH]; intros quotas Hg Hall; [exact Hall|].
  cbn in Hg. apply andb_true_iff in Hg as [Hc Hg].
  unfold performAll. cbn [fold_left]. apply IH; [exact Hg|].
  now apply perform_withinLimit.
Qed.

Lemma withinLimit_empty : withinLimit ∅.
Proof. intros p q Hp. rewrite lookup_empty in Hp. discriminate. Qed.

(** C9, as the code has it. [incrementUsage] has no check of its own. Every
    record with a positive limit satisfies [0 <= used <= limit] in every
    state reached from the empty ledger by registrations, [checkQuota],
    [getStatus] and increments that each follow a [checkQuota] of the same
    platform that returned normally. *)
Theorem guarded_calls_within_limit (calls : list call) :
  forallb isGuarded calls = true ->
  withinLimit (performAll ∅ calls).
Proof.
  intros Hg. apply performAll_withinLimit; [exact Hg | exact withinLimit_empty].
Qed.

(** Five checked increments against a limit of three stop at three. *)
Lemma guarded_calls_within_limit_witness :
  let t := 1793491200000 in
  let calls :=
    [Register t "test-platform" 3 None;
     CheckedIncrement t t "test-platform"; CheckedIncrement t t "test-platform";
     CheckedIncrement t t "test-platform"; CheckedIncrement t t "test-platform";
     CheckedIncrement t t "test-platform"] in
  withinLimit (performAll ∅ calls) /\
  used <$> performAll ∅ calls !! "test-platform"%string = Some 3.
Proof.
  intros t calls. split.
  - apply (guarded_calls_within_limit calls). reflexivity.
  - vm_compute. reflexivity.
Defined.

(** C9, as stated, fails: four plain increments against a limit of three
    leave [used = 4]. *)
Lemma unchecked_increments_exceed_limit :
  let t := 1793491200000 in
  ~ withinLimit
      (performAll ∅
         [Register t "test-platform" 3 None;
          IncrementUsage t "test-platform"; IncrementUsage t "test-platform";
          IncrementUsage t "test-platform"; IncrementUsage t "test-platform"]).
Proof.
  intros t H.
  specialize (H "test-platform"%string
                {| limit := 3; used := 4; dayKey := "2026-11-01" |}).
  cbn [limit used] in H.
  assert (Hlookup :
    performAll ∅
      [Register t "test-platform" 3 None;
       IncrementUsage t "test-platform"; IncrementUsage t "test-platform";
       IncrementUsage t "test-platform"; IncrementUsage t "test-platform"]
      !! "test-platform"%string
    = Some {| limit := 3; used := 4; dayKey := "2026-11-01" |})
    by (vm_compute; reflexivity).
  specialize (H Hlookup). lia.
Qed.

End QuotaManagerFacts.

(** ** The hash *)

Module HashFacts.

(** The test vectors of FIPS 180-4 for the empty message, for one block and
    for two blocks. *)
Example sha256_empty :
  SHA256.hexdigest (JSON.utf8 EmptyString)
  = "e3b0c44298fc1c149afbf4c8996fb92427ae41e4649b934ca495991b7852b855"%string.
Proof. vm_compute. reflexivity. Qed.

Example sha256_abc :
  SHA256.hexdigest (JSON.utf8 "abc")
  = "ba7816bf8f01cfea414140de5dae2223b00361a396177a9cb410ff61f20015ad"%string.
Proof. vm_compute. reflexivity. Qed.

Example sha256_two_blocks :
  SHA256.hexdigest (JSON.utf8 "abcdbcdecdefdefgefghfghighijhijkijkljklmklmnlmnomnopnopq")
  = "248d6a61d20638b8e5c026930c3e6039a33ce45964ff2167f6ecedd419db06c1"%string.
Proof. vm_compute. reflexivity. Qed.

(** The first and the last round constant. *)
Example round_constants :
  length SHA256.K = 64%nat /\ hd 0 SHA256.K = 0x428a2f98 /\ last SHA256.K = Some 0xc67178f2.
Proof. repeat split. Qed.

End HashFacts.

(** ** Strings *)

Module StringFacts.

Lemma append_cons (x : ascii) (a b : string) : String x a +:+ b = String x (a +:+ b).
Proof. reflexivity. Qed.

Lemma append_nil_l (a : string) : EmptyString +:+ a = a.
Proof. reflexivity. Qed.

Lemma append_assoc (a b c : string) : (a +:+ b) +:+ c = a +:+ (b +:+ c).
Proof.
  induction a as [|x a IH]; [reflexivity|]. rewrite !append_cons. now rewrite IH.
Qed.

Lemma append_nil_r (a : string) : a +:+ EmptyString = a.
Proof.
  induction a as [|x a IH]; [reflexivity|]. rewrite append_cons. now rewrite IH.
Qed.

Lemma append_inj_l (a x y : string) : a +:+ x = a +:+ y -> x = y.
Proof.
  induction a as [|c a IH]; [auto|]. rewrite !append_cons. intros [= H]. auto.
Qed.

Ltac each_ascii c :=
  destruct c as [[] [] [] [] [] [] [] []].

Lemma lowerChar_white (c : ascii) : JS.isWhiteSpace (JS.lowerChar c) = JS.isWhiteSpace c.
Proof. each_ascii c; reflexivity. Qed.

Lemma lowerChar_idem (c : ascii) : JS.lowerChar (JS.lowerChar c) = JS.lowerChar c.
Proof. each_ascii c; reflexivity. Qed.

Lemma toLowerCase_app (a b : string) :
  JS.toLowerCase (a +:+ b) = JS.toLowerCase a +:+ JS.toLowerCase b.
Proof.
  induction a as [|c a IH]; [reflexivity|]. rewrite append_cons. cbn. now rewrite IH.
Qed.

Lemma allWhiteSpace_toLowerCase (s : string) :
  JS.allWhiteSpace (JS.toLowerCase s) = JS.allWhiteSpace s.
Proof.
  induction s as [|c s IH]; cbn; [reflexivity|]. now rewrite lowerChar_white, IH.
Qed.

Lemma trimStart_white_app (ws s : string) :
  JS.allWhiteSpace ws = true -> JS.trimStart (ws +:+ s) = JS.trimStart s.
Proof.
  induction ws as [|c ws IH]; [reflexivity|]. rewrite append_cons. cbn.
  intros H. apply andb_true_iff in H as [Hc Hws]. rewrite Hc. auto.
Qed.

Lemma trimStart_white (ws : string) :
  JS.allWhiteSpace ws = true -> JS.trimStart ws = EmptyString.
Proof.
  induction ws as [|c ws IH]; cbn; [reflexivity|].
  intros H. apply andb_true_iff in H as [Hc Hws]. rewrite Hc. auto.
Qed.

Lemma trimEnd_white (ws : string) :
  JS.allWhiteSpace ws = true -> JS.trimEnd ws = EmptyString.
Proof.
  induction ws as [|c ws IH]; cbn; [reflexivity|].
  intros H. apply andb_true_iff in H as [Hc Hws]. rewrite (IH Hws), Hc. reflexivity.
Qed.

Lemma trimEnd_app_white (s ws : string) :
  JS.allWhiteSpace ws = true -> JS.trimEnd (s +:+ ws) = JS.trimEnd s.
Proof.
  intros H. induction s as [|c s IH].
  - now apply trimEnd_white.
  - rewrite append_cons. cbn. now rewrite IH.
Qed.

Lemma trim_app_white (s ws : string) :
  JS.allWhiteSpace ws = true ->
  JS.trimEnd (JS.trimStart (s +:+ ws)) = JS.trimEnd (JS.trimStart s).
Proof.
  intros H. induction s as [|c s IH].
  - rewrite append_nil_l. now rewrite trimStart_white.
  - rewrite append_cons. cbn [JS.trimStart].
    destruct (JS.isWhiteSpace c); [exact IH|].
    rewrite <- append_cons. now apply trimEnd_app_white.
Qed.

(** White space around a string does not change what [trim] returns. *)
Lemma trim_surrounded (pre s post : string) :
  JS.allWhiteSpace pre = true -> JS.allWhiteSpace post = true ->
  JS.trim (pre +:+ s +:+ post) = JS.trim s.
Proof.
  intros Hpre Hpost. unfold JS.trim.
  rewrite trimStart_white_app by exact Hpre. now apply trim_app_white.
Qed.

Lemma caseVariant_toLowerCase (s1 s2 : string) :
  JS.caseVariant s1 s2 = true -> JS.toLowerCase s1 = JS.toLowerCase s2.
Proof.
  revert s2. induction s1 as [|c1 s1 IH]; intros [|c2 s2]; cbn; try discriminate; auto.
  intros H. apply andb_true_iff in H as [Hc Hs]. f_equal; [|auto].
  apply orb_true_iff in Hc as [Hc | Hc]; [apply orb_true_iff in Hc as [Hc | Hc]|];
    apply Ascii.eqb_eq in Hc; subst; auto using lowerChar_idem.
Qed.

End StringFacts.

(** ** The cache key *)

Module CacheKeyFacts.

Import RequestCache StringFacts.

Lemma generateKey_normalized (p q1 q2 : string) (o : option (list (string * JSON.value))) :
  JS.trim (JS.toLowerCase q1) = JS.trim (JS.toLowerCase q2) ->
  generateKey p q1 o = generateKey p q2 o.
Proof. intros H. unfold generateKey, keyData. now rewrite H. Qed.

(** C8. The key is a function of the platform, of the query lower-cased and
    trimmed, and of the options: queries with the same normal form give the
    same key. In particular ["Query"] and [" query "] do, and so do any two
    queries that differ in the case of their letters and in surrounding white
    space. *)
Theorem generateKey_query_insensitive :
  (forall p q1 q2 o,
     JS.trim (JS.toLowerCase q1) = JS.trim (JS.toLowerCase q2) ->
     generateKey p q1 o = generateKey p q2 o) /\
  (forall p o, generateKey p "Query" o = generateKey p " query " o) /\
  (forall p o pre post q1 q2,
     JS.allWhiteSpace pre = true -> JS.allWhiteSpace post = true ->
     JS.caseVariant q1 q2 = true ->
     generateKey p (pre +:+ q1 +:+ post) o = generateKey p q2 o).
Proof.
  split; [exact generateKey_normalized|]. split.
  - intros p o. apply generateKey_normalized. reflexivity.
  - intros p o pre post q1 q2 Hpre Hpost Hcase. apply generateKey_normalized.
    rewrite !toLowerCase_app.
    rewrite trim_surrounded by (rewrite allWhiteSpace_toLowerCase; assumption).
    now rewrite (caseVariant_toLowerCase q1 q2).
Qed.

(** The test of the key: upper case and padded with tabs and spaces. *)
Lemma generateKey_query_insensitive_witness :
  generateKey "platform" "  MACHINE Learning  " None
  = generateKey "platform" "machine learning" None.
Proof.
  exact (proj2 (proj2 generateKey_query_insensitive) "platform"%string None
           "  "%string "  "%string "MACHINE Learning"%string "machine learning"%string
           eq_refl eq_refl eq_refl).
Defined.

Lemma unquoteChar_quoteChar (c : ascii) (r : string) :
  JSON.unquoteChar (JSON.quoteChar c +:+ r) = Some (c, r).
Proof. each_ascii c; reflexivity. Qed.

Lemma unquoteChar_dquote (r : string) :
  JSON.unquoteChar (String JSON.dquote r) = None.
Proof. reflexivity. Qed.

(** The body of a quoted string determines the string: no closing quote
    occurs inside it. *)
Lemma quoteBody_inj (k1 k2 x y : string) :
  JSON.quoteBody k1 +:+ String JSON.dquote x = JSON.quoteBody k2 +:+ String JSON.dquote y ->
  k1 = k2 /\ x = y.
Proof.
  revert k2. induction k1 as [|c1 k1 IH]; intros [|c2 k2]; cbn [JSON.quoteBody].
  - rewrite !append_nil_l. intros [= ->]. auto.
  - rewrite append_nil_l, append_assoc. intros H.
    apply (f_equal JSON.unquoteChar) in H.
    rewrite unquoteChar_dquote, unquoteChar_quoteChar in H. discriminate.
  - rewrite append_nil_l, append_assoc. intros H.
    apply (f_equal JSON.unquoteChar) in H.
    rewrite unquoteChar_dquote, unquoteChar_quoteChar in H. discriminate.
  - rewrite !append_assoc. intros H.
    apply (f_equal JSON.unquoteChar) in H.
    rewrite !unquoteChar_quoteChar in H. injection H as -> H.
    destruct (IH k2 H) as [-> ->]. auto.
Qed.

Lemma quote_inj (k1 k2 x y : string) :
  JSON.quote k1 +:+ x = JSON.quote k2 +:+ y -> k1 = k2 /\ x = y.
Proof.
  unfold JSON.quote. rewrite !append_cons, !append_assoc, !append_cons, !append_nil_l.
  intros [= H]. now apply quoteBody_inj.
Qed.

(** The separators before the elements that follow a non-empty prefix. *)
Lemma join_app (sep : string) (a : list string) (x : string) (b : list string) :
  JSON.join sep (a ++ x :: b) =
  fold_right (fun y acc => y +:+ sep +:+ acc) (JSON.join sep (x :: b)) a.
Proof.
  induction a as [|y a IH]; [reflexivity|].
  cbn [fold_right]. rewrite <- IH.
  change ((y :: a) ++ x :: b) with (y :: (a ++ x :: b)).
  destruct (a ++ x :: b) eqn:E; [destruct a; discriminate | reflexivity].
Qed.

Lemma fold_right_append_inj (sep : string) (a : list string) (x y : string) :
  fold_right (fun z acc => z +:+ sep +:+ acc) x a =
  fold_right (fun z acc => z +:+ sep +:+ acc) y a -> x = y.
Proof.
  induction a as [|z a IH]; cbn [fold_right]; [auto|].
  intros H. apply append_inj_l, append_inj_l in H. auto.
Qed.

Lemma flat_map_property_app (l1 l2 : list (string * JSON.value)) :
  List.flat_map JSON.property (l1 ++ l2) =
  List.flat_map JSON.property l1 ++ List.flat_map JSON.property l2.
Proof. apply List.flat_map_app. Qed.

Lemma serialize_object (props : list (string * JSON.value)) :
  JSON.serialize (JSON.JObject props) =
  Some ("{" +:+ JSON.join "," (List.flat_map JSON.property props) +:+ "}").
Proof.
  cbn [JSON.serialize]. do 4 f_equal.
  apply List.flat_map_ext. intros [k v]. reflexivity.
Qed.

(** The hashed text is a fixed prefix, the properties of the options in
    their order, and the two closing braces. *)
Lemma keyData_shape (p q : string) (props : list (string * JSON.value)) :
  keyData p q (Some props) =
  keyPrefix p q +:+ JSON.join "," (List.flat_map JSON.property props) +:+ "}}".
Proof.
  unfold keyData, JSON.stringify.
  change (default [] (Some props)) with props.
  rewrite serialize_object.
  cbn [List.flat_map]. unfold JSON.property at 1 2 3. cbn [fst snd].
  rewrite serialize_object.
  cbn [JSON.serialize JSON.join app].
  unfold keyPrefix. change (default ?a (Some ?x)) with x.
  rewrite !append_assoc. reflexivity.
Qed.

Lemma keyData_swap (p q : string) (before after : list (string * JSON.value))
    (k1 k2 : string) (v1 v2 : JSON.value) :
  k1 <> k2 -> v1 <> JSON.JUndefined -> v2 <> JSON.JUndefined ->
  keyData p q (Some (before ++ (k1, v1) :: (k2, v2) :: after)) <>
  keyData p q (Some (before ++ (k2, v2) :: (k1, v1) :: after)).
Proof.
  intros Hk Hv1 Hv2 H. rewrite !keyData_shape in H.
  apply append_inj_l in H. rewrite !flat_map_property_app in H.
  cbn [List.flat_map] in H. unfold JSON.property at 2 3 6 7 in H. cbn [fst snd] in H.
  destruct (JSON.serialize v1) as [s1|] eqn:E1; [|destruct v1; discriminate || congruence].
  destruct (JSON.serialize v2) as [s2|] eqn:E2; [|destruct v2; discriminate || congruence].
  cbn [app] in H. rewrite !join_app in H.
  set (tail := List.flat_map JSON.property after) in *.
  assert (H' :
    JSON.join "," ((JSON.quote k1 +:+ ":" +:+ s1) :: (JSON.quote k2 +:+ ":" +:+ s2) :: tail)
      +:+ "}}" =
    JSON.join "," ((JSON.quote k2 +:+ ":" +:+ s2) :: (JSON.quote k1 +:+ ":" +:+ s1) :: tail)
      +:+ "}}").
  { revert H. generalize (List.flat_map JSON.property before). intros l.
    induction l as [|z l IHl]; cbn [fold_right]; [auto|].
    rewrite !append_assoc. intros H. apply append_inj_l, append_inj_l in H. auto. }
  cbn [JSON.join] in H'. rewrite !append_assoc in H'.
  apply quote_inj in H' as [Heq _]. contradiction.
Qed.

(** C6, as the code has it. [generateKey] is the digest of the text that
    [JSON.stringify] produces, so that options with the same text get the
    same key, and that text lists the properties of the options in the order
    in which the object enumerates them: nothing sorts them. Exchanging two
    neighbouring properties that have different names and defined values
    changes the hashed text. *)
Theorem keyData_keeps_property_order (p q : string) :
  (forall o1 o2, keyData p q o1 = keyData p q o2 ->
     generateKey p q o1 = generateKey p q o2) /\
  (forall (before after : list (string * JSON.value)) (k1 k2 : string)
          (v1 v2 : JSON.value),
     k1 <> k2 -> v1 <> JSON.JUndefined -> v2 <> JSON.JUndefined ->
     keyData p q (Some (before ++ (k1, v1) :: (k2, v2) :: after)) <>
     keyData p q (Some (before ++ (k2, v2) :: (k1, v1) :: after))).
Proof.
  split.
  - intros o1 o2 H. unfold generateKey. now rewrite H.
  - intros before after k1 k2 v1 v2. apply keyData_swap.
Qed.

Lemma keyData_keeps_property_order_witness :
  keyData "arxiv" "graph" (Some [("limit"%string, JSON.JNumber 10);
                                 ("sort"%string, JSON.JString "date")]) <>
  keyData "arxiv" "graph" (Some [("sort"%string, JSON.JString "date");
                                 ("limit"%string, JSON.JNumber 10)]).
Proof.
  apply (proj2 (keyData_keeps_property_order "arxiv" "graph") [] []
           "limit"%string "sort"%string (JSON.JNumber 10) (JSON.JString "date"));
    discriminate.
Defined.

(** C6, as stated, fails: the options [{a: 1, b: 2}] and [{b: 2, a: 1}] hold
    the same fields and values and get different keys. *)
Lemma generateKey_depends_on_property_order :
  let o1 := [("a"%string, JSON.JNumber 1); ("b"%string, JSON.JNumber 2)] in
  let o2 := [("b"%string, JSON.JNumber 2); ("a"%string, JSON.JNumber 1)] in
  Permutation o1 o2 /\
  generateKey "p" "query" (Some o1) <> generateKey "p" "query" (Some o2).
Proof.
  split; [apply perm_swap|]. vm_compute. discriminate.
Qed.

Example generateKey_a_b :
  generateKey "p" "query" (Some [("a"%string, JSON.JNumber 1); ("b"%string, JSON.JNumber 2)])
  = "44f44abe0cdaa8dcb24297dd59a7aed036512e5d28d17eec0b7039e2645d70ec"%string.
Proof. vm_compute. reflexivity. Qed.

Example generateKey_b_a :
  generateKey "p" "query" (Some [("b"%string, JSON.JNumber 2); ("a"%string, JSON.JNumber 1)])
  = "5c98fcebfee3cf528a80d76196ca15f346f0f25c4122d4945f5721c47230ea82"%string.
Proof. vm_compute. reflexivity. Qed.

End CacheKeyFacts.

(** ** The request cache: size bound, eviction order and expiry *)

Module CacheFacts.

Import RequestCache.

Section WithValue.

Context {V : Type}.

Implicit Types (c : RequestCache.t V) (s : LRUCache.t V) (l : list (LRUCache.entry V)).

Lemma remove_length (key : string) l :
  (length (LRUCache.remove key l) <= length l)%nat.
Proof. unfold LRUCache.remove. apply List.filter_length_le. Qed.

Lemma remove_length_found (key : string) l (e : LRUCache.entry V) :
  List.find (LRUCache.hasKey key) l = Some e ->
  (length (LRUCache.remove key l) < length l)%nat.
Proof.
  unfold LRUCache.remove. induction l as [|x l IH]; cbn; [discriminate|].
  destruct (LRUCache.hasKey key x); cbn.
  - intros _. pose proof (remove_length key l) as Hr. unfold LRUCache.remove in Hr. lia.
  - intros H. apply IH in H. lia.
Qed.

Lemma find_None_keys (key : string) l :
  List.find (LRUCache.hasKey key) l = None <-> ~ In key (List.map LRUCache.e_key l).
Proof.
  induction l as [|x l IH]; cbn; [tauto|].
  unfold LRUCache.hasKey at 1. destruct (String.eqb_spec key (LRUCache.e_key x)).
  - split; [discriminate | intros H; exfalso; auto].
  - rewrite IH. split; [intros H [E | E]; [congruence | auto] | tauto].
Qed.

Lemma remove_absent (key : string) l :
  List.find (LRUCache.hasKey key) l = None -> LRUCache.remove key l = l.
Proof.
  unfold LRUCache.remove. induction l as [|x l IH]; cbn; [reflexivity|].
  destruct (LRUCache.hasKey key x); cbn; [discriminate|].
  intros H. now rewrite IH.
Qed.

Lemma find_remove (key : string) l :
  List.find (LRUCache.hasKey key) (LRUCache.remove key l) = None.
Proof.
  unfold LRUCache.remove. induction l as [|x l IH]; cbn; [reflexivity|].
  destruct (LRUCache.hasKey key x) eqn:E; cbn; [exact IH|]. now rewrite E.
Qed.

Lemma keys_remove (key : string) l :
  List.map LRUCache.e_key (LRUCache.remove key l) =
  List.filter (fun k => negb (String.eqb key k)) (List.map LRUCache.e_key l).
Proof.
  unfold LRUCache.remove. induction l as [|x l IH]; cbn; [reflexivity|].
  unfold LRUCache.hasKey at 1. destruct (String.eqb key (LRUCache.e_key x)); cbn; now rewrite IH.
Qed.

Lemma set_bounded (now : Z) (key : string) (v : V) c :
  bounded c -> bounded (set now key v c).
Proof.
  unfold bounded, set, LRUCache.set, LRUCache.size, LRUCache.withItems.
  cbn [cache LRUCache.items LRUCache.max].
  intros H. pose proof (remove_length key (LRUCache.items (cache c))) as Hr.
  set (l := LRUCache.remove key (LRUCache.items (cache c)) ++ _).
  assert (Hl : (length l <= S (LRUCache.max (cache c)))%nat).
  { subst l. rewrite length_app. cbn. lia. }
  destruct (Nat.ltb_spec (LRUCache.max (cache c)) (length l)); [|lia].
  destruct l; cbn in *; lia.
Qed.

Lemma get_bounded (now : Z) (key : string) c :
  bounded c -> bounded (get now key c).2.
Proof.
  unfold bounded, get, LRUCache.get, LRUCache.size, LRUCache.lookup.
  intros H. destruct (List.find _ _) as [e|] eqn:E; [|exact H].
  pose proof (remove_length_found key _ e E) as Hr.
  destruct (LRUCache.visible (cache c) now e); cbn; [rewrite length_app; cbn|]; lia.
Qed.

Lemma delete_bounded (key : string) c :
  bounded c -> bounded (delete key c).2.
Proof.
  unfold bounded, delete, LRUCache.delete, LRUCache.size. cbn.
  intros H. pose proof (remove_length key (LRUCache.items (cache c))). lia.
Qed.

Lemma perform_bounded c (op : call V) :
  bounded c -> bounded (perform c op).
Proof.
  destruct op; cbn [perform]; intros H.
  - now apply get_bounded.
  - now apply set_bounded.
  - exact H.
  - now apply delete_bounded.
  - unfold bounded, LRUCache.size. cbn. lia.
Qed.

Lemma perform_max c (op : call V) :
  LRUCache.max (cache (perform c op)) = LRUCache.max (cache c).
Proof.
  destruct op; cbn [perform]; try reflexivity.
  unfold get, LRUCache.get. destruct (LRUCache.lookup key (cache c)) as [e|]; [|reflexivity].
  destruct (LRUCache.visible (cache c) now e); reflexivity.
Qed.

Lemma performAll_bounded (ops : list (call V)) c :
  bounded c ->
  bounded (performAll c ops) /\
  LRUCache.max (cache (performAll c ops)) = LRUCache.max (cache c).
Proof.
  revert c. induction ops as [|op ops IH]; intros c H; [auto|].
  unfold performAll. cbn [fold_left].
  destruct (IH (perform c op) (perform_bounded c op H)) as [Hb Hm].
  split; [exact Hb|]. unfold performAll in Hm. rewrite Hm. apply perform_max.
Qed.

(** A new key set on a full cache takes the place of the least recently
    used one. *)
Lemma set_full (now : Z) (key : string) (v : V) c :
  LRUCache.lookup key (cache c) = None ->
  LRUCache.size (cache c) = LRUCache.max (cache c) ->
  (0 < LRUCache.max (cache c))%nat ->
  keys (set now key v c) = tl (keys c) ++ [key].
Proof.
  unfold keys, set, LRUCache.set, LRUCache.lookup, LRUCache.size, LRUCache.withItems.
  cbn [cache LRUCache.items LRUCache.max].
  intros Hnone Hsize Hpos. rewrite (remove_absent key _ Hnone).
  rewrite length_app. cbn [length].
  destruct (Nat.ltb_spec (LRUCache.max (cache c)) (length (LRUCache.items (cache c)) + 1));
    [|lia].
  destruct (LRUCache.items (cache c)) as [|x l]; [cbn in Hsize; lia|].
  cbn. rewrite List.map_app. reflexivity.
Qed.

(** The keys after [set] of a key that the cache does not hold. *)
Lemma keys_set_new (now : Z) (key : string) (v : V) c :
  ~ In key (keys c) ->
  keys (set now key v c) =
  if (LRUCache.max (cache c) <? length (keys c) + 1)%nat
  then tl (keys c ++ [key]) else keys c ++ [key].
Proof.
  unfold keys, set, LRUCache.set, LRUCache.withItems.
  cbn [cache LRUCache.items LRUCache.max]. intros Hnone.
  apply find_None_keys in Hnone. rewrite (remove_absent key _ Hnone).
  rewrite length_app, length_map. cbn [length].
  destruct (_ <? _)%nat; [|now rewrite List.map_app].
  destruct (LRUCache.items (cache c)); cbn; [reflexivity|]. now rewrite List.map_app.
Qed.

Lemma sets_keys (ks : list string) (time : string -> Z) (val : string -> V) c :
  bounded c -> List.NoDup (keys c ++ ks) ->
  keys (performAll c (List.map (fun k => Set_ (time k) k (val k)) ks)) =
  skipn (length (keys c ++ ks) - LRUCache.max (cache c)) (keys c ++ ks).
Proof.
  revert c. induction ks as [|k ks IH]; intros c Hb Hnd.
  - cbn. rewrite app_nil_r. unfold bounded, LRUCache.size in Hb. unfold keys in *.
    rewrite length_map.
    replace (length (LRUCache.items (cache c)) - LRUCache.max (cache c))%nat with O by lia.
    reflexivity.
  - unfold performAll. cbn [List.map fold_left perform].
    assert (Hk : ~ In k (keys c)).
    { apply List.NoDup_remove_2 in Hnd. intros H. apply Hnd. apply List.in_or_app. auto. }
    pose proof (keys_set_new (time k) k (val k) c Hk) as Hkeys.
    pose proof (set_bounded (time k) k (val k) c Hb) as Hb'.
    assert (Hmax : LRUCache.max (cache (set (time k) k (val k) c)) = LRUCache.max (cache c))
      by reflexivity.
    assert (Hlen : (length (keys c) <= LRUCache.max (cache c))%nat).
    { unfold keys. rewrite length_map. exact Hb. }
    change (fold_left perform ?o ?x) with (performAll x o).
    rewrite IH; [|exact Hb'|].
    + rewrite Hmax, Hkeys.
      destruct (Nat.ltb_spec (LRUCache.max (cache c)) (length (keys c) + 1)).
      * replace (keys c ++ k :: ks) with ((keys c ++ [k]) ++ ks)
          by (rewrite <- app_assoc; reflexivity).
        destruct (keys c ++ [k]) as [|x l] eqn:E; [destruct (keys c); discriminate|].
        assert (length (x :: l) = length (keys c) + 1)%nat
          by (rewrite <- E, length_app; reflexivity).
        cbn [tl]. cbn [app]. cbn [length] in *. rewrite !length_app.
        replace (S (length l + length ks) - LRUCache.max (cache c))%nat
          with (S (length l + length ks - LRUCache.max (cache c)))%nat by lia.
        reflexivity.
      * rewrite <- app_assoc. reflexivity.
    + rewrite Hkeys.
      assert (Hnd' : List.NoDup ((keys c ++ [k]) ++ ks))
        by (rewrite <- app_assoc; exact Hnd).
      destruct (_ <? _)%nat; [|exact Hnd'].
      destruct (keys c ++ [k]) as [|x l]; [exact Hnd'|].
      cbn [tl]. cbn in Hnd'. now apply List.NoDup_cons_iff in Hnd' as [_ ?].
Qed.

Lemma get_expired (now : Z) (key : string) c (e : LRUCache.entry V) :
  LRUCache.lookup key (cache c) = Some e ->
  LRUCache.ttl (cache c) < now - LRUCache.ageStart e ->
  (get now key c).1 = None /\
  misses (get now key c).2 = misses c + 1 /\
  hits (get now key c).2 = hits c /\
  LRUCache.lookup key (cache (get now key c).2) = None /\
  has now key c = false.
Proof.
  intros Hlookup Hold. unfold get, has, LRUCache.get, LRUCache.has. rewrite Hlookup.
  assert (Hv : LRUCache.visible (cache c) now e = false)
    by (unfold LRUCache.visible; lia).
  rewrite Hv. cbn. repeat split; try reflexivity.
  unfold LRUCache.lookup. cbn. apply find_remove.
Qed.

Lemma find_app_last (key : string) l (e : LRUCache.entry V) :
  List.find (LRUCache.hasKey key) l = None -> LRUCache.e_key e = key ->
  List.find (LRUCache.hasKey key) (l ++ [e]) = Some e.
Proof.
  intros Hl He. induction l as [|x l IH]; cbn in *.
  - unfold LRUCache.hasKey. now rewrite He, String.eqb_refl.
  - destruct (LRUCache.hasKey key x); [discriminate | auto].
Qed.

Lemma find_tl (key : string) l :
  List.find (LRUCache.hasKey key) l = None ->
  List.find (LRUCache.hasKey key) (tl l) = None.
Proof.
  destruct l as [|x l]; cbn; [auto|]. destruct (LRUCache.hasKey key x); [discriminate | auto].
Qed.

Lemma get_fresh (now : Z) (key : string) c (e : LRUCache.entry V) :
  LRUCache.lookup key (cache c) = Some e ->
  now - LRUCache.ageStart e < LRUCache.ttl (cache c) ->
  (get now key c).1 = Some (LRUCache.e_value e) /\
  hits (get now key c).2 = hits c + 1 /\
  misses (get now key c).2 = misses c /\
  keys (get now key c).2 =
    List.filter (fun k => negb (String.eqb key k)) (keys c) ++ [key] /\
  LRUCache.lookup key (cache (get now key c).2) =
    Some {| LRUCache.e_key := key; LRUCache.e_value := LRUCache.e_value e;
            LRUCache.insertedAt := LRUCache.insertedAt e; LRUCache.ageStart := now |}.
Proof.
  intros Hlookup Hfresh. unfold get, LRUCache.get. rewrite Hlookup.
  assert (Hv : LRUCache.visible (cache c) now e = true)
    by (unfold LRUCache.visible; lia).
  rewrite Hv. cbn. repeat split; try reflexivity.
  - unfold keys. cbn. rewrite List.map_app, keys_remove. reflexivity.
  - unfold LRUCache.lookup. cbn. apply find_app_last; [apply find_remove | reflexivity].
Qed.

(** The entry that [set] leaves for its key: inserted, and of age 0, at the
    time of the call. *)
Lemma set_lookup (now : Z) (key : string) (v : V) c :
  (0 < LRUCache.max (cache c))%nat ->
  LRUCache.lookup key (cache (set now key v c)) =
    Some {| LRUCache.e_key := key; LRUCache.e_value := v;
            LRUCache.insertedAt := now; LRUCache.ageStart := now |}.
Proof.
  intros Hpos. unfold set, LRUCache.set, LRUCache.lookup, LRUCache.withItems.
  cbn [cache LRUCache.items LRUCache.max].
  pose proof (find_remove key (LRUCache.items (cache c))) as Hnone.
  set (l := LRUCache.remove key (LRUCache.items (cache c))) in *.
  rewrite length_app. cbn [length].
  destruct (Nat.ltb_spec (LRUCache.max (cache c)) (length l + 1));
    [|apply find_app_last; [exact Hnone | reflexivity]].
  destruct l as [|x l']; [cbn in *; lia|].
  change (tl ((x :: l') ++ ?y)) with (tl (x :: l') ++ y).
  apply find_app_last; [now apply find_tl | reflexivity].
Qed.

Lemma create_cases (options : CacheOptions) :
  (create (V := V) options = None <-> boundOf options < 0 \/ ttlOf options < 0) /\
  (forall c, create options = Some c ->
     LRUCache.max (cache c) = Z.to_nat (boundOf options) /\
     (0 < LRUCache.max (cache c))%nat /\
     LRUCache.ttl (cache c) = ttlOf options /\
     LRUCache.items (cache c) = [] /\ hits c = 0 /\ misses c = 0).
Proof.
  unfold create. split.
  - destruct (Z.ltb_spec (boundOf options) 0); destruct (Z.ltb_spec (ttlOf options) 0);
      cbn [orb]; split; auto; try discriminate; lia.
  - assert (Hb : boundOf options <> 0).
    { unfold boundOf, JS.orElse. destruct (maxSize options) as [m|]; cbn; [|lia].
      destruct (Z.eqb_spec m 0); cbn; lia. }
    destruct (Z.ltb_spec (boundOf options) 0); destruct (Z.ltb_spec (ttlOf options) 0);
      cbn [orb]; intros c [= <-]. cbn. repeat split; try reflexivity. lia.
Qed.

End WithValue.




(** The recency test: a [get] of the first key saves it from eviction. *)
Example lru_order_updated_on_get :
  keys (performAll
          {| cache := {| LRUCache.max := 3; LRUCache.ttl := 1000; LRUCache.items := [] |};
             hits := 0; misses := 0 |}
          [Set_ 0 "key1" "value1"; Set_ 1 "key2" "value2"; Set_ 2 "key3" "value3";
           Get 3 "key1"; Set_ 4 "key4" "value4"]%string)
  = ["key3"; "key1"; "key4"]%string.
Proof. reflexivity. Qed.

(** The expiry test: after 1100 ms with a TTL of 1000 ms the entry is gone
    and the access is a miss. *)
Example entry_expires_after_ttl :
  let c := performAll
             {| cache := {| LRUCache.max := 3; LRUCache.ttl := 1000; LRUCache.items := [] |};
                hits := 0; misses := 0 |}
             [Set_ 0 "key" "test-value"; Get 1 "key"; Get 1101 "key"]%string in
  (hits c, misses c, keys c) = (1, 1, []).
Proof. reflexivity. Qed.

(** The constructor refuses a negative bound. *)
Example create_negative_bound :
  create (V := string) {| maxSize := Some (-1); ttlMs := None |} = None.
Proof. reflexivity. Qed.

End CacheFacts.

(** ** Mirror selection *)

Module MirrorFacts.

Import MirrorRegistry.

Lemma fastest_in (best : MirrorRecord) (l : list MirrorRecord) :
  In (fastest best l) (best :: l).
Proof.
  revert best. induction l as [|m l IH]; intros best; cbn [fastest]; [left; reflexivity|].
  destruct (IH (if lastResponseTimeMs m <? lastResponseTimeMs best then m else best))
    as [H | H].
  - rewrite <- H. destruct (_ <? _); [right; left | left]; reflexivity.
  - right. right. exact H.
Qed.

Lemma fastest_le (best : MirrorRecord) (l : list MirrorRecord) (m' : MirrorRecord) :
  In m' (best :: l) ->
  lastResponseTimeMs (fastest best l) <= lastResponseTimeMs m'.
Proof.
  revert best m'. induction l as [|m l IH]; intros best m'; cbn [fastest].
  - intros [<- | []]. lia.
  - intros Hin.
    set (b := if lastResponseTimeMs m <? lastResponseTimeMs best then m else best).
    assert (Hb : lastResponseTimeMs b <= lastResponseTimeMs best /\
                 lastResponseTimeMs b <= lastResponseTimeMs m).
    { subst b. destruct (Z.ltb_spec (lastResponseTimeMs m) (lastResponseTimeMs best)); lia. }
    pose proof (IH b b (or_introl eq_refl)) as Hfb.
    destruct Hin as [<- | [<- | Hin]]; [lia | lia |].
    apply IH. right. exact Hin.
Qed.

Lemma filter_healthy_nil (mirrors : list MirrorRecord) :
  List.filter isHealthy mirrors = [] <->
  (forall m, In m mirrors -> isHealthy m = false).
Proof.
  induction mirrors as [|x l IH]; cbn; [tauto|].
  destruct (isHealthy x) eqn:E.
  - split; [discriminate |]. intros H. specialize (H x (or_introl eq_refl)). congruence.
  - rewrite IH. split; [intros H m [<- | Hm]; auto | auto].
Qed.

Lemma find_unknown_none (mirrors : list MirrorRecord) :
  List.find isUnknown mirrors = None <->
  (forall m, In m mirrors -> isUnknown m = false).
Proof.
  induction mirrors as [|x l IH]; cbn; [tauto|].
  destruct (isUnknown x) eqn:E.
  - split; [discriminate |]. intros H. specialize (H x (or_introl eq_refl)). congruence.
  - rewrite IH. split; [intros H m [<- | Hm]; auto | auto].
Qed.

Lemma selectBest_healthy (mirrors : list MirrorRecord) (m0 : MirrorRecord) :
  In m0 mirrors -> isHealthy m0 = true ->
  exists m, selectBest mirrors = inl m /\ In m mirrors /\ isHealthy m = true /\
            (forall m', In m' mirrors -> isHealthy m' = true ->
               lastResponseTimeMs m <= lastResponseTimeMs m').
Proof.
  intros Hin Hh. unfold selectBest.
  destruct (List.filter isHealthy mirrors) as [|x rest] eqn:E.
  - rewrite (proj1 (filter_healthy_nil mirrors) E m0 Hin) in Hh. discriminate.
  - exists (fastest x rest). split; [reflexivity|].
    pose proof (fastest_in x rest) as Hf. rewrite <- E in Hf.
    apply List.filter_In in Hf as [Hf1 Hf2]. split; [exact Hf1|]. split; [exact Hf2|].
    intros m' Hm' Hh'. apply fastest_le. rewrite <- E. apply List.filter_In. auto.
Qed.

Lemma selectBest_unknown (mirrors : list MirrorRecord) :
  (forall m, In m mirrors -> isHealthy m = false) ->
  (exists m, In m mirrors /\ isUnknown m = true) ->
  exists m, selectBest mirrors = inl m /\ In m mirrors /\ isUnknown m = true.
Proof.
  intros Hnone (m0 & Hin & Hu). unfold selectBest.
  rewrite (proj2 (filter_healthy_nil mirrors) Hnone).
  destruct (List.find isUnknown mirrors) as [m|] eqn:E.
  - exists m. apply List.find_some in E. tauto.
  - rewrite (proj1 (find_unknown_none mirrors) E m0 Hin) in Hu. discriminate.
Qed.

Lemma selectBest_none (mirrors : list MirrorRecord) :
  selectBest mirrors = inr NoMirrorAvailable <->
  (forall m, In m mirrors -> status m = Unhealthy).
Proof.
  unfold selectBest. split.
  - destruct (List.filter isHealthy mirrors) eqn:E1; [|discriminate].
    destruct (List.find isUnknown mirrors) eqn:E2; [discriminate|]. intros _ m Hm.
    pose proof (proj1 (filter_healthy_nil mirrors) E1 m Hm) as H1.
    pose proof (proj1 (find_unknown_none mirrors) E2 m Hm) as H2.
    unfold isHealthy, isUnknown in *. destruct (status m); congruence.
  - intros H.
    assert (E1 : List.filter isHealthy mirrors = []).
    { apply filter_healthy_nil. intros m Hm. unfold isHealthy. now rewrite (H m Hm). }
    assert (E2 : List.find isUnknown mirrors = None).
    { apply find_unknown_none. intros m Hm. unfold isUnknown. now rewrite (H m Hm). }
    now rewrite E1, E2.
Qed.

(** The registry of the test after [n] reported failures of the 10 ms
    mirror. *)
Lemma reportFailure_iter (threshold n : nat) :
  Nat.iter n (reportFailure threshold (url mirror10)) threeMirrors =
  [mirror50;
   {| url := url mirror10;
      status := if (1 <=? n)%nat && (threshold <=? n)%nat then Unhealthy else Healthy;
      lastResponseTimeMs := 10; lastCheckedAt := 0; consecutiveFailures := n |};
   mirror9999].
Proof.
  induction n as [|n IH]; [reflexivity|].
  rewrite Nat.iter_succ, IH. unfold reportFailure. cbn [List.map url].
  change (String.eqb (url mirror50) (url mirror10)) with false.
  change (String.eqb (url mirror9999) (url mirror10)) with false.
  rewrite String.eqb_refl. cbn [consecutiveFailures status lastResponseTimeMs lastCheckedAt url].
  do 2 f_equal. f_equal.
  destruct (Nat.leb_spec threshold (S n)); cbn [andb]; [reflexivity|].
  destruct (Nat.leb_spec threshold n); [lia|]. now rewrite andb_false_r.
Qed.

(** C7. If some mirror is Healthy, [selectBest] returns a Healthy mirror of
    the registry with the lowest [lastResponseTimeMs]; if none is Healthy but
    some is Unknown, it returns an Unknown mirror; it fails with
    [NoMirrorAvailable] exactly when every mirror is Unhealthy. With the
    mirrors at 50 ms (Healthy), 10 ms (Healthy) and 9999 ms (Unhealthy) it
    returns the 10 ms mirror, and once reported failures have demoted that
    mirror it returns the 50 ms mirror. *)
Theorem selectBest_contract :
  (forall mirrors m0, In m0 mirrors -> isHealthy m0 = true ->
     exists m, selectBest mirrors = inl m /\ In m mirrors /\ isHealthy m = true /\
       (forall m', In m' mirrors -> isHealthy m' = true ->
          lastResponseTimeMs m <= lastResponseTimeMs m')) /\
  (forall mirrors,
     (forall m, In m mirrors -> isHealthy m = false) ->
     (exists m, In m mirrors /\ isUnknown m = true) ->
     exists m, selectBest mirrors = inl m /\ In m mirrors /\ isUnknown m = true) /\
  (forall mirrors,
     selectBest mirrors = inr NoMirrorAvailable <->
     (forall m, In m mirrors -> status m = Unhealthy)) /\
  selectBest threeMirrors = inl mirror10 /\
  (forall threshold n, (1 <= n)%nat -> (threshold <= n)%nat ->
     selectBest (Nat.iter n (reportFailure threshold (url mirror10)) threeMirrors)
     = inl mirror50).
Proof.
  split; [exact selectBest_healthy|]. split; [exact selectBest_unknown|].
  split; [exact selectBest_none|]. split; [reflexivity|].
  intros threshold n Hn Ht. rewrite reportFailure_iter.
  destruct (Nat.leb_spec 1 n); [|lia]. destruct (Nat.leb_spec threshold n); [|lia].
  reflexivity.
Qed.

(** With a threshold of three failures, the third report demotes the 10 ms
    mirror and the selection moves to the 50 ms one. *)
Lemma selectBest_contract_witness :
  selectBest (Nat.iter 3 (reportFailure 3 (url mirror10)) threeMirrors) = inl mirror50.
Proof.
  apply (proj2 (proj2 (proj2 (proj2 selectBest_contract))) 3%nat 3%nat); lia.
Defined.

(** Two failures below a threshold of three leave the 10 ms mirror selected. *)
Example selectBest_below_threshold :
  url <$> (match selectBest (Nat.iter 2 (reportFailure 3 (url mirror10)) threeMirrors) with
           | inl m => Some m
           | inr _ => None
           end)
  = Some (url mirror10).
Proof. reflexivity. Qed.

End MirrorFacts.

(** ** The token bucket *)

Module RateLimiterFacts.

Import RateLimiter.

Lemma drain_spec (queue : list nat) (tokens : Q) :
  queue = (drain tokens queue).1.1 ++ (drain tokens queue).2 /\
  ((drain tokens queue).1.2 == tokens - inject_Z (Z.of_nat (length (drain tokens queue).1.1)))%Q /\
  ((drain tokens queue).2 = [] \/ ((drain tokens queue).1.2 < 1)%Q) /\
  ((0 <= tokens)%Q -> (0 <= (drain tokens queue).1.2)%Q).
Proof.
  revert tokens. induction queue as [|caller rest IH]; intros tokens; cbn [drain].
  - cbn [fst snd length app]. split; [reflexivity|]. split; [|auto].
    change (inject_Z (Z.of_nat 0)) with 0%Q. lra.
  - destruct (Qle_bool 1 tokens) eqn:E.
    + specialize (IH (tokens - 1)%Q). apply Qle_bool_iff in E.
      destruct (drain (tokens - 1) rest) as [[granted tokens'] waiting].
      cbn [fst snd] in *. destruct IH as (Hq & Ht & Hw & Hpos).
      split; [cbn; congruence|]. split; [|split; [exact Hw | intros _; apply Hpos; lra]].
      cbn [length]. rewrite Nat2Z.inj_succ. unfold Z.succ. rewrite inject_Z_plus.
      change (inject_Z 1) with 1%Q. lra.
    + cbn [fst snd]. split; [reflexivity|]. split; [|split; [|auto]].
      * change (inject_Z (Z.of_nat (length []))) with 0%Q. lra.
      * right. apply Qnot_le_lt. intros H. apply Qle_bool_iff in H. congruence.
Qed.

Lemma elapsedSeconds_nonneg (t0 t1 : Z) : t0 <= t1 -> (0 <= elapsedSeconds t0 t1)%Q.
Proof.
  intros H. unfold elapsedSeconds. apply Qmult_le_0_compat; [|discriminate].
  change 0%Q with (inject_Z 0). rewrite <- Zle_Qle. lia.
Qed.

Lemma elapsedSeconds_refl (t : Z) : (elapsedSeconds t t == 0)%Q.
Proof. unfold elapsedSeconds. rewrite Z.sub_diag. reflexivity. Qed.

Lemma elapsedSeconds_add (t0 t1 t2 : Z) :
  (elapsedSeconds t0 t2 == elapsedSeconds t0 t1 + elapsedSeconds t1 t2)%Q.
Proof.
  unfold elapsedSeconds. replace (t2 - t0) with ((t1 - t0) + (t2 - t1)) by lia.
  rewrite inject_Z_plus. ring.
Qed.

Lemma refill_facts (now : Z) (b : Bucket) :
  wellFormed b -> lastRefillTimestamp b <= now ->
  wellFormed (refill now b) /\
  (availableTokens (refill now b) <=
     availableTokens b + refillRatePerSecond b * elapsedSeconds (lastRefillTimestamp b) now)%Q.
Proof.
  intros (Hc & Hr & H0 & Hle) Ht. unfold wellFormed, refill.
  cbn [capacity refillRatePerSecond availableTokens lastRefillTimestamp].
  fold (elapsedSeconds (lastRefillTimestamp b) now).
  pose proof (elapsedSeconds_nonneg _ _ Ht) as He.
  pose proof (Qmult_le_0_compat _ _ He Hr) as Hprod.
  set (e := elapsedSeconds (lastRefillTimestamp b) now) in *.
  set (x := (availableTokens b + e * refillRatePerSecond b)%Q).
  assert (Hx : (0 <= x)%Q) by (subst x; lra).
  pose proof (Q.le_min_l (capacity b) x). pose proof (Q.le_min_r (capacity b) x).
  pose proof (Q.min_glb (capacity b) x 0 Hc Hx).
  repeat split; try assumption. subst x. lra.
Qed.

Lemma grantWaiters_facts (b : Bucket) :
  wellFormed b ->
  wellFormed (grantWaiters b).1 /\
  (inject_Z (Z.of_nat (length (grantWaiters b).2)) ==
     availableTokens b - availableTokens (grantWaiters b).1)%Q /\
  waiters b = (grantWaiters b).2 ++ waiters (grantWaiters b).1 /\
  (waiters (grantWaiters b).1 = [] \/ (availableTokens (grantWaiters b).1 < 1)%Q) /\
  lastRefillTimestamp (grantWaiters b).1 = lastRefillTimestamp b /\
  capacity (grantWaiters b).1 = capacity b /\
  refillRatePerSecond (grantWaiters b).1 = refillRatePerSecond b /\
  disposed (grantWaiters b).1 = disposed b.
Proof.
  intros (Hc & Hr & H0 & Hle). unfold grantWaiters.
  pose proof (drain_spec (waiters b) (availableTokens b)) as (Hq & Ht & Hw & Hpos).
  destruct (drain (availableTokens b) (waiters b)) as [[granted tokens] waiting].
  cbn [fst snd capacity refillRatePerSecond availableTokens lastRefillTimestamp waiters disposed] in *.
  assert (Hn : (0 <= inject_Z (Z.of_nat (length granted)))%Q).
  { change 0%Q with (inject_Z 0). rewrite <- Zle_Qle. lia. }
  specialize (Hpos H0).
  unfold wellFormed. cbn [capacity refillRatePerSecond availableTokens].
  repeat split; try assumption; try lra.
Qed.

Lemma enqueue_wellFormed (caller : nat) (b : Bucket) :
  wellFormed b -> wellFormed (enqueue caller b).
Proof. exact id. Qed.

Lemma step_facts (b : Bucket) (ev : event) :
  wellFormed b -> eventTimeOk b ev ->
  wellFormed (step b ev).1 /\
  capacity (step b ev).1 = capacity b /\
  refillRatePerSecond (step b ev).1 = refillRatePerSecond b /\
  lastRefillTimestamp b <= lastRefillTimestamp (step b ev).1 /\
  (inject_Z (Z.of_nat (length (step b ev).2)) <=
     availableTokens b - availableTokens (step b ev).1 +
     refillRatePerSecond b *
       elapsedSeconds (lastRefillTimestamp b) (lastRefillTimestamp (step b ev).1))%Q.
Proof.
  intros Hwf Ht.
  assert (Hidle :
    wellFormed b /\ capacity b = capacity b /\
    refillRatePerSecond b = refillRatePerSecond b /\
    lastRefillTimestamp b <= lastRefillTimestamp b /\
    (inject_Z (Z.of_nat (length (@nil nat))) <=
       availableTokens b - availableTokens b +
       refillRatePerSecond b *
         elapsedSeconds (lastRefillTimestamp b) (lastRefillTimestamp b))%Q).
  { split; [exact Hwf|]. split; [reflexivity|]. split; [reflexivity|]. split; [lia|].
    rewrite elapsedSeconds_refl. change (inject_Z (Z.of_nat (length []))) with 0%Q. lra. }
  assert (Hgrant : forall b1 : Bucket,
    wellFormed b1 -> capacity b1 = capacity b ->
    refillRatePerSecond b1 = refillRatePerSecond b ->
    lastRefillTimestamp b <= lastRefillTimestamp b1 ->
    (availableTokens b1 <= availableTokens b +
       refillRatePerSecond b * elapsedSeconds (lastRefillTimestamp b) (lastRefillTimestamp b1))%Q ->
    wellFormed (grantWaiters b1).1 /\
    capacity (grantWaiters b1).1 = capacity b /\
    refillRatePerSecond (grantWaiters b1).1 = refillRatePerSecond b /\
    lastRefillTimestamp b <= lastRefillTimestamp (grantWaiters b1).1 /\
    (inject_Z (Z.of_nat (length (grantWaiters b1).2)) <=
       availableTokens b - availableTokens (grantWaiters b1).1 +
       refillRatePerSecond b *
         elapsedSeconds (lastRefillTimestamp b) (lastRefillTimestamp (grantWaiters b1).1))%Q).
  { intros b1 Hwf1 Hc1 Hr1 Ht1 Ha1.
    destruct (grantWaiters_facts b1 Hwf1)
      as (Hwf2 & Hcount & _ & _ & Hlast & Hcap & Hrate & _).
    rewrite Hlast, Hcap, Hrate. split; [exact Hwf2|]. split; [exact Hc1|].
    split; [exact Hr1|]. split; [exact Ht1|]. lra. }
  destruct ev as [now caller | now |]; cbn [step eventTimeOk] in *.
  - unfold acquire. destruct (disposed b); [exact Hidle|].
    destruct (refill_facts now b Hwf Ht) as [Hwf1 Hle1].
    apply (Hgrant (enqueue caller (refill now b))); auto.
  - unfold wake. destruct (disposed b); [exact Hidle|].
    destruct (refill_facts now b Hwf Ht) as [Hwf1 Hle1].
    apply (Hgrant (refill now b)); auto.
  - exact Hidle.
Qed.

Lemma step_last (b : Bucket) (ev : event) :
  lastRefillTimestamp (step b ev).1 = lastRefillTimestamp b \/
  (exists now caller, ev = Acquire now caller /\ lastRefillTimestamp (step b ev).1 = now) \/
  (exists now, ev = Wake now /\ lastRefillTimestamp (step b ev).1 = now).
Proof.
  destruct ev as [now caller | now |]; cbn [step].
  - unfold acquire. destruct (disposed b); [left; reflexivity|].
    right. left. exists now, caller. split; [reflexivity|].
    unfold grantWaiters. destruct (drain _ _) as [[? ?] ?]. reflexivity.
  - unfold wake. destruct (disposed b); [left; reflexivity|].
    right. right. exists now. split; [reflexivity|].
    unfold grantWaiters. destruct (drain _ _) as [[? ?] ?]. reflexivity.
  - left. reflexivity.
Qed.

Lemma monotone_weaken (t t' : Z) (evs : list event) :
  t <= t' -> monotone t' evs -> monotone t evs.
Proof.
  revert t t'. induction evs as [|ev evs IH]; intros t t' Hle; [auto|].
  destruct ev as [now caller | now |]; cbn [monotone].
  - intros [H1 H2]. split; [lia | exact H2].
  - intros [H1 H2]. split; [lia | exact H2].
  - apply IH. exact Hle.
Qed.

Lemma monotone_step (b : Bucket) (ev : event) (evs : list event) :
  monotone (lastRefillTimestamp b) (ev :: evs) ->
  eventTimeOk b ev /\ monotone (lastRefillTimestamp (step b ev).1) evs.
Proof.
  pose proof (step_last b ev) as Hlast.
  destruct ev as [now caller | now |]; cbn [monotone eventTimeOk].
  - intros [H1 H2]. split; [exact H1|].
    destruct Hlast as [-> | [(n & c & [= <- <-] & ->) | (n & [=] & _)]];
      [now apply (monotone_weaken _ now) | exact H2].
  - intros [H1 H2]. split; [exact H1|].
    destruct Hlast as [-> | [(n & c & [=] & _) | (n & [= <-] & ->)]];
      [now apply (monotone_weaken _ now) | exact H2].
  - intros H. split; [exact I|]. exact H.
Qed.

(** Along a run whose clock does not go backwards, every state is
    well-formed and keeps the capacity. *)
Lemma run_states (evs : list event) (b : Bucket) :
  wellFormed b -> monotone (lastRefillTimestamp b) evs ->
  Forall (fun b' => wellFormed b' /\ capacity b' = capacity b) (states b evs).
Proof.
  revert b. induction evs as [|ev evs IH]; intros b Hwf Hmono; cbn [states].
  - constructor; [auto | constructor].
  - constructor; [auto|].
    destruct (monotone_step b ev evs Hmono) as [Hok Hmono'].
    destruct (step_facts b ev Hwf Hok) as (Hwf' & Hcap & _).
    specialize (IH (step b ev).1 Hwf' Hmono').
    eapply Forall_impl; [exact IH|]. cbn beta. intros b' [? ?]. split; congruence.
Qed.

(** The tokens spent by the grants of a run are covered by the tokens of the
    start and the refill over the time elapsed. *)
Lemma run_grants (evs : list event) (b : Bucket) :
  wellFormed b -> monotone (lastRefillTimestamp b) evs ->
  wellFormed (run b evs).1 /\
  refillRatePerSecond (run b evs).1 = refillRatePerSecond b /\
  lastRefillTimestamp b <= lastRefillTimestamp (run b evs).1 /\
  (inject_Z (Z.of_nat (length (run b evs).2)) <=
     availableTokens b - availableTokens (run b evs).1 +
     refillRatePerSecond b *
       elapsedSeconds (lastRefillTimestamp b) (lastRefillTimestamp (run b evs).1))%Q.
Proof.
  revert b. induction evs as [|ev evs IH]; intros b Hwf Hmono; cbn [run].
  - cbn [fst snd]. split; [exact Hwf|]. split; [reflexivity|]. split; [lia|].
    rewrite elapsedSeconds_refl. change (inject_Z (Z.of_nat (length []))) with 0%Q. lra.
  - destruct (monotone_step b ev evs Hmono) as [Hok Hmono'].
    destruct (step_facts b ev Hwf Hok) as (Hwf' & Hcap & Hrate & Ht & Hcount).
    specialize (IH (step b ev).1 Hwf' Hmono').
    destruct (step b ev) as [b1 g1]. cbn [fst snd] in *.
    destruct (run b1 evs) as [b2 g2]. cbn [fst snd] in *.
    destruct IH as (Hwf2 & Hrate2 & Ht2 & Hcount2).
    split; [exact Hwf2|]. split; [congruence|]. split; [lia|].
    rewrite length_app, Nat2Z.inj_add, inject_Z_plus.
    rewrite (elapsedSeconds_add (lastRefillTimestamp b) (lastRefillTimestamp b1)
               (lastRefillTimestamp b2)).
    rewrite Hrate in Hcount2. lra.
Qed.

Lemma immediate_granted (b : Bucket) (ev : event) :
  ((if immediate b ev then 1 else 0) <= length (step b ev).2)%nat.
Proof.
  destruct ev as [now caller | now |]; cbn [immediate step]; try lia.
  unfold acquire. destruct (disposed b); cbn [negb andb fst snd]; [lia|].
  case_bool_decide as Hw; [|lia].
  set (b1 := enqueue caller (refill now b)) in *.
  pose proof (drain_spec (waiters b1) (availableTokens b1)) as (Hq & _).
  unfold grantWaiters in *. destruct (drain _ _) as [[granted tokens] waiting].
  cbn [fst snd waiters] in *. subst waiting. rewrite app_nil_r in Hq.
  rewrite <- Hq. subst b1. cbn [enqueue waiters]. rewrite length_app. cbn. lia.
Qed.

Lemma countImmediate_le_grants (evs : list event) (b : Bucket) :
  (countImmediate b evs <= length (run b evs).2)%nat.
Proof.
  revert b. induction evs as [|ev evs IH]; intros b; cbn [countImmediate run]; [cbn; lia|].
  pose proof (immediate_granted b ev) as H1. specialize (IH (step b ev).1).
  destruct (step b ev) as [b1 g1]. cbn [fst snd] in *.
  destruct (run b1 evs) as [b2 g2]. cbn [fst snd] in *.
  rewrite length_app. lia.
Qed.

Lemma allAt_monotone (t : Z) (evs : list event) : allAt t evs -> monotone t evs.
Proof.
  induction 1 as [|ev evs Hev _ IH]; [exact I|].
  destruct ev; cbn [monotone]; [subst; split; [lia | exact IH] ..| exact IH].
Qed.

Lemma allAt_last (evs : list event) (b : Bucket) :
  allAt (lastRefillTimestamp b) evs ->
  lastRefillTimestamp (run b evs).1 = lastRefillTimestamp b.
Proof.
  revert b. induction evs as [|ev evs IH]; intros b Hall; [reflexivity|].
  inversion Hall as [|? ? Hev Hevs]; subst. cbn [run].
  assert (Hl : lastRefillTimestamp (step b ev).1 = lastRefillTimestamp b).
  { destruct (step_last b ev) as [H | [(n & c & -> & H) | (n & -> & H)]]; congruence. }
  specialize (IH (step b ev).1). rewrite Hl in IH. specialize (IH Hevs).
  destruct (step b ev) as [b1 g1]. cbn [fst snd] in *.
  destruct (run b1 evs) as [b2 g2]. cbn [fst snd] in *. congruence.
Qed.

Lemma grantWaiters_settled (b : Bucket) : settled (grantWaiters b).1.
Proof.
  unfold settled, grantWaiters.
  pose proof (drain_spec (waiters b) (availableTokens b)) as (_ & _ & Hw & _).
  destruct (drain _ _) as [[granted tokens] waiting]. exact Hw.
Qed.

Lemma step_settled (b : Bucket) (ev : event) : settled b -> settled (step b ev).1.
Proof.
  intros Hs. destruct ev as [now caller | now |]; cbn [step].
  - unfold acquire. destruct (disposed b); [exact Hs | apply grantWaiters_settled].
  - unfold wake. destruct (disposed b); [exact Hs | apply grantWaiters_settled].
  - left. reflexivity.
Qed.

Lemma run_settled (evs : list event) (b : Bucket) : settled b -> settled (run b evs).1.
Proof.
  revert b. induction evs as [|ev evs IH]; intros b Hs; [exact Hs|].
  cbn [run]. specialize (IH (step b ev).1 (step_settled b ev Hs)).
  destruct (step b ev) as [b1 g1]. cbn [fst snd] in *.
  destruct (run b1 evs) as [b2 g2]. exact IH.
Qed.

Lemma run_disposed (evs : list event) (b : Bucket) :
  disposed b = true -> (run b evs).2 = [] /\ disposed (run b evs).1 = true.
Proof.
  revert b. induction evs as [|ev evs IH]; intros b Hd; [auto|].
  cbn [run].
  assert (Hstep : (step b ev).2 = [] /\ disposed (step b ev).1 = true).
  { destruct ev; cbn [step]; unfold acquire, wake; rewrite ?Hd; auto. }
  destruct Hstep as [Hg Hd1]. specialize (IH (step b ev).1 Hd1).
  destruct (step b ev) as [b1 g1]. cbn [fst snd] in *.
  destruct (run b1 evs) as [b2 g2]. cbn [fst snd] in *.
  destruct IH as [-> ->]. subst g1. auto.
Qed.

(** Grants follow the arrival order: what a run grants is a prefix of the
    callers waiting at its start followed by the arrivals, and the callers
    left over are those still waiting. *)
Lemma run_fifo (evs : list event) (b : Bucket) :
  disposed b = false ->
  exists rest,
    waiters b ++ arrivals evs = (run b evs).2 ++ rest /\
    (disposed (run b evs).1 = false -> rest = waiters (run b evs).1).
Proof.
  revert b. induction evs as [|ev evs IH]; intros b Hd.
  - exists (waiters b). cbn. rewrite app_nil_r. auto.
  - cbn [run]. destruct ev as [now caller | now |]; cbn [step arrivals].
    + unfold acquire. rewrite Hd.
      set (b1 := enqueue caller (refill now b)).
      pose proof (drain_spec (waiters b1) (availableTokens b1)) as (Hq & _).
      assert (Hd2 : disposed (grantWaiters b1).1 = false).
      { unfold grantWaiters. destruct (drain _ _) as [[? ?] ?]. exact Hd. }
      assert (Hw2 : waiters b1 = (grantWaiters b1).2 ++ waiters (grantWaiters b1).1).
      { unfold grantWaiters. destruct (drain _ _) as [[? ?] ?]. exact Hq. }
      destruct (IH (grantWaiters b1).1 Hd2) as (rest & Hrest & Hfinal).
      destruct (grantWaiters b1) as [b2 g1]. cbn [fst snd] in *.
      destruct (run b2 evs) as [b3 g2]. cbn [fst snd] in *.
      exists rest. split; [|exact Hfinal].
      rewrite <- app_assoc, <- Hrest, app_assoc, <- Hw2.
      subst b1. cbn [enqueue waiters refill]. rewrite <- app_assoc. reflexivity.
    + unfold wake. rewrite Hd.
      set (b1 := refill now b).
      pose proof (drain_spec (waiters b1) (availableTokens b1)) as (Hq & _).
      assert (Hd2 : disposed (grantWaiters b1).1 = false).
      { unfold grantWaiters. destruct (drain _ _) as [[? ?] ?]. exact Hd. }
      assert (Hw2 : waiters b1 = (grantWaiters b1).2 ++ waiters (grantWaiters b1).1).
      { unfold grantWaiters. destruct (drain _ _) as [[? ?] ?]. exact Hq. }
      destruct (IH (grantWaiters b1).1 Hd2) as (rest & Hrest & Hfinal).
      destruct (grantWaiters b1) as [b2 g1]. cbn [fst snd] in *.
      destruct (run b2 evs) as [b3 g2]. cbn [fst snd] in *.
      exists rest. split; [|exact Hfinal].
      rewrite <- app_assoc, <- Hrest, app_assoc, <- Hw2. reflexivity.
    + destruct (run_disposed evs (dispose b) eq_refl) as [Hg Hd'].
      destruct (run (dispose b) evs) as [b2 g2]. cbn [fst snd] in *.
      exists (waiters b). subst g2. rewrite app_nil_r. split; [reflexivity|].
      intros H. congruence.
Qed.

Lemma run_capacity (evs : list event) (b : Bucket) :
  capacity (run b evs).1 = capacity b.
Proof.
  revert b. induction evs as [|ev evs IH]; intros b; [reflexivity|].
  cbn [run]. specialize (IH (step b ev).1).
  assert (Hstep : capacity (step b ev).1 = capacity b).
  { destruct ev as [now caller | now |]; cbn [step]; unfold acquire, wake, grantWaiters;
      try destruct (disposed b); try destruct (drain _ _) as [[? ?] ?]; reflexivity. }
  destruct (step b ev) as [b1 g1]. cbn [fst snd] in *.
  destruct (run b1 evs) as [b2 g2]. cbn [fst snd] in *. congruence.
Qed.

(** What an access at time [t] grants comes out of the tokens that the
    refill leaves, which are at most the capacity. *)
Lemma step_at (t : Z) (b : Bucket) (ev : event) :
  wellFormed b -> lastRefillTimestamp b <= t -> disposed b = false ->
  (exists caller, ev = Acquire t caller) \/ ev = Wake t ->
  wellFormed (step b ev).1 /\ lastRefillTimestamp (step b ev).1 = t /\
  (inject_Z (Z.of_nat (length (step b ev).2)) + availableTokens (step b ev).1 <=
     capacity b)%Q.
Proof.
  intros Hwf Ht Hd Hev.
  destruct (refill_facts t b Hwf Ht) as [Hwf1 _].
  assert (Hgrant : forall b1 : Bucket,
            wellFormed b1 -> capacity b1 = capacity b -> lastRefillTimestamp b1 = t ->
            wellFormed (grantWaiters b1).1 /\ lastRefillTimestamp (grantWaiters b1).1 = t /\
            (inject_Z (Z.of_nat (length (grantWaiters b1).2)) +
               availableTokens (grantWaiters b1).1 <= capacity b)%Q).
  { intros b1 Hwf' Hcap Hlast.
    destruct (grantWaiters_facts b1 Hwf') as (Hwf2 & Hcount & _ & _ & Hl & _).
    destruct Hwf' as (_ & _ & _ & Hle).
    split; [exact Hwf2|]. split; [congruence|]. rewrite <- Hcap. lra. }
  destruct Hev as [[caller ->] | ->]; cbn [step]; unfold acquire, wake; rewrite Hd.
  - apply (Hgrant (enqueue caller (refill t b))); auto.
  - apply (Hgrant (refill t b)); auto.
Qed.

(** Calls that all come at one instant are granted at most as many tokens
    as the capacity. *)
Lemma burst_grants (t : Z) (evs : list event) (b : Bucket) :
  wellFormed b -> lastRefillTimestamp b <= t -> allAt t evs ->
  (inject_Z (Z.of_nat (length (run b evs).2)) <= capacity b)%Q.
Proof.
  intros Hwf Ht Hall.
  assert (Hcap : (0 <= capacity b)%Q) by (destruct Hwf; assumption).
  assert (Hnone : forall b' : Bucket, disposed b' = true ->
            (inject_Z (Z.of_nat (length (run b' evs).2)) <= capacity b)%Q).
  { intros b' Hd. destruct (run_disposed evs b' Hd) as [-> _]. exact Hcap. }
  destruct (disposed b) eqn:Hd; [now apply Hnone|].
  destruct evs as [|ev rest]; [exact Hcap|].
  inversion Hall as [|? ? Hev Hrest]; subst. cbn [run].
  assert (Hlater : forall b1 g1, step b ev = (b1, g1) ->
            wellFormed b1 -> lastRefillTimestamp b1 = t ->
            (inject_Z (Z.of_nat (length g1)) + availableTokens b1 <= capacity b)%Q ->
            (inject_Z (Z.of_nat (length (g1 ++ (run b1 rest).2))) <= capacity b)%Q).
  { intros b1 g1 _ Hwf1 Hl1 Hsum.
    assert (Hall1 : allAt (lastRefillTimestamp b1) rest) by (rewrite Hl1; exact Hrest).
    destruct (run_grants rest b1 Hwf1 (allAt_monotone _ _ Hall1))
      as ((_ & _ & Hpos & _) & _ & _ & Hcount).
    rewrite (allAt_last rest b1 Hall1), elapsedSeconds_refl in Hcount.
    rewrite length_app, Nat2Z.inj_add, inject_Z_plus. lra. }
  destruct ev as [now caller | now |].
  - subst now.
    destruct (step_at t b (Acquire t caller) Hwf Ht Hd) as (Hwf1 & Hl1 & Hsum);
      [left; eauto|].
    destruct (step b (Acquire t caller)) as [b1 g1] eqn:Hstep. cbn [fst snd] in *.
    specialize (Hlater b1 g1 eq_refl Hwf1 Hl1 Hsum).
    destruct (run b1 rest) as [b2 g2]. exact Hlater.
  - subst now.
    destruct (step_at t b (Wake t) Hwf Ht Hd) as (Hwf1 & Hl1 & Hsum); [now right|].
    destruct (step b (Wake t)) as [b1 g1] eqn:Hstep. cbn [fst snd] in *.
    specialize (Hlater b1 g1 eq_refl Hwf1 Hl1 Hsum).
    destruct (run b1 rest) as [b2 g2]. exact Hlater.
  - cbn [step]. destruct (run_disposed rest (dispose b) eq_refl) as [Hg _].
    destruct (run (dispose b) rest) as [b2 g2]. cbn [fst snd] in *. subst g2. exact Hcap.
Qed.

(** Waiters are granted from the head of the queue as far as the whole
    tokens go. *)
Lemma drain_first (k : nat) (queue : list nat) (tokens : Q) :
  (k <= length queue)%nat -> (inject_Z (Z.of_nat k) <= tokens)%Q ->
  exists more, (drain tokens queue).1.1 = firstn k queue ++ more.
Proof.
  revert queue tokens. induction k as [|k IH]; intros queue tokens Hlen Htok.
  - eexists. reflexivity.
  - destruct queue as [|caller rest]; [cbn in Hlen; lia|].
    rewrite Nat2Z.inj_succ in Htok. unfold Z.succ in Htok.
    rewrite inject_Z_plus in Htok. change (inject_Z 1) with 1%Q in Htok.
    assert (Hk : (0 <= inject_Z (Z.of_nat k))%Q)
      by (change 0%Q with (inject_Z 0); rewrite <- Zle_Qle; lia).
    cbn [drain]. assert (E : Qle_bool 1 tokens = true) by (apply Qle_bool_iff; lra).
    rewrite E. destruct (IH rest (tokens - 1)%Q) as [more Hmore]; [cbn in Hlen; lia | lra |].
    destruct (drain (tokens - 1) rest) as [[granted tokens'] waiting].
    cbn [fst snd] in *. exists more. cbn [firstn app]. now rewrite Hmore.
Qed.

Lemma wake_first (t : Z) (k : nat) (b : Bucket) :
  disposed b = false -> (k <= length (waiters b))%nat ->
  (inject_Z (Z.of_nat k) <=
     Qmin (capacity b)
       (availableTokens b +
        elapsedSeconds (lastRefillTimestamp b) t * refillRatePerSecond b))%Q ->
  exists more, (wake t b).2 = firstn k (waiters b) ++ more.
Proof.
  intros Hd Hlen Htok. unfold wake. rewrite Hd. unfold grantWaiters.
  destruct (drain_first k (waiters (refill t b)) (availableTokens (refill t b)) Hlen Htok)
    as [more Hmore].
  destruct (drain _ _) as [[granted tokens] waiting]. cbn [fst snd] in *.
  exists more. exact Hmore.
Qed.

(** C3, as the model of sections 3 and 4.1 has it. For a limiter created
    with a non-negative capacity and rate, and events whose times do not go
    backwards: in every state of the run the available tokens lie between 0
    and the capacity; the number of calls granted immediately is at most the
    capacity plus what the rate refills over the time elapsed, hence at most
    the capacity for calls that all arrive at the instant of creation; the
    callers granted are, in order, a prefix of the callers in arrival order,
    the rest being the queue; and no caller is left waiting while a whole
    token is available. After the run: calls that all arrive at one later
    instant are granted immediately at most as often as the capacity; over
    any further events the calls granted immediately are at most the tokens
    available plus what the rate refills meanwhile; and the scheduled check
    at a time [t] grants the first [k] waiters as soon as the refilled
    tokens, [min(capacity, availableTokens + elapsedSeconds * rate)], are
    [k] or more. *)
Theorem token_bucket_contract (now : Z) (requestsPerSecond burstCapacity : Q)
    (evs : list event) :
  (0 <= burstCapacity)%Q -> (0 <= requestsPerSecond)%Q -> monotone now evs ->
  let b0 := create now requestsPerSecond burstCapacity in
  let final := (run b0 evs).1 in
  let granted := (run b0 evs).2 in
  Forall (fun b => (0 <= availableTokens b)%Q /\ (availableTokens b <= capacity b)%Q /\
                   capacity b = burstCapacity) (states b0 evs) /\
  (inject_Z (Z.of_nat (countImmediate b0 evs)) <=
     burstCapacity +
     requestsPerSecond * elapsedSeconds now (lastRefillTimestamp final))%Q /\
  (allAt now evs -> (inject_Z (Z.of_nat (countImmediate b0 evs)) <= burstCapacity)%Q) /\
  (exists rest, arrivals evs = granted ++ rest /\
                (disposed final = false -> rest = waiters final)) /\
  (waiters final = [] \/ (availableTokens final < 1)%Q) /\
  (forall t burst, lastRefillTimestamp final <= t -> allAt t burst ->
     (inject_Z (Z.of_nat (countImmediate final burst)) <= burstCapacity)%Q) /\
  (forall more, monotone (lastRefillTimestamp final) more ->
     (inject_Z (Z.of_nat (countImmediate final more)) <=
        availableTokens final +
        requestsPerSecond *
          elapsedSeconds (lastRefillTimestamp final)
            (lastRefillTimestamp (run final more).1))%Q) /\
  (forall t k, disposed final = false -> (k <= length (waiters final))%nat ->
     (inject_Z (Z.of_nat k) <=
        Qmin burstCapacity
          (availableTokens final +
           elapsedSeconds (lastRefillTimestamp final) t * requestsPerSecond))%Q ->
     exists more, (wake t final).2 = firstn k (waiters final) ++ more).
Proof.
  intros Hcap Hrate Hmono b0 final granted.
  assert (Hwf : wellFormed b0).
  { unfold wellFormed, b0, create. cbn. repeat split; try assumption. lra. }
  assert (Hmono0 : monotone (lastRefillTimestamp b0) evs) by exact Hmono.
  destruct (run_grants evs b0 Hwf Hmono0) as (Hwf' & Hrate' & _ & Hcount).
  fold final in Hwf', Hrate', Hcount. fold granted in Hcount.
  change (refillRatePerSecond b0) with requestsPerSecond in Hrate'.
  pose proof (run_capacity evs b0) as Hcap'. fold final in Hcap'.
  change (capacity b0) with burstCapacity in Hcap'.
  assert (Himm : (inject_Z (Z.of_nat (countImmediate b0 evs)) <=
                  inject_Z (Z.of_nat (length granted)))%Q).
  { rewrite <- Zle_Qle. pose proof (countImmediate_le_grants evs b0). unfold granted. lia. }
  assert (Hbound : (inject_Z (Z.of_nat (countImmediate b0 evs)) <=
     burstCapacity +
     requestsPerSecond * elapsedSeconds now (lastRefillTimestamp final))%Q).
  { destruct Hwf' as (_ & _ & Hpos & _).
    change (availableTokens b0) with burstCapacity in Hcount.
    change (refillRatePerSecond b0) with requestsPerSecond in Hcount.
    change (lastRefillTimestamp b0) with now in Hcount. lra. }
  split.
  { pose proof (run_states evs b0 Hwf Hmono0) as Hst.
    eapply Forall_impl; [exact Hst|]. cbn beta. intros b [(_ & _ & H1 & H2) H3]. auto. }
  split; [exact Hbound|]. split.
  { intros Hall. pose proof (allAt_last evs b0 Hall) as Hl. fold final in Hl.
    change (lastRefillTimestamp b0) with now in Hl. rewrite Hl in Hbound.
    rewrite elapsedSeconds_refl in Hbound. lra. }
  split.
  { destruct (run_fifo evs b0 eq_refl) as (rest & Hrest & Hfinal). exists rest. auto. }
  split; [apply run_settled; left; reflexivity|].
  split.
  { intros t burst Ht Hall.
    pose proof (burst_grants t burst final Hwf' Ht Hall) as Hb. rewrite Hcap' in Hb.
    pose proof (countImmediate_le_grants burst final) as Hle.
    assert ((inject_Z (Z.of_nat (countImmediate final burst)) <=
             inject_Z (Z.of_nat (length (run final burst).2)))%Q)
      by (rewrite <- Zle_Qle; lia).
    lra. }
  split.
  { intros more Hmore.
    destruct (run_grants more final Hwf' Hmore) as ((_ & _ & Hpos & _) & _ & _ & Hc).
    pose proof (countImmediate_le_grants more final) as Hle.
    assert ((inject_Z (Z.of_nat (countImmediate final more)) <=
             inject_Z (Z.of_nat (length (run final more).2)))%Q)
      by (rewrite <- Zle_Qle; lia).
    rewrite Hrate' in Hc. lra. }
  intros t k Hd Hlen Htok. apply wake_first; [exact Hd | exact Hlen|].
  now rewrite Hcap', Hrate'.
Qed.

(** The queueing test: capacity 2 and two tokens per second; of four calls
    at once two are granted at once, the other two in their order as the
    tokens come back. *)
Lemma token_bucket_contract_witness :
  let evs := [Acquire 0 1; Acquire 0 2; Acquire 0 3; Acquire 0 4; Wake 500; Wake 1000]%nat in
  (run (create 0 2 2) evs).2 = [1; 2; 3; 4]%nat /\
  countImmediate (create 0 2 2) evs = 2%nat /\
  (inject_Z (Z.of_nat (countImmediate (create 0 2 2) evs)) <=
     2 + 2 * elapsedSeconds 0 (lastRefillTimestamp (run (create 0 2 2) evs).1))%Q.
Proof.
  intros evs. split; [vm_compute; reflexivity|]. split; [reflexivity|].
  refine (proj1 (proj2 (token_bucket_contract 0 2 2 evs _ _ _))).
  - discriminate.
  - discriminate.
  - cbn. lia.
Defined.

(** C3, as stated, fails: with a capacity of 2 and one token per second,
    three calls 600 ms apart come faster than the refill rate, and all three
    are granted immediately, since the tokens refilled between them are
    granted too. *)
Lemma paced_calls_exceed_capacity :
  let b := create 0 1 2 in
  let evs := [Acquire 0 1; Acquire 600 2; Acquire 1200 3]%nat in
  monotone 0 evs /\ fasterThanRefill (refillRatePerSecond b) 0 evs /\
  countImmediate b evs = 3%nat /\
  ~ (inject_Z (Z.of_nat (countImmediate b evs)) <= capacity b)%Q.
Proof.
  cbv zeta. split; [cbn; lia|]. split; [cbn; repeat split|]. split; [reflexivity|].
  intros H. apply H. vm_compute. reflexivity.
Qed.

(** A burst long after the creation: of five calls at once, two are granted
    at once. *)
Example late_burst :
  countImmediate (create 0 2 2)
    [Acquire 10000 1; Acquire 10000 2; Acquire 10000 3; Acquire 10000 4;
     Acquire 10000 5]%nat = 2%nat.
Proof. reflexivity. Qed.

(** With a capacity of ten, five calls at once are all granted at once. *)
Example burst_within_capacity :
  let evs := [Acquire 0 1; Acquire 0 2; Acquire 0 3; Acquire 0 4; Acquire 0 5]%nat in
  countImmediate (create 0 10 10) evs = 5%nat /\
  waiters (run (create 0 10 10) evs).1 = [].
Proof. split; reflexivity. Qed.

End RateLimiterFacts.

(** ** String methods *)

Module StrFacts.

Import StringFacts.

Lemma length_app (s1 s2 : string) :
  String.length (s1 +:+ s2) = (String.length s1 + String.length s2)%nat.
Proof.
  induction s1 as [|c s1 IH]; [reflexivity|]. rewrite append_cons. cbn. now rewrite IH.
Qed.

Lemma forallb_append (q : ascii -> bool) (s1 s2 : string) :
  Str.forallb q (s1 +:+ s2) = Str.forallb q s1 && Str.forallb q s2.
Proof.
  induction s1 as [|c s1 IH]; [reflexivity|].
  rewrite append_cons. cbn [Str.forallb]. rewrite IH. apply andb_assoc.
Qed.

Lemma startsWith_app (a b : string) : Str.startsWith (a +:+ b) a = true.
Proof.
  induction a as [|c a IH]; [now destruct b|].
  rewrite append_cons. cbn. now rewrite Ascii.eqb_refl.
Qed.

Lemma length_take (n : nat) (s : string) :
  String.length (Str.take n s) = Nat.min n (String.length s).
Proof.
  revert s. induction n as [|n IH]; intros [|c s]; cbn; auto.
Qed.

Lemma length_drop (n : nat) (s : string) :
  String.length (Str.drop n s) = (String.length s - n)%nat.
Proof.
  revert s. induction n as [|n IH]; intros [|c s]; cbn; auto.
Qed.

Lemma length_repeat (c : ascii) (n : nat) : String.length (Str.repeat c n) = n.
Proof. induction n as [|n IH]; cbn; auto. Qed.

Lemma take_take (m n : nat) (s : string) :
  (m <= n)%nat -> Str.take m (Str.take n s) = Str.take m s.
Proof.
  revert n s. induction m as [|m IH]; intros n s H; [now destruct (Str.take n s)|].
  destruct n as [|n]; [lia|]. destruct s as [|c s]; [reflexivity|].
  cbn. rewrite IH by lia. reflexivity.
Qed.

Lemma drop_drop (m n : nat) (s : string) :
  Str.drop m (Str.drop n s) = Str.drop (n + m) s.
Proof.
  revert s. induction n as [|n IH]; intros s; [reflexivity|].
  destruct s as [|c s]; cbn; [now destruct m | apply IH].
Qed.

Lemma take_drop (n : nat) (s : string) : Str.take n s +:+ Str.drop n s = s.
Proof.
  revert s. induction n as [|n IH]; intros [|c s]; cbn; try reflexivity.
  rewrite append_cons, IH. reflexivity.
Qed.

Lemma take_all (n : nat) (s : string) :
  (String.length s <= n)%nat -> Str.take n s = s.
Proof.
  revert s. induction n as [|n IH]; intros [|c s]; cbn; intros H; try reflexivity; try lia.
  rewrite IH by lia. reflexivity.
Qed.

Lemma drop_app_length (s1 s2 : string) : Str.drop (String.length s1) (s1 +:+ s2) = s2.
Proof. induction s1 as [|c s1 IH]; [now destruct s2 | rewrite append_cons; exact IH]. Qed.

Lemma forallb_take (q : ascii -> bool) (n : nat) (s : string) :
  Str.forallb q s = true -> Str.forallb q (Str.take n s) = true.
Proof.
  revert s. induction n as [|n IH]; intros [|c s]; cbn; auto.
  intros H. apply andb_true_iff in H as [-> H]. cbn. auto.
Qed.

Lemma forallb_filter (q p : ascii -> bool) (s : string) :
  Str.forallb q s = true -> Str.forallb q (Str.filter p s) = true.
Proof.
  induction s as [|c s IH]; cbn; [auto|].
  intros H. apply andb_true_iff in H as [Hc H]. destruct (p c); cbn; [rewrite Hc|]; auto.
Qed.

Lemma forallb_filter_self (p : ascii -> bool) (s : string) :
  Str.forallb p (Str.filter p s) = true.
Proof.
  induction s as [|c s IH]; cbn; [reflexivity|].
  destruct (p c) eqn:E; cbn; [rewrite E|]; auto.
Qed.

Lemma forallb_impl (p q : ascii -> bool) (s : string) :
  (forall c, p c = true -> q c = true) ->
  Str.forallb p s = true -> Str.forallb q s = true.
Proof.
  intros Hpq. induction s as [|c s IH]; cbn; [auto|].
  intros H. apply andb_true_iff in H as [Hc H]. rewrite (Hpq c Hc). auto.
Qed.

(** [trim] keeps a string that has no white space at its ends; in
    particular one without white space. *)
Lemma trimEnd_forallb (q : ascii -> bool) (s : string) :
  Str.forallb q s = true -> Str.forallb q (JS.trimEnd s) = true.
Proof.
  induction s as [|c s IH]; cbn; [auto|].
  intros H. apply andb_true_iff in H as [Hc H]. specialize (IH H).
  destruct (JS.trimEnd s) as [|c' s'].
  - destruct (JS.isWhiteSpace c); cbn; [reflexivity | now rewrite Hc].
  - cbn in *. now rewrite Hc.
Qed.

Lemma trimStart_forallb (q : ascii -> bool) (s : string) :
  Str.forallb q s = true -> Str.forallb q (JS.trimStart s) = true.
Proof.
  induction s as [|c s IH]; cbn; [auto|].
  intros H. destruct (JS.isWhiteSpace c); [|exact H].
  apply andb_true_iff in H as [_ H]. auto.
Qed.

Lemma trim_forallb (q : ascii -> bool) (s : string) :
  Str.forallb q s = true -> Str.forallb q (JS.trim s) = true.
Proof. intros H. unfold JS.trim. now apply trimEnd_forallb, trimStart_forallb. Qed.

Lemma trimEnd_noWhite (s : string) :
  Str.forallb Regex.isNonSpace s = true -> JS.trimEnd s = s.
Proof.
  induction s as [|c s IH]; cbn; [auto|].
  intros H. apply andb_true_iff in H as [Hc H]. rewrite (IH H).
  destruct s; [|reflexivity]. unfold Regex.isNonSpace in Hc. apply negb_true_iff in Hc. now rewrite Hc.
Qed.

Lemma trim_noWhite (s : string) :
  Str.forallb Regex.isNonSpace s = true -> JS.trim s = s.
Proof.
  intros H. unfold JS.trim.
  assert (Hs : JS.trimStart s = s).
  { destruct s as [|c s]; [reflexivity|]. cbn in *.
    apply andb_true_iff in H as [Hc _]. unfold Regex.isNonSpace in Hc. apply negb_true_iff in Hc. now rewrite Hc. }
  rewrite Hs. now apply trimEnd_noWhite.
Qed.

Lemma length_trimEnd (s : string) : (String.length (JS.trimEnd s) <= String.length s)%nat.
Proof.
  induction s as [|c s IH]; cbn; [lia|].
  destruct (JS.trimEnd s); [destruct (JS.isWhiteSpace c)|]; cbn in *; lia.
Qed.

Lemma length_trimStart (s : string) :
  (String.length (JS.trimStart s) <= String.length s)%nat.
Proof.
  induction s as [|c s IH]; cbn; [lia|]. destruct (JS.isWhiteSpace c); cbn; lia.
Qed.

Lemma length_trim (s : string) : (String.length (JS.trim s) <= String.length s)%nat.
Proof.
  unfold JS.trim. pose proof (length_trimEnd (JS.trimStart s)).
  pose proof (length_trimStart s). lia.
Qed.

End StrFacts.

(** ** Masking *)

Module MaskFacts.

Import SecurityUtils StringFacts StrFacts.


(** X2. What is shown of a string of eight characters or more is taken from
    its first four and its last four characters: two strings of one length
    that agree there are masked alike. *)
Theorem maskSensitiveData_ends (s1 s2 : string) :
  (8 <= String.length s1)%nat ->
  String.length s1 = String.length s2 ->
  Str.take 4 s1 = Str.take 4 s2 ->
  Str.drop (String.length s1 - 4) s1 = Str.drop (String.length s2 - 4) s2 ->
  maskSensitiveData s1 = maskSensitiveData s2.
Proof.
  intros H8 Hlen Htake Hdrop. unfold maskSensitiveData. rewrite <- Hlen.
  destruct (Nat.ltb_spec (String.length s1) 8); [lia|].
  set (v := Nat.min 4 (String.length s1 / 4)).
  assert (Hv : (v <= 4)%nat) by (subst v; lia).
  rewrite <- (take_take v 4 s1), <- (take_take v 4 s2), Htake by exact Hv.
  replace (String.length s1 - v)%nat with ((String.length s1 - 4) + (4 - v))%nat by lia.
  rewrite <- !drop_drop. rewrite Hdrop, <- Hlen. reflexivity.
Qed.

Lemma maskSensitiveData_ends_witness :
  maskSensitiveData "key=0123456789abcdef;end" =
  maskSensitiveData "key=fedcba9876543210;end".
Proof. apply maskSensitiveData_ends; solve [reflexivity | cbn; lia]. Defined.

End MaskFacts.

(** ** Regular expressions: the matcher decides the language *)

Module RegexFacts.

Import Regex StringFacts StrFacts.

Lemma append_eq_nil (s1 s2 : string) :
  s1 +:+ s2 = EmptyString -> s1 = EmptyString /\ s2 = EmptyString.
Proof. destruct s1; [auto | rewrite append_cons; discriminate]. Qed.

Lemma nullable_Lang (r : regex) : nullable r = true <-> Lang r EmptyString.
Proof.
  split.
  - induction r as [| |p|r1 IH1 r2 IH2|r1 IH1 r2 IH2|r1 IH1]; cbn [nullable]; intros H;
      try discriminate.
    + constructor.
    + apply andb_true_iff in H as [H1 H2].
      apply (LangCat r1 r2 EmptyString EmptyString); auto.
    + apply orb_true_iff in H as [H | H]; [apply LangAltL | apply LangAltR]; auto.
    + constructor.
  - intros H. remember EmptyString as s eqn:Hs.
    induction H as [|p c Hp|r1 r2 s1 s2 H1 IH1 H2 IH2|r1 r2 s H IH|r1 r2 s H IH|r1
                    |r1 s1 s2 H1 IH1 H2 IH2]; cbn [nullable]; try reflexivity.
    + discriminate.
    + apply append_eq_nil in Hs as [-> ->]. rewrite IH1, IH2; reflexivity.
    + rewrite IH by assumption. reflexivity.
    + rewrite IH by assumption. apply orb_true_r.
Qed.

Lemma deriv_sound (c : ascii) (r : regex) (s : string) :
  Lang (deriv c r) s -> Lang r (String c s).
Proof.
  revert s. induction r as [| |p|r1 IH1 r2 IH2|r1 IH1 r2 IH2|r1 IH1]; intros s;
    cbn [deriv]; intros H.
  - inversion H.
  - inversion H.
  - destruct (p c) eqn:Hp; inversion H; subst. now constructor.
  - assert (Hcat : forall t, Lang (Cat (deriv c r1) r2) t -> Lang (Cat r1 r2) (String c t)).
    { intros t Ht. inversion Ht as [| |? ? s1 s2 H1 H2| | | |]; subst.
      rewrite <- append_cons. constructor; auto. }
    destruct (nullable r1) eqn:Hn; [|now apply Hcat].
    inversion H as [| | |? ? ? Hl|? ? ? Hr| |]; subst; [now apply Hcat|].
    rewrite <- (append_nil_l (String c s)). constructor; [|auto].
    now apply nullable_Lang.
  - inversion H; subst; [apply LangAltL | apply LangAltR]; auto.
  - inversion H as [| |? ? s1 s2 H1 H2| | | |]; subst.
    rewrite <- append_cons. constructor; auto.
Qed.

Lemma deriv_complete (r : regex) (t : string) :
  Lang r t -> forall c s, t = String c s -> Lang (deriv c r) s.
Proof.
  induction 1 as [|p c0 Hp|r1 r2 s1 s2 H1 IH1 H2 IH2|r1 r2 s0 H IH|r1 r2 s0 H IH|r1
                  |r1 s1 s2 H1 IH1 H2 IH2]; intros c s Heq; cbn [deriv].
  - discriminate.
  - injection Heq as -> <-. rewrite Hp. constructor.
  - destruct s1 as [|c1 s1].
    + rewrite append_nil_l in Heq. apply nullable_Lang in H1. rewrite H1.
      apply LangAltR. now apply IH2.
    + rewrite append_cons in Heq. injection Heq as -> <-.
      assert (Hc : Lang (Cat (deriv c r1) r2) (s1 +:+ s2)) by (constructor; auto).
      destruct (nullable r1); [now apply LangAltL | exact Hc].
  - apply LangAltL. now apply IH.
  - apply LangAltR. now apply IH.
  - discriminate.
  - destruct s1 as [|c1 s1].
    + rewrite append_nil_l in Heq. now apply IH2.
    + rewrite append_cons in Heq. injection Heq as -> <-.
      constructor; auto.
Qed.

(** The matcher accepts exactly the strings of the language. *)
Theorem matches_Lang (r : regex) (s : string) : matches r s = true <-> Lang r s.
Proof.
  revert r. induction s as [|c s IH]; intros r; cbn [matches].
  - apply nullable_Lang.
  - rewrite IH. split; [apply deriv_sound | intros H; now apply (deriv_complete r _ H)].
Qed.

(** A string that matches consists of characters of the classes. *)
Lemma Lang_classesWithin (q : ascii -> bool) (r : regex) (s : string) :
  classesWithin q r -> Lang r s -> Str.forallb q s = true.
Proof.
  intros Hq H. induction H; cbn [classesWithin] in Hq; try reflexivity.
  - cbn. rewrite (Hq c) by assumption. reflexivity.
  - destruct Hq. rewrite forallb_append, IHLang1, IHLang2; auto.
  - destruct Hq. auto.
  - destruct Hq. auto.
  - rewrite forallb_append, IHLang1, IHLang2; auto.
Qed.

Lemma Lang_lit (p s : string) : Lang (lit p) s <-> s = p.
Proof.
  revert s. induction p as [|c p IH]; intros s; cbn [lit].
  - split; [intros H; now inversion H | intros ->; constructor].
  - split.
    + intros H. inversion H as [| |? ? s1 s2 H1 H2| | | |]; subst.
      inversion H1; subst. apply IH in H2. subst.
      match goal with Hc : (_ =? _)%char = true |- _ => apply Ascii.eqb_eq in Hc; subst end.
      reflexivity.
    + intros ->. rewrite <- (append_nil_l p), <- append_cons.
      constructor; [constructor; apply Ascii.eqb_refl | now apply IH].
Qed.

Lemma Lang_Cat_lit (p : string) (r : regex) (s : string) :
  Lang (Cat (lit p) r) s <-> exists s', s = p +:+ s' /\ Lang r s'.
Proof.
  split.
  - intros H. inversion H as [| |? ? s1 s2 H1 H2| | | |]; subst.
    apply Lang_lit in H1. subst. eauto.
  - intros (s' & -> & H). constructor; [now apply Lang_lit | exact H].
Qed.

End RegexFacts.

Module DoiFacts.

Import Regex SecurityUtils StringFacts StrFacts RegexFacts.

Lemma doiPattern_isNonSpace : classesWithin isNonSpace doiPattern.
Proof.
  unfold doiPattern. cbn.
  repeat split; intros c H; try (apply Ascii.eqb_eq in H; subst; reflexivity);
    try exact H.
  all: revert H; each_ascii c; reflexivity || discriminate.
Qed.

Lemma matches_doiPattern (s : string) :
  matches doiPattern s = true ->
  Str.startsWith s "10." = true /\ Str.forallb isNonSpace s = true.
Proof.
  intros H. apply matches_Lang in H. split.
  - apply Lang_Cat_lit in H as (s' & -> & _). reflexivity.
  - exact (Lang_classesWithin _ _ _ doiPattern_isNonSpace H).
Qed.

Lemma stripPrefix_digit (r : string) :
  stripPrefix doiPrefixes (String "1" r) = String "1" r.
Proof. reflexivity. Qed.

Lemma startsWith_cons (s : string) (c : ascii) (p : string) :
  Str.startsWith s (String c p) = true -> exists r, s = String c r.
Proof.
  destruct s as [|x r]; cbn; [discriminate|].
  intros H. apply andb_true_iff in H as [H _]. apply Ascii.eqb_eq in H. subst. eauto.
Qed.

(** The result depends on the input through the text that is left when the
    white space around it and the prefix are removed. *)
Lemma sanitizeDoi_stripped (d1 d2 : string) :
  d1 <> EmptyString -> d2 <> EmptyString ->
  stripPrefix doiPrefixes (JS.trim d1) = stripPrefix doiPrefixes (JS.trim d2) ->
  sanitizeDoi d1 = sanitizeDoi d2.
Proof.
  intros H1 H2 H. unfold sanitizeDoi.
  destruct d1; [congruence|]. destruct d2; [congruence|]. cbv zeta. rewrite H. reflexivity.
Qed.

Lemma sanitizeDoi_valid_inv (doi : string) :
  valid (sanitizeDoi doi) = true ->
  let s := stripPrefix doiPrefixes (JS.trim doi) in
  doi <> EmptyString /\
  sanitizeDoi doi = {| valid := true; sanitized := s; error := None |} /\
  matches doiPattern s = true /\
  (String.length s <= 256)%nat /\
  Str.hasChar "<" s = false /\ Str.hasChar ">" s = false /\
  Str.hasChar JSON.dquote s = false /\ Str.hasChar "'" s = false.
Proof.
  unfold sanitizeDoi. destruct doi as [|c doi]; [discriminate|]. cbv zeta.
  set (s := stripPrefix doiPrefixes (JS.trim (String c doi))).
  destruct (matches doiPattern s) eqn:Hm; cbn [negb]; [|discriminate].
  destruct (Nat.ltb_spec 256 (String.length s)); [discriminate|].
  destruct (Str.hasChar "<" s); [discriminate|].
  destruct (Str.hasChar ">" s); [discriminate|].
  destruct (Str.hasChar JSON.dquote s); [discriminate|].
  destruct (Str.hasChar "'" s); [discriminate|].
  cbn. intros _. repeat split; auto; discriminate.
Qed.

(** X3. What a DOI that is accepted looks like, and what a refusal returns. *)
Theorem sanitizeDoi_sound (doi : string) :
  let r := sanitizeDoi doi in
  if valid r then
    error r = None /\
    matches doiPattern (sanitized r) = true /\
    Str.startsWith (sanitized r) "10." = true /\
    (String.length (sanitized r) <= 256)%nat /\
    Str.forallb isNonSpace (sanitized r) = true /\
    Str.hasChar "<" (sanitized r) = false /\ Str.hasChar ">" (sanitized r) = false /\
    Str.hasChar JSON.dquote (sanitized r) = false /\ Str.hasChar "'" (sanitized r) = false
  else sanitized r = EmptyString /\ error r <> None.
Proof.
  cbv zeta. destruct (valid (sanitizeDoi doi)) eqn:Hv.
  - destruct (sanitizeDoi_valid_inv doi Hv) as (_ & -> & Hm & Hlen & H1 & H2 & H3 & H4).
    cbn [sanitized error]. destruct (matches_doiPattern _ Hm) as [Hs Hw].
    repeat split; auto.
  - revert Hv. unfold sanitizeDoi. destruct doi; [cbn; split; [reflexivity | discriminate]|].
    cbv zeta.
    repeat match goal with
           | |- context [if ?b then _ else _] => destruct b
           end; cbn; try discriminate; split; (reflexivity || discriminate).
Qed.

(** X4. An accepted DOI is accepted again, unchanged. *)
Theorem sanitizeDoi_idempotent (doi : string) :
  valid (sanitizeDoi doi) = true ->
  sanitizeDoi (sanitized (sanitizeDoi doi)) = sanitizeDoi doi.
Proof.
  intros Hv. destruct (sanitizeDoi_valid_inv doi Hv) as (_ & Hr & Hm & _).
  cbv zeta in Hr, Hm. rewrite Hr at 1. cbn [sanitized].
  set (s := stripPrefix doiPrefixes (JS.trim doi)) in *.
  destruct (matches_doiPattern _ Hm) as [Hs Hw].
  destruct (startsWith_cons _ _ _ Hs) as [r Hsr].
  assert (Hne : s <> EmptyString) by (rewrite Hsr; discriminate).
  assert (Hd : doi <> EmptyString) by (intros ->; discriminate).
  apply sanitizeDoi_stripped; auto.
  rewrite trim_noWhite by exact Hw. fold s. rewrite Hsr. apply stripPrefix_digit.
Qed.

Lemma sanitizeDoi_idempotent_witness :
  sanitizeDoi (sanitized (sanitizeDoi "  DOI:10.1038/nature12373 ")) =
  sanitizeDoi "  DOI:10.1038/nature12373 ".
Proof. apply sanitizeDoi_idempotent. reflexivity. Defined.

Lemma length_toLowerCase (s : string) : String.length (JS.toLowerCase s) = String.length s.
Proof. induction s as [|c s IH]; cbn; auto. Qed.

Lemma forallb_isNonSpace_toLowerCase (s : string) :
  Str.forallb isNonSpace (JS.toLowerCase s) = Str.forallb isNonSpace s.
Proof.
  induction s as [|c s IH]; cbn; [reflexivity|].
  unfold isNonSpace at 1 3. now rewrite lowerChar_white, IH.
Qed.

Lemma stripPrefix_prefixed (p p' d : string) :
  In p doiPrefixes -> JS.toLowerCase p' = JS.toLowerCase p ->
  stripPrefix doiPrefixes (p' +:+ d) = d /\ Str.forallb isNonSpace p' = true.
Proof.
  intros Hin Hp.
  assert (Hlen : String.length p' = String.length p)
    by (rewrite <- (length_toLowerCase p'), Hp; apply length_toLowerCase).
  assert (Hw : Str.forallb isNonSpace p' = Str.forallb isNonSpace p)
    by (rewrite <- (forallb_isNonSpace_toLowerCase p'), Hp; apply forallb_isNonSpace_toLowerCase).
  unfold doiPrefixes in *. cbn [stripPrefix].
  rewrite toLowerCase_app, Hp.
  cbn [In] in Hin.
  destruct Hin as [<- | [<- | [<- | [<- | [<- | [<- | []]]]]]];
    (split; [|rewrite Hw; reflexivity]).
  all: repeat match goal with
         | |- (if Str.startsWith (?a +:+ ?b) ?c then _ else _) = _ =>
             first [ change c with a; rewrite (startsWith_app a b)
                   | change (Str.startsWith (a +:+ b) c) with false; cbv iota ]
         end.
  all: match goal with
       | |- Str.drop ?n _ = _ =>
           replace n with (String.length p') by (rewrite Hlen; reflexivity)
       end.
  all: apply drop_app_length.
Qed.

(** X5. A prefix in any letter case and white space around an accepted DOI
    are removed. *)
Theorem sanitizeDoi_decorated (doi p p' pre post : string) :
  valid (sanitizeDoi doi) = true ->
  In p doiPrefixes -> JS.toLowerCase p' = JS.toLowerCase p ->
  JS.allWhiteSpace pre = true -> JS.allWhiteSpace post = true ->
  sanitizeDoi (pre +:+ p' +:+ sanitized (sanitizeDoi doi) +:+ post) = sanitizeDoi doi.
Proof.
  intros Hv Hin Hp Hpre Hpost.
  destruct (sanitizeDoi_valid_inv doi Hv) as (Hd & Hr & Hm & _).
  cbv zeta in Hr, Hm. rewrite Hr at 1. cbn [sanitized].
  set (s := stripPrefix doiPrefixes (JS.trim doi)) in *.
  destruct (matches_doiPattern _ Hm) as [Hs Hw].
  destruct (startsWith_cons _ _ _ Hs) as [r Hsr].
  destruct (stripPrefix_prefixed p p' s Hin Hp) as [Hstrip Hpw].
  apply sanitizeDoi_stripped; auto.
  - intros H. apply append_eq_nil in H as [_ H]. apply append_eq_nil in H as [_ H].
    apply append_eq_nil in H as [H _]. rewrite Hsr in H. discriminate.
  - rewrite <- (append_assoc p' s post), trim_surrounded by assumption.
    rewrite trim_noWhite
      by (now rewrite forallb_append, Hpw, Hw).
    exact Hstrip.
Qed.

Lemma sanitizeDoi_decorated_witness :
  sanitizeDoi (" " +:+ "HTTPS://DX.DOI.ORG/" +:+
               sanitized (sanitizeDoi "10.1038/nature12373") +:+ "  ") =
  sanitizeDoi "10.1038/nature12373".
Proof.
  apply (sanitizeDoi_decorated _ "https://dx.doi.org/");
    solve [reflexivity | cbn; tauto].
Defined.

End DoiFacts.

Module EscapeFacts.

Import Regex SecurityUtils StringFacts StrFacts RegexFacts.

(** *** [trim] *)

Lemma trimEnd_idem (s : string) : JS.trimEnd (JS.trimEnd s) = JS.trimEnd s.
Proof.
  induction s as [|c s IH]; [reflexivity|]. cbn [JS.trimEnd].
  destruct (JS.trimEnd s) as [|c' s'] eqn:E.
  - destruct (JS.isWhiteSpace c) eqn:Hc; [reflexivity|]. cbn. now rewrite Hc.
  - cbn [JS.trimEnd] in *. rewrite IH. reflexivity.
Qed.

Lemma trimStart_trimEnd (s : string) :
  JS.trimStart s = s -> JS.trimStart (JS.trimEnd s) = JS.trimEnd s.
Proof.
  destruct s as [|c s]; [reflexivity|]. cbn [JS.trimStart JS.trimEnd].
  destruct (JS.isWhiteSpace c) eqn:Hc.
  - intros H. exfalso. pose proof (length_trimStart s) as Hl. rewrite H in Hl. cbn in Hl. lia.
  - intros _. destruct (JS.trimEnd s); cbn; now rewrite Hc.
Qed.

Lemma trimStart_idem (s : string) : JS.trimStart (JS.trimStart s) = JS.trimStart s.
Proof.
  induction s as [|c s IH]; [reflexivity|]. cbn [JS.trimStart].
  destruct (JS.isWhiteSpace c) eqn:Hc; [exact IH|]. cbn. now rewrite Hc.
Qed.

Lemma trim_idem (s : string) : JS.trim (JS.trim s) = JS.trim s.
Proof.
  unfold JS.trim. rewrite (trimStart_trimEnd (JS.trimStart s)) by apply trimStart_idem.
  apply trimEnd_idem.
Qed.

Lemma trimEnd_take (s : string) : exists k, JS.trimEnd s = Str.take k s.
Proof.
  induction s as [|c s [k IH]]; [now exists O|]. cbn [JS.trimEnd].
  destruct (JS.trimEnd s) as [|c' s'].
  - destruct (JS.isWhiteSpace c); [now exists O | exists 1%nat; now destruct s].
  - exists (S k). cbn. now rewrite IH.
Qed.

(** *** Substrings keep what holds for every part of a string *)

Lemma startsWith_take (n : nat) (s sub : string) :
  Str.startsWith (Str.take n s) sub = true -> Str.startsWith s sub = true.
Proof.
  revert n s. induction sub as [|p sub IH]; intros n s; [reflexivity|].
  destruct n as [|n]; [destruct s; discriminate|].
  destruct s as [|c s]; [discriminate|]. cbn.
  intros H. apply andb_true_iff in H as [-> H]. cbn. eauto.
Qed.

Lemma includes_cons (c : ascii) (s sub : string) :
  Str.includes (String c s) sub = false -> Str.includes s sub = false.
Proof. cbn [Str.includes]. intros H. now apply orb_false_iff in H as [_ H]. Qed.

Lemma includes_take (n : nat) (s sub : string) :
  Str.includes s sub = false -> Str.includes (Str.take n s) sub = false.
Proof.
  revert n. induction s as [|c s IH]; intros n H.
  - now destruct n.
  - destruct n as [|n].
    + cbn in *. apply orb_false_iff in H as [H _].
      destruct sub; [discriminate | reflexivity].
    + change (Str.take (S n) (String c s)) with (String c (Str.take n s)).
      cbn [Str.includes] in *. apply orb_false_iff in H as [H1 H2].
      rewrite (IH n H2), orb_false_r.
      destruct (Str.startsWith (String c (Str.take n s)) sub) eqn:E; [|reflexivity].
      change (String c (Str.take n s)) with (Str.take (S n) (String c s)) in E.
      apply startsWith_take in E. congruence.
Qed.

Lemma includes_trimStart (s sub : string) :
  Str.includes s sub = false -> Str.includes (JS.trimStart s) sub = false.
Proof.
  induction s as [|c s IH]; [auto|]. intros H. cbn [JS.trimStart].
  destruct (JS.isWhiteSpace c); [|exact H]. apply IH. now apply includes_cons in H.
Qed.

Lemma includes_trim (s sub : string) :
  Str.includes s sub = false -> Str.includes (JS.trim s) sub = false.
Proof.
  intros H. unfold JS.trim. destruct (trimEnd_take (JS.trimStart s)) as [k ->].
  now apply includes_take, includes_trimStart.
Qed.

(** *** The replacements *)

Lemma removePair_cons (a b c1 c2 : ascii) (r : string) :
  removePair a b (String c1 (String c2 r)) =
  if ((c1 =? a)%char && (c2 =? b)%char)%bool then removePair a b r
  else String c1 (removePair a b (String c2 r)).
Proof. reflexivity. Qed.

Lemma forallb_removePair (q : ascii -> bool) (a b : ascii) (s : string) :
  Str.forallb q s = true -> Str.forallb q (removePair a b s) = true.
Proof.
  revert s.
  enough (H : forall n s, (String.length s <= n)%nat ->
                Str.forallb q s = true -> Str.forallb q (removePair a b s) = true)
    by (intros s; apply (H (String.length s)); lia).
  induction n as [|n IH]; intros [|c1 [|c2 r]] Hlen Hq; auto;
    cbn [String.length] in Hlen; try lia.
  rewrite removePair_cons.
  cbn [Str.forallb] in Hq. apply andb_true_iff in Hq as [H1 Hq].
  destruct ((c1 =? a)%char && (c2 =? b)%char).
  - apply andb_true_iff in Hq as [H2 Hq]. apply IH; [lia | exact Hq].
  - cbn [Str.forallb]. rewrite H1. apply IH; [cbn; lia | exact Hq].
Qed.

Lemma forallb_removeSlashRuns (q : ascii -> bool) (s : string) (inRun : bool) :
  Str.forallb q s = true -> Str.forallb q (removeSlashRuns inRun s) = true.
Proof.
  revert inRun. induction s as [|c r IH]; intros inRun Hq; [reflexivity|].
  cbn [Str.forallb] in Hq. apply andb_true_iff in Hq as [Hc Hq].
  cbn [removeSlashRuns].
  destruct (isSlash c); [destruct inRun; [auto|]|].
  - destruct r as [|c' r']; [cbn; now rewrite Hc|].
    destruct (isSlash c'); [now apply IH|]. cbn [Str.forallb]. rewrite Hc. now apply IH.
  - cbn [Str.forallb]. rewrite Hc. now apply IH.
Qed.

Lemma forallb_escapeQuotes (q : ascii -> bool) (s : string) :
  q "\"%char = true -> Str.forallb q s = true -> Str.forallb q (escapeQuotes s) = true.
Proof.
  intros Hb. induction s as [|c r IH]; intros Hq; [reflexivity|].
  cbn [Str.forallb] in Hq. apply andb_true_iff in Hq as [Hc Hq].
  cbn [escapeQuotes]. destruct (isQuote c); cbn [Str.forallb]; rewrite ?Hb, Hc; cbn; auto.
Qed.

Lemma forallb_removeChars (q p : ascii -> bool) (s : string) :
  Str.forallb q s = true -> Str.forallb q (removeChars p s) = true.
Proof. apply forallb_filter. Qed.

Lemma forallb_removeChars_self (p : ascii -> bool) (s : string) :
  Str.forallb (fun c => negb (p c)) (removeChars p s) = true.
Proof. apply forallb_filter_self. Qed.

(** What holds for every character of the value without the control
    characters, and for the backslash, holds for every character of the
    result. *)
Lemma escapeQueryValue_forallb (q : ascii -> bool) (value : string) (context : QueryContext) :
  q "\"%char = true ->
  Str.forallb q (removeChars isControl value) = true ->
  Str.forallb q (escapeQueryValue value context) = true.
Proof.
  intros Hb Hq. unfold escapeQueryValue. destruct value as [|c0 v0]; [reflexivity|].
  set (escaped := removeChars isControl (String c0 v0)) in *. cbv zeta.
  apply trim_forallb.
  match goal with
  | |- Str.forallb q (if _ then Str.take 200 ?x else ?x) = true =>
      assert (Hx : Str.forallb q x = true);
      [|destruct (200 <? String.length x)%nat; [now apply forallb_take | exact Hx]]
  end.
  destruct context.
  - now apply forallb_removePair, forallb_removePair, forallb_removeChars,
      forallb_removeChars, forallb_escapeQuotes.
  - match goal with |- context [if ?b then _ else _] => destruct b end;
      [now apply trim_forallb, forallb_removeChars, forallb_removeChars | exact Hq].
  - now apply trim_forallb, forallb_removeSlashRuns, forallb_removeChars.
Qed.

(** X6. In every context the result has at most 200 characters, no white
    space at its ends and no control character. *)
Theorem escapeQueryValue_bounds (value : string) (context : QueryContext) :
  let r := escapeQueryValue value context in
  (String.length r <= 200)%nat /\ JS.trim r = r /\
  Str.forallb (fun c => negb (isControl c)) r = true.
Proof.
  cbv zeta. split; [|split].
  - unfold escapeQueryValue. destruct value as [|c0 v0]; [cbn; lia|]. cbv zeta.
    match goal with
    | |- (String.length (JS.trim (if _ then Str.take 200 ?x else ?x)) <= _)%nat =>
        generalize x; intros x'
    end.
    etransitivity; [apply length_trim|].
    destruct (Nat.ltb_spec 200 (String.length x')); [rewrite length_take|]; lia.
  - unfold escapeQueryValue. destruct value; [reflexivity|]. cbv zeta. apply trim_idem.
  - apply escapeQueryValue_forallb; [reflexivity | apply forallb_removeChars_self].
Qed.

(** *** Runs of slashes *)

Lemma isSlash_eqb (c : ascii) : isSlash c = (c =? "/")%char.
Proof. each_ascii c; reflexivity. Qed.

Lemma removeSlashRuns_head (c : ascii) (r : string) :
  isSlash c = false ->
  forall inRun, removeSlashRuns inRun (String c r) = String c (removeSlashRuns false r).
Proof. intros H inRun. cbn [removeSlashRuns]. now rewrite H. Qed.

Lemma includes_nonSlash (c : ascii) (s : string) :
  isSlash c = false -> Str.includes (String c s) "//" = Str.includes s "//".
Proof.
  intros H. cbn [Str.includes Str.startsWith]. rewrite isSlash_eqb in H. now rewrite H.
Qed.

Lemma includes_before_nonSlash (c c' : ascii) (s : string) :
  isSlash c' = false ->
  Str.includes (String c (String c' s)) "//" = Str.includes (String c' s) "//".
Proof.
  intros H. rewrite isSlash_eqb in H.
  change (Str.includes (String c (String c' s)) "//")
    with (((c =? "/")%char && ((c' =? "/")%char && true)) ||
          Str.includes (String c' s) "//").
  rewrite H. now rewrite andb_false_r.
Qed.

Lemma removeSlashRuns_single (s : string) (inRun : bool) :
  Str.includes (removeSlashRuns inRun s) "//" = false.
Proof.
  revert inRun. induction s as [|c r IH]; intros inRun; [reflexivity|].
  cbn [removeSlashRuns]. destruct (isSlash c) eqn:Hc.
  - destruct inRun; [apply IH|].
    destruct r as [|c' r']; [cbn [Str.includes Str.startsWith]; now rewrite andb_false_r|].
    destruct (isSlash c') eqn:Hc'; [apply IH|].
    specialize (IH false). rewrite (removeSlashRuns_head _ _ Hc') in *.
    rewrite includes_before_nonSlash by exact Hc'. exact IH.
  - rewrite includes_nonSlash by exact Hc. apply IH.
Qed.

(** X7. In the general context the result has no double quote, no angle
    bracket and no two slashes in a row. *)
Theorem escapeQueryValue_general (value : string) :
  let r := escapeQueryValue value General in
  Str.forallb (fun c => negb (isQuoteOrAngle c)) r = true /\
  Str.includes r "//" = false.
Proof.
  cbv zeta. unfold escapeQueryValue. destruct value as [|c0 v0]; [split; reflexivity|].
  cbv zeta. set (x := JS.trim (removeSlashRuns false _)).
  assert (H1 : Str.forallb (fun c => negb (isQuoteOrAngle c)) x = true)
    by (apply trim_forallb, forallb_removeSlashRuns, forallb_removeChars_self).
  assert (H2 : Str.includes x "//" = false)
    by (apply includes_trim, removeSlashRuns_single).
  split.
  - apply trim_forallb. destruct (200 <? String.length x)%nat; [now apply forallb_take | exact H1].
  - apply includes_trim. destruct (200 <? String.length x)%nat; [now apply includes_take | exact H2].
Qed.

(** *** Escaped quotes *)

Lemma quotesEscaped_weaken (b : bool) (s : string) :
  quotesEscaped false s = true -> quotesEscaped b s = true.
Proof.
  destruct s as [|c r]; [auto|]. cbn [quotesEscaped]. intros H.
  apply andb_true_iff in H as [H1 H2]. rewrite H2, andb_true_r.
  rewrite orb_false_r in H1. now rewrite H1.
Qed.

Lemma quotesEscaped_tail (b : bool) (c : ascii) (r : string) :
  quotesEscaped b (String c r) = true -> (c =? "\")%char = false ->
  quotesEscaped false r = true.
Proof.
  cbn [quotesEscaped]. intros H Hc. apply andb_true_iff in H as [_ H]. now rewrite Hc in H.
Qed.

Lemma quotesEscaped_escapeQuotes (b : bool) (s : string) :
  quotesEscaped b (escapeQuotes s) = true.
Proof.
  revert b. induction s as [|c r IH]; intros b; [reflexivity|].
  cbn [escapeQuotes]. destruct (isQuote c) eqn:Hc; cbn [quotesEscaped].
  - rewrite Hc, Ascii.eqb_refl. cbn.
    replace ((c =? "\")%char) with false by (revert Hc; each_ascii c; reflexivity || discriminate).
    apply IH.
  - rewrite Hc. cbn. apply IH.
Qed.

Lemma quotesEscaped_filter (p : ascii -> bool) (s : string) (b : bool) :
  (forall c, p c = false -> isQuote c = false /\ (c =? "\")%char = false) ->
  quotesEscaped b s = true -> quotesEscaped b (Str.filter p s) = true.
Proof.
  intros Hp. revert b. induction s as [|c r IH]; intros b H; [reflexivity|].
  cbn [Str.filter]. destruct (p c) eqn:Hc.
  - cbn [quotesEscaped] in *. apply andb_true_iff in H as [H1 H2]. rewrite H1. cbn. auto.
  - destruct (Hp c Hc) as [_ Hb]. apply IH, quotesEscaped_weaken.
    exact (quotesEscaped_tail _ _ _ H Hb).
Qed.

Lemma quotesEscaped_removePair (a b : ascii) (s : string) (f : bool) :
  isQuote a = false -> (a =? "\")%char = false ->
  isQuote b = false -> (b =? "\")%char = false ->
  quotesEscaped f s = true -> quotesEscaped f (removePair a b s) = true.
Proof.
  intros Ha1 Ha2 Hb1 Hb2. revert s f.
  enough (H : forall n s f, (String.length s <= n)%nat ->
                quotesEscaped f s = true -> quotesEscaped f (removePair a b s) = true)
    by (intros s f; apply (H (String.length s)); lia).
  induction n as [|n IH]; intros [|c1 [|c2 r]] f Hlen Hq; auto;
    cbn [String.length] in Hlen; try lia.
  rewrite removePair_cons.
  destruct ((c1 =? a)%char && (c2 =? b)%char) eqn:E.
  - apply andb_true_iff in E as [E1 E2].
    apply Ascii.eqb_eq in E1, E2. subst c1 c2.
    apply IH; [lia|]. apply quotesEscaped_weaken.
    apply (quotesEscaped_tail false b r); [|exact Hb2].
    exact (quotesEscaped_tail _ _ _ Hq Ha2).
  - cbn [quotesEscaped] in Hq |- *. apply andb_true_iff in Hq as [H1 H2].
    rewrite H1. cbn [andb]. apply IH; [cbn; lia | exact H2].
Qed.

Lemma quotesEscaped_take (n : nat) (s : string) (b : bool) :
  quotesEscaped b s = true -> quotesEscaped b (Str.take n s) = true.
Proof.
  revert s b. induction n as [|n IH]; intros [|c r] b H; try reflexivity.
  cbn [Str.take quotesEscaped] in *. apply andb_true_iff in H as [H1 H2].
  rewrite H1. cbn. auto.
Qed.

Lemma quotesEscaped_trimStart (s : string) (b : bool) :
  quotesEscaped b s = true -> quotesEscaped b (JS.trimStart s) = true.
Proof.
  revert b. induction s as [|c r IH]; intros b H; [reflexivity|].
  cbn [JS.trimStart]. destruct (JS.isWhiteSpace c) eqn:Hc; [|exact H].
  apply IH, quotesEscaped_weaken, (quotesEscaped_tail _ _ _ H).
  revert Hc. each_ascii c; reflexivity || discriminate.
Qed.

Lemma quotesEscaped_trim (s : string) (b : bool) :
  quotesEscaped b s = true -> quotesEscaped b (JS.trim s) = true.
Proof.
  intros H. unfold JS.trim. destruct (trimEnd_take (JS.trimStart s)) as [k ->].
  now apply quotesEscaped_take, quotesEscaped_trimStart.
Qed.

(** X8. In the Springer context the result has no parenthesis and no
    semicolon, and a backslash stands before each of its double quotes. *)
Theorem escapeQueryValue_springer (value : string) :
  let r := escapeQueryValue value Springer in
  Str.forallb (fun c => negb (isParen c)) r = true /\
  Str.forallb (fun c => negb (isSemicolon c)) r = true /\
  quotesEscaped false r = true.
Proof.
  cbv zeta. unfold escapeQueryValue. destruct value as [|c0 v0]; [repeat split|].
  cbv zeta. set (e := escapeQuotes _).
  set (x := removePair _ _ _).
  assert (H1 : Str.forallb (fun c => negb (isParen c)) x = true)
    by (apply forallb_removePair, forallb_removePair, forallb_removeChars,
          forallb_removeChars_self).
  assert (H2 : Str.forallb (fun c => negb (isSemicolon c)) x = true)
    by (apply forallb_removePair, forallb_removePair, forallb_removeChars_self).
  assert (H3 : quotesEscaped false x = true).
  { subst x. do 2 (apply quotesEscaped_removePair; try reflexivity).
    unfold removeChars.
    do 2 (apply quotesEscaped_filter;
          [intros c Hc; apply negb_false_iff in Hc; revert Hc;
           each_ascii c; (split; reflexivity) || discriminate|]).
    apply quotesEscaped_escapeQuotes. }
  repeat split.
  - apply trim_forallb. destruct (200 <? String.length x)%nat; [now apply forallb_take | exact H1].
  - apply trim_forallb. destruct (200 <? String.length x)%nat; [now apply forallb_take | exact H2].
  - apply quotesEscaped_trim.
    destruct (200 <? String.length x)%nat; [now apply quotesEscaped_take | exact H3].
Qed.

(** X9. In the Web of Science context a value without a field tag loses
    its double quotes and parentheses. *)
Theorem escapeQueryValue_wos (value : string) :
  let cleaned := removeChars isControl value in
  Str.includes cleaned "TS=" = false -> Str.includes cleaned "TI=" = false ->
  Str.includes cleaned "AU=" = false -> Str.includes cleaned "SO=" = false ->
  let r := escapeQueryValue value Wos in
  Str.forallb (fun c => negb (isQuote c)) r = true /\
  Str.forallb (fun c => negb (isParen c)) r = true.
Proof.
  cbv zeta. intros H1 H2 H3 H4. unfold escapeQueryValue.
  destruct value as [|c0 v0]; [split; reflexivity|]. cbv zeta.
  rewrite H1, H2, H3, H4. cbn [negb andb].
  set (x := JS.trim (removeChars isParen _)).
  assert (Hq : Str.forallb (fun c => negb (isQuote c)) x = true)
    by (apply trim_forallb, forallb_removeChars, forallb_removeChars_self).
  assert (Hp : Str.forallb (fun c => negb (isParen c)) x = true)
    by (apply trim_forallb, forallb_removeChars_self).
  split; apply trim_forallb;
    (destruct (200 <? String.length x)%nat; [now apply forallb_take | assumption]).
Qed.

Lemma escapeQueryValue_wos_witness :
  let r := escapeQueryValue "machine (learning)" Wos in
  Str.forallb (fun c => negb (isQuote c)) r = true /\
  Str.forallb (fun c => negb (isParen c)) r = true.
Proof. apply (escapeQueryValue_wos "machine (learning)"); reflexivity. Defined.

End EscapeFacts.

Module SanitizeFacts.

Import Regex SecurityUtils StringFacts StrFacts RegexFacts.

(** *** Patterns read without regard to case *)

Lemma caseBlind_deriv (c : ascii) (r : regex) : caseBlind r -> caseBlind (deriv c r).
Proof.
  induction r as [| |p|r1 IH1 r2 IH2|r1 IH1 r2 IH2|r1 IH1]; cbn [deriv caseBlind];
    try tauto.
  - intros _. destruct (p c); exact I.
  - intros [H1 H2]. destruct (nullable r1); cbn [caseBlind]; tauto.
Qed.

Lemma deriv_lowerChar (c : ascii) (r : regex) :
  caseBlind r -> deriv (JS.lowerChar c) r = deriv c r.
Proof.
  induction r as [| |p|r1 IH1 r2 IH2|r1 IH1 r2 IH2|r1 IH1]; cbn [deriv caseBlind];
    try reflexivity.
  - intros H. now rewrite H.
  - intros [H1 H2]. now rewrite IH1, IH2.
  - intros [H1 H2]. now rewrite IH1, IH2.
  - intros H. now rewrite IH1.
Qed.

Lemma matches_toLowerCase (r : regex) (s : string) :
  caseBlind r -> matches r (JS.toLowerCase s) = matches r s.
Proof.
  revert r. induction s as [|c s IH]; intros r Hr; [reflexivity|].
  cbn [JS.toLowerCase matches]. rewrite deriv_lowerChar by exact Hr.
  apply IH, caseBlind_deriv, Hr.
Qed.

Lemma caseBlind_litCI (s : string) : caseBlind (litCI s).
Proof.
  induction s as [|c s IH]; cbn [litCI caseBlind]; [exact I|].
  split; [|exact IH]. intros x. now rewrite lowerChar_idem.
Qed.

Lemma caseBlind_sep : caseBlind sep.
Proof. intros c. each_ascii c; reflexivity. Qed.

Lemma caseBlind_sensitiveHeaderPatterns : Forall caseBlind sensitiveHeaderPatterns.
Proof.
  unfold sensitiveHeaderPatterns, opt.
  repeat first [ apply caseBlind_litCI | apply caseBlind_sep | exact I
               | apply List.Forall_cons | apply List.Forall_nil
               | (cbn [caseBlind]; split) ].
Qed.

Lemma isSensitiveHeader_toLowerCase (key : string) :
  isSensitiveHeader (JS.toLowerCase key) = isSensitiveHeader key.
Proof.
  unfold isSensitiveHeader.
  induction caseBlind_sensitiveHeaderPatterns as [|r l Hr Hl IH]; [reflexivity|].
  cbn [existsb]. now rewrite matches_toLowerCase, IH.
Qed.



(** *** Strings that look like a token *)

Lemma classesWithin_atLeast (q : ascii -> bool) (n : nat) (r : regex) :
  classesWithin q r -> classesWithin q (atLeast n r).
Proof. intros H. induction n as [|n IH]; cbn [atLeast classesWithin]; auto. Qed.

Lemma tokenPattern_chars (n : nat) (s : string) :
  matches (tokenPattern n) s = true -> Str.forallb isTokenChar s = true.
Proof.
  intros H. apply matches_Lang in H. revert H. apply Lang_classesWithin.
  apply classesWithin_atLeast. intros c Hc. exact Hc.
Qed.

Lemma masked_not_token (n : nat) (s : string) :
  matches (tokenPattern n) (s +:+ "***") = false.
Proof.
  destruct (matches (tokenPattern n) (s +:+ "***")) eqn:E; [|reflexivity].
  apply tokenPattern_chars in E. rewrite forallb_append in E.
  apply andb_true_iff in E as [_ E]. discriminate.
Qed.

(** *** Parameters *)

Lemma sanitizeParam_cases (key : string) (value : JSON.value) :
  (sanitizeParam (key, value)).1 = key /\
  (isSensitiveParam key = true ->
   (sanitizeParam (key, value)).2 = JSON.JString REDACTED) /\
  (forall s, (sanitizeParam (key, value)).2 = JSON.JString s ->
             matches (tokenPattern 16) s = false).
Proof.
  unfold sanitizeParam. cbn [fst snd]. split; [reflexivity|]. split.
  - intros ->. reflexivity.
  - destruct (isSensitiveParam key).
    + intros s [= <-]. reflexivity.
    + destruct value as [| | | |t| |]; try discriminate.
      destruct (matches (tokenPattern 16) t) eqn:E; intros s [= <-];
        [apply masked_not_token | exact E].
Qed.

Lemma sanitizeParam_idem (kv : string * JSON.value) :
  sanitizeParam (sanitizeParam kv) = sanitizeParam kv.
Proof.
  destruct kv as [key value].
  destruct (sanitizeParam_cases key value) as (Hk & Hs & Ht).
  destruct (sanitizeParam (key, value)) as [k v] eqn:E. cbn [fst snd] in *. subst k.
  unfold sanitizeParam at 1. cbn [fst snd].
  destruct (isSensitiveParam key) eqn:Hkey.
  - rewrite (Hs eq_refl). reflexivity.
  - destruct v as [| | | |t| |]; try reflexivity. now rewrite (Ht t eq_refl).
Qed.

(** X11. What [sanitizeParams] returns. *)
Theorem sanitizeParams_contract (params out : list (string * JSON.value)) :
  sanitizeParams (Some params) = Some out ->
  List.map fst out = List.map fst params /\
  (forall key value, In (key, value) out -> isSensitiveParam key = true ->
     value = JSON.JString REDACTED) /\
  (forall key s, In (key, JSON.JString s) out -> matches (tokenPattern 16) s = false) /\
  sanitizeParams (Some out) = Some out.
Proof.
  intros [= <-]. repeat split.
  - rewrite List.map_map. apply List.map_ext. intros [k v]. reflexivity.
  - intros key value Hin Hkey. apply List.in_map_iff in Hin as ([k v] & E & _).
    destruct (sanitizeParam_cases k v) as (Hk & Hs & _). rewrite E in *.
    cbn [fst snd] in *. subst k. auto.
  - intros key s Hin. apply List.in_map_iff in Hin as ([k v] & E & _).
    destruct (sanitizeParam_cases k v) as (_ & _ & Ht). rewrite E in *.
    cbn [fst snd] in *. auto.
  - cbn. f_equal. rewrite List.map_map. apply List.map_ext, sanitizeParam_idem.
Qed.

Lemma sanitizeParams_contract_witness :
  let out := [("api_key"%string, JSON.JString REDACTED);
              ("query"%string, JSON.JString "machine learning");
              ("cursor"%string, JSON.JString "AoJw***");
              ("rows"%string, JSON.JNumber 10)] in
  List.map fst out = ["api_key"; "query"; "cursor"; "rows"]%string /\
  sanitizeParams (Some out) = Some out.
Proof.
  cbv zeta.
  pose proof (sanitizeParams_contract
                [("api_key"%string, JSON.JString "secret123");
                 ("query"%string, JSON.JString "machine learning");
                 ("cursor"%string, JSON.JString "AoJwz8Xq1LrT-5mNb_e2");
                 ("rows"%string, JSON.JNumber 10)] _ eq_refl) as (H1 & _ & _ & H4).
  split; [exact H1 | exact H4].
Defined.

(** *** Headers *)

Lemma isCredential_REDACTED : isCredential REDACTED = false.
Proof. reflexivity. Qed.

Lemma sanitizeHeader_cases (key : string) (value : JSON.value) :
  (sanitizeHeader (key, value)).1 = key /\
  (isSensitiveHeader key = true ->
   (sanitizeHeader (key, value)).2 = JSON.JString REDACTED) /\
  (forall s, (sanitizeHeader (key, value)).2 = JSON.JString s -> isCredential s = false).
Proof.
  unfold sanitizeHeader. cbn [fst snd]. split; [reflexivity|]. split.
  - intros ->. rewrite isCredential_REDACTED. reflexivity.
  - destruct (isSensitiveHeader key).
    + rewrite isCredential_REDACTED. intros s [= <-]. reflexivity.
    + destruct value as [| | | |t| |]; try discriminate.
      destruct (isCredential t) eqn:E; intros s [= <-]; [reflexivity | exact E].
Qed.

Lemma sanitizeHeader_idem (kv : string * JSON.value) :
  sanitizeHeader (sanitizeHeader kv) = sanitizeHeader kv.
Proof.
  destruct kv as [key value].
  destruct (sanitizeHeader_cases key value) as (Hk & Hs & Ht).
  destruct (sanitizeHeader (key, value)) as [k v] eqn:E. cbn [fst snd] in *. subst k.
  unfold sanitizeHeader at 1. cbn [fst snd].
  destruct (isSensitiveHeader key) eqn:Hkey.
  - rewrite (Hs eq_refl). reflexivity.
  - destruct v as [| | | |t| |]; try reflexivity. now rewrite (Ht t eq_refl).
Qed.

(** X12. What [sanitizeHeaders] returns. *)
Theorem sanitizeHeaders_contract (headers out : list (string * JSON.value)) :
  sanitizeHeaders (Some headers) = Some out ->
  List.map fst out = List.map fst headers /\
  (forall key value, In (key, value) out -> isSensitiveHeader key = true ->
     value = JSON.JString REDACTED) /\
  (forall key s, In (key, JSON.JString s) out -> isCredential s = false) /\
  sanitizeHeaders (Some out) = Some out.
Proof.
  intros [= <-]. repeat split.
  - rewrite List.map_map. apply List.map_ext. intros [k v]. reflexivity.
  - intros key value Hin Hkey. apply List.in_map_iff in Hin as ([k v] & E & _).
    destruct (sanitizeHeader_cases k v) as (Hk & Hs & _). rewrite E in *.
    cbn [fst snd] in *. subst k. auto.
  - intros key s Hin. apply List.in_map_iff in Hin as ([k v] & E & _).
    destruct (sanitizeHeader_cases k v) as (_ & _ & Ht). rewrite E in *.
    cbn [fst snd] in *. auto.
  - cbn. f_equal. rewrite List.map_map. apply List.map_ext, sanitizeHeader_idem.
Qed.

Lemma sanitizeHeaders_contract_witness :
  let out := [("X-ApiKey"%string, JSON.JString REDACTED);
              ("Content-Type"%string, JSON.JString "application/json");
              ("X-Trace"%string, JSON.JString REDACTED)] in
  List.map fst out = ["X-ApiKey"; "Content-Type"; "X-Trace"]%string /\
  sanitizeHeaders (Some out) = Some out.
Proof.
  cbv zeta.
  pose proof (sanitizeHeaders_contract
                [("X-ApiKey"%string, JSON.JString "secret-key-12345");
                 ("Content-Type"%string, JSON.JString "application/json");
                 ("X-Trace"%string, JSON.JString "Bearer token123")] _ eq_refl)
    as (H1 & _ & _ & H4).
  split; [exact H1 | exact H4].
Defined.

(** *** The request body *)

(** X13. At every depth of the sanitized body, a property with a sensitive
    key holds the marker. *)
Theorem sanitizeBody_redacts (body : JSON.value) (key : string) (value : JSON.value) :
  Holds (sanitizeBody body) key value -> isSensitiveBodyKey key = true ->
  value = JSON.JString REDACTED.
Proof.
  intros H Hkey. remember (sanitizeBody body) as b eqn:Hb. revert body Hb.
  induction H as [props k v Hin|props k' v' k v Hin H IH|items item k v Hin H IH];
    intros body Hb.
  - destruct body as [| | | |s|items|bprops]; cbn [sanitizeBody] in Hb; try discriminate.
    + repeat match type of Hb with context [if ?c then _ else _] => destruct c end;
        discriminate.
    + injection Hb as ->. apply List.in_flat_map in Hin as ([k0 v0] & _ & Hin).
      destruct (String.eqb k0 "__proto__"); [destruct Hin|].
      destruct (isSensitiveBodyKey k0) eqn:E; destruct Hin as [[= <- <-] | []];
        [reflexivity | congruence].
  - destruct body as [| | | |s|items|bprops]; cbn [sanitizeBody] in Hb; try discriminate.
    + repeat match type of Hb with context [if ?c then _ else _] => destruct c end;
        discriminate.
    + injection Hb as ->. apply List.in_flat_map in Hin as ([k0 v0] & _ & Hin).
      destruct (String.eqb k0 "__proto__"); [destruct Hin|].
      destruct (isSensitiveBodyKey k0) eqn:E; destruct Hin as [[= <- <-] | []].
      * inversion H.
      * exact (IH Hkey v0 eq_refl).
  - destruct body as [| | | |s|bitems|bprops]; cbn [sanitizeBody] in Hb; try discriminate.
    + repeat match type of Hb with context [if ?c then _ else _] => destruct c end;
        discriminate.
    + injection Hb as ->. apply List.in_map_iff in Hin as (x & <- & _).
      exact (IH Hkey x eq_refl).
Qed.

Lemma sanitizeBody_redacts_witness :
  let body :=
    JSON.JObject
      [("user"%string,
        JSON.JArray [JSON.JObject [("Password"%string, JSON.JString "hunter2")]])] in
  Holds (sanitizeBody body) "Password" (JSON.JString REDACTED) /\
  JSON.JString REDACTED = JSON.JString REDACTED.
Proof.
  cbv zeta.
  match goal with |- ?A /\ _ => assert (H : A) end.
  { eapply HoldsInProperty; [left; reflexivity|].
    eapply HoldsInItem; [left; reflexivity|]. apply HoldsHere. left. reflexivity. }
  split; [exact H|]. exact (sanitizeBody_redacts _ _ _ H eq_refl).
Defined.

(** *** Credentials in the body *)

Lemma Lang_litCI (p s : string) :
  JS.toLowerCase s = JS.toLowerCase p -> Lang (litCI p) s.
Proof.
  revert s. induction p as [|c p IH]; intros [|x s]; cbn [JS.toLowerCase litCI];
    try discriminate.
  - intros _. constructor.
  - intros [= Hc Hs]. rewrite <- (append_nil_l s), <- append_cons.
    constructor; [|now apply IH]. constructor. rewrite Hc. apply Ascii.eqb_refl.
Qed.

Lemma Lang_Star_Class (p : ascii -> bool) (s : string) :
  Str.forallb p s = true -> Lang (Star (Class p)) s.
Proof.
  induction s as [|c s IH]; cbn [Str.forallb]; intros H; [constructor|].
  apply andb_true_iff in H as [Hc H].
  rewrite <- (append_nil_l s), <- append_cons. constructor; [now constructor | auto].
Qed.

Lemma allWhiteSpace_forallb (s : string) :
  JS.allWhiteSpace s = Str.forallb JS.isWhiteSpace s.
Proof. induction s as [|c s IH]; cbn; [reflexivity | now rewrite IH]. Qed.

Lemma dropWhile_app (p : ascii -> bool) (a b : string) :
  Str.forallb p a = true -> dropWhile p (a +:+ b) = dropWhile p b.
Proof.
  induction a as [|c a IH]; [reflexivity|]. rewrite append_cons. cbn.
  intros H. apply andb_true_iff in H as [-> H]. auto.
Qed.

Lemma redactFirstWord_app (a b : string) :
  Str.forallb isNonSpace a = true ->
  redactFirstWord (a +:+ b) = a +:+ redactFirstWord b.
Proof.
  induction a as [|c a IH]; [reflexivity|]. rewrite !append_cons.
  cbn [Str.forallb redactFirstWord]. intros H. apply andb_true_iff in H as [Hc H].
  unfold isNonSpace in Hc. apply negb_true_iff in Hc. rewrite Hc. now rewrite IH.
Qed.

(** X14. In a string of the body that starts with Bearer or Basic, the word
    after the scheme is replaced by the marker. *)
Theorem sanitizeBody_credential (scheme ws word rest : string) :
  JS.toLowerCase scheme = "bearer"%string \/ JS.toLowerCase scheme = "basic"%string ->
  ws <> EmptyString -> JS.allWhiteSpace ws = true ->
  word <> EmptyString -> Str.forallb isNonSpace word = true ->
  dropWhile isNonSpace rest = rest ->
  sanitizeBody (JSON.JString (scheme +:+ ws +:+ word +:+ rest)) =
  JSON.JString (scheme +:+ " " +:+ REDACTED +:+ rest).
Proof.
  intros Hscheme Hws Hwhite Hword Hnon Hrest.
  rewrite allWhiteSpace_forallb in Hwhite.
  assert (Hs : Str.forallb isNonSpace scheme = true).
  { rewrite <- DoiFacts.forallb_isNonSpace_toLowerCase.
    destruct Hscheme as [-> | ->]; reflexivity. }
  assert (Hm : matchesPrefix authScheme (scheme +:+ ws +:+ word +:+ rest) = true).
  { apply matches_Lang. rewrite <- (append_assoc scheme ws). constructor.
    - constructor.
      + destruct Hscheme as [H | H]; [apply LangAltL | apply LangAltR];
          apply Lang_litCI; rewrite H; reflexivity.
      + destruct ws as [|c ws]; [congruence|]. cbn [Str.forallb] in Hwhite.
        apply andb_true_iff in Hwhite as [Hc Hwhite].
        rewrite <- (append_nil_l ws), <- append_cons.
        constructor; [now constructor | now apply Lang_Star_Class].
    - apply Lang_Star_Class. clear. induction (word +:+ rest); cbn; auto. }
  cbn [sanitizeBody]. rewrite Hm. f_equal.
  rewrite redactFirstWord_app by exact Hs. f_equal.
  destruct ws as [|c ws]; [congruence|]. cbn [Str.forallb] in Hwhite.
  apply andb_true_iff in Hwhite as [Hc Hwhite].
  rewrite append_cons. cbn [redactFirstWord]. rewrite Hc.
  rewrite dropWhile_app by exact Hwhite.
  destruct word as [|w word]; [congruence|]. cbn [Str.forallb] in Hnon.
  apply andb_true_iff in Hnon as [Hw Hnon].
  rewrite append_cons. cbn [dropWhile].
  assert (Hw' : JS.isWhiteSpace w = false) by (now apply negb_true_iff in Hw).
  rewrite Hw', Hw. rewrite dropWhile_app by exact Hnon. rewrite Hrest.
  reflexivity.
Qed.

Lemma sanitizeBody_credential_witness :
  sanitizeBody (JSON.JString ("BEARER" +:+ "  " +:+ "eyJhbGciOiJIUzI1NiJ9" +:+ " end")) =
  JSON.JString ("BEARER" +:+ " " +:+ REDACTED +:+ " end").
Proof.
  apply sanitizeBody_credential; solve [reflexivity | discriminate | now left].
Defined.

End SanitizeFacts.

Module ErrorMessageFacts.

Import ErrorHandler ErrorMessages StringFacts StrFacts.

(** X15. An error that is not an [ApiError] keeps its retry class when a
    handler wraps it. *)
Theorem handleError_keeps_retry_class (thisPlatform : string) (e : CaughtError)
    (operation : string) :
  instanceofApiError (core e) = false ->
  isRetryable (asError (handleError thisPlatform e operation)) = isRetryable (core e) /\
  ErrorMessages.retryable (handleError thisPlatform e operation) = isRetryable (core e).
Proof.
  intros Hi. unfold handleError, handleHttpError, isRetryable, responseStatus.
  rewrite Hi. destruct (err_response (core e)) as [r|]; cbn.
  - unfold ErrorHandler.retryable, ApiError_isRetryable. cbn.
    destruct (resp_status r); auto.
  - auto.
Qed.

Lemma handleError_keeps_retry_class_witness :
  let e := {| core := httpError 404 None; responseData := JSON.JNull;
              responseStatusText := JSON.JString "Not Found"; errorMessage := None |} in
  isRetryable (asError (handleError "arXiv" e "search")) = isRetryable (core e) /\
  ErrorMessages.retryable (handleError "arXiv" e "search") = isRetryable (core e).
Proof. apply handleError_keeps_retry_class. reflexivity. Defined.

(** X16. An error that a handler has thrown and that is handled again has
    no status any more and counts as retryable, whatever it was. *)
Theorem handleError_again (thisPlatform : string) (e : CaughtError)
    (operation operation' : string) :
  let first := handleError thisPlatform e operation in
  let second := handleError thisPlatform (caught first) operation' in
  status second = None /\ ErrorMessages.retryable second = true /\
  isRetryable (asError second) = true /\
  message second =
    thisPlatform +:+ " " +:+ operation' +:+ " failed: " +:+
    match message first with
    | EmptyString => "Unknown error occurred"
    | m => m
    end.
Proof. cbv zeta. repeat split. Qed.

(** X17. For the statuses 401, 403, 404, 429 and from 500 on, the message for
    the user depends on the platform and the status only. *)
Theorem createUserMessage_fixed (thisPlatform : string) (s : Z)
    (message1 message2 operation1 operation2 : string) :
  s = 401 \/ s = 403 \/ s = 404 \/ s = 429 \/ 500 <= s ->
  createUserMessage thisPlatform (Some s) message1 operation1 =
  createUserMessage thisPlatform (Some s) message2 operation2.
Proof.
  intros H. unfold createUserMessage, statusIs.
  destruct (Z.eqb_spec s 401); [reflexivity|].
  destruct (Z.eqb_spec s 403); [reflexivity|].
  destruct (Z.eqb_spec s 404); [reflexivity|].
  destruct (Z.eqb_spec s 429); [reflexivity|].
  assert (Hs : 500 <= s) by lia.
  assert (Ht : JS.truthy (Some s) = true)
    by (cbn; apply negb_true_iff, Z.eqb_neq; lia).
  rewrite Ht. change (default 0 (Some s)) with s. cbn [andb].
  destruct (Z.leb_spec 500 s); [reflexivity | lia].
Qed.

Lemma createUserMessage_fixed_witness :
  createUserMessage "arXiv" (Some 503) "upstream token=abc" "search" =
  createUserMessage "arXiv" (Some 503) EmptyString "download".
Proof. apply createUserMessage_fixed. lia. Defined.

(** X18. The message of the error that a handler throws starts with the name
    of the platform. *)
Theorem handleError_names_platform (thisPlatform : string) (e : CaughtError)
    (operation : string) :
  Str.startsWith (message (handleError thisPlatform e operation)) thisPlatform = true /\
  platform (handleError thisPlatform e operation) = thisPlatform.
Proof.
  split.
  - unfold handleError, handleHttpError, newApiError, createUserMessage.
    destruct (err_response (core e)); cbn [message];
      repeat match goal with |- context [if ?b then _ else _] => destruct b end;
      rewrite ?append_assoc; apply startsWith_app.
  - unfold handleError, handleHttpError. destruct (err_response (core e)); reflexivity.
Qed.

(** X19. The message that is read from an error is never empty, and the
    message of the response body comes before the other places. *)
Theorem extractErrorMessage_found (e : CaughtError) :
  extractErrorMessage e <> EmptyString /\
  (forall c r, getProperty (dataOf e) "message" = JSON.JString (String c r) ->
     extractErrorMessage e = String c r) /\
  (Forall (fun candidate => isMessage candidate = false) (candidates e) ->
     extractErrorMessage e = "Unknown error"%string).
Proof.
  unfold extractErrorMessage. repeat split.
  - destruct (List.find isMessage (candidates e)) as [v|] eqn:E; [|discriminate].
    apply List.find_some in E as [_ E].
    destruct v as [| | | |[|c r]| |]; try discriminate.
  - intros c r H. unfold candidates. rewrite H. reflexivity.
  - intros H. destruct (List.find isMessage (candidates e)) as [v|] eqn:E; [|reflexivity].
    apply List.find_some in E as [Hin E].
    rewrite List.Forall_forall in H. rewrite (H v Hin) in E. discriminate.
Qed.

Lemma extractErrorMessage_found_witness :
  let e := {| core := httpError 400 None;
              responseData :=
                JSON.JObject [("message"%string, JSON.JString "Invalid cursor")];
              responseStatusText := JSON.JString "Bad Request";
              errorMessage := Some "Request failed with status code 400"%string |} in
  extractErrorMessage e = "Invalid cursor"%string.
Proof.
  cbv zeta.
  match goal with
  | |- extractErrorMessage ?e = _ =>
      exact (proj1 (proj2 (extractErrorMessage_found e)) "I"%char "nvalid cursor"%string eq_refl)
  end.
Defined.

End ErrorMessageFacts.

Module CalendarFacts.

Import Date Calendar StringFacts StrFacts.

Lemma cycle_facts (doe : Z) :
  0 <= doe < 146097 ->
  let '(yoe, month, day) := cycle doe in
  uncycle yoe month day = doe /\ 0 <= yoe < 400 /\ 1 <= month <= 12 /\ 1 <= day <= 31.
Proof.
  intros H. unfold cycle, uncycle. cbv zeta.
  set (yoe := (doe - doe / 1460 + doe / 36524 - doe / 146096) / 365).
  set (doy := doe - (365 * yoe + yoe / 4 - yoe / 100)).
  set (mp := (5 * doy + 2) / 153).
  assert (Hyoe : 0 <= yoe < 400) by (subst yoe; Z.to_euclidean_division_equations; lia).
  assert (Hdoy : 0 <= doy <= 365)
    by (subst doy yoe; Z.to_euclidean_division_equations; lia).
  assert (Hmp : 0 <= mp <= 11) by (subst mp; Z.to_euclidean_division_equations; lia).
  destruct (Z.ltb_spec mp 10).
  - destruct (Z.ltb_spec 2 (mp + 3)); [|lia].
    replace (mp + 3 - 3) with mp by lia.
    subst mp. Z.to_euclidean_division_equations; lia.
  - destruct (Z.ltb_spec 2 (mp - 9)); [lia|].
    replace (mp - 9 + 9) with mp by lia.
    subst mp. Z.to_euclidean_division_equations; lia.
Qed.

Lemma civil_cycle (d : Z) :
  civil d =
  let z := d + 719468 in
  let '(yoe, month, day) := cycle (z mod 146097) in
  (yoe + z / 146097 * 400 + (if month <=? 2 then 1 else 0), month, day).
Proof.
  unfold civil, cycle. cbv zeta.
  replace (d + 719468 - (d + 719468) / 146097 * 146097) with ((d + 719468) mod 146097)
    by (rewrite Z.mod_eq by lia; lia).
  reflexivity.
Qed.

Lemma civil_inj (d1 d2 : Z) : civil d1 = civil d2 -> d1 = d2.
Proof.
  rewrite !civil_cycle. cbv zeta.
  pose proof (Z.mod_pos_bound (d1 + 719468) 146097 eq_refl) as B1.
  pose proof (Z.mod_pos_bound (d2 + 719468) 146097 eq_refl) as B2.
  pose proof (cycle_facts _ B1) as F1. pose proof (cycle_facts _ B2) as F2.
  destruct (cycle ((d1 + 719468) mod 146097)) as [[yoe1 m1] dd1].
  destruct (cycle ((d2 + 719468) mod 146097)) as [[yoe2 m2] dd2].
  destruct F1 as (U1 & Y1 & _). destruct F2 as (U2 & Y2 & _).
  intros [= Hy Hm Hd]. subst m2 dd2.
  assert (He : (d1 + 719468) / 146097 = (d2 + 719468) / 146097) by lia.
  assert (Hyoe : yoe1 = yoe2) by lia. subst yoe2.
  pose proof (Z.div_mod (d1 + 719468) 146097 ltac:(lia)).
  pose proof (Z.div_mod (d2 + 719468) 146097 ltac:(lia)). lia.
Qed.

Lemma civil_bounds (d : Z) :
  - 100000000 <= d <= 100000000 ->
  let '(y, m, dd) := civil d in
  - 999999 <= y <= 999999 /\ 1 <= m <= 12 /\ 1 <= dd <= 31.
Proof.
  intros H. rewrite civil_cycle. cbv zeta.
  pose proof (Z.mod_pos_bound (d + 719468) 146097 eq_refl) as B.
  pose proof (cycle_facts _ B) as F.
  destruct (cycle ((d + 719468) mod 146097)) as [[yoe m] dd].
  destruct F as (_ & Y & M & D).
  assert (- 1000 <= (d + 719468) / 146097 <= 1000).
  { split; [apply Z.div_le_lower_bound | apply Z.div_le_upper_bound]; lia. }
  destruct (m <=? 2); lia.
Qed.

(** *** Printing numbers *)

Lemma code_chr (z : Z) : 0 <= z < 256 -> JS.code (JS.chr z) = z.
Proof.
  intros H. unfold JS.code, JS.chr. rewrite N_ascii_embedding; lia.
Qed.

Lemma digitChar_inj (n n' : Z) : digitChar n = digitChar n' -> n mod 10 = n' mod 10.
Proof.
  unfold digitChar. intros H. apply (f_equal JS.code) in H.
  pose proof (Z.mod_pos_bound n 10 eq_refl). pose proof (Z.mod_pos_bound n' 10 eq_refl).
  rewrite !code_chr in H by lia. lia.
Qed.

Lemma digitChar_digit (n : Z) : JS.isDigit (digitChar n) = true.
Proof.
  unfold digitChar, JS.isDigit. pose proof (Z.mod_pos_bound n 10 eq_refl).
  cbv zeta. rewrite code_chr by lia. lia.
Qed.

Lemma length_pad (w : nat) (n : Z) : String.length (pad w n) = w.
Proof.
  revert n. induction w as [|w IH]; intros n; [reflexivity|].
  cbn [pad]. rewrite length_app, IH. cbn. lia.
Qed.

Lemma forallb_pad (w : nat) (n : Z) : Str.forallb JS.isDigit (pad w n) = true.
Proof.
  revert n. induction w as [|w IH]; intros n; [reflexivity|].
  cbn [pad]. rewrite forallb_append, IH. cbn. now rewrite digitChar_digit.
Qed.

Lemma append_inj_length (a a' b b' : string) :
  String.length a = String.length a' -> a +:+ b = a' +:+ b' -> a = a' /\ b = b'.
Proof.
  revert a'. induction a as [|c a IH]; intros [|c' a'] Hl; try discriminate.
  - auto.
  - rewrite !append_cons. intros [= -> H]. injection Hl as Hl.
    destruct (IH a' Hl H) as [-> ->]. auto.
Qed.

Lemma string_cons_inj (c : ascii) (a b : string) : String c a = String c b -> a = b.
Proof. now intros [= H]. Qed.

Lemma pad_inj (w : nat) (n n' : Z) :
  0 <= n < 10 ^ Z.of_nat w -> 0 <= n' < 10 ^ Z.of_nat w ->
  pad w n = pad w n' -> n = n'.
Proof.
  revert n n'. induction w as [|w IH]; intros n n' Hn Hn' H.
  - cbn in Hn, Hn'. lia.
  - cbn [pad] in H. apply append_inj_length in H as [H1 H2];
      [|now rewrite !length_pad].
    injection H2 as H2. apply digitChar_inj in H2.
    rewrite Nat2Z.inj_succ, Z.pow_succ_r in Hn, Hn' by lia.
    assert (n / 10 = n' / 10).
    { apply IH; [| |exact H1];
        (split; [apply Z.div_pos; lia | apply Z.div_lt_upper_bound; lia]). }
    pose proof (Z.div_mod n 10 ltac:(lia)). pose proof (Z.div_mod n' 10 ltac:(lia)). lia.
Qed.

Lemma length_isoYear (y : Z) :
  String.length (isoYear y) = if (0 <=? y) && (y <=? 9999) then 4%nat else 7%nat.
Proof.
  unfold isoYear. destruct ((0 <=? y) && (y <=? 9999)); [apply length_pad|].
  destruct (y <? 0); rewrite append_cons, append_nil_l; cbn [String.length];
    now rewrite length_pad.
Qed.

Lemma isoYear_inj (y y' : Z) :
  - 999999 <= y <= 999999 -> - 999999 <= y' <= 999999 ->
  isoYear y = isoYear y' -> y = y'.
Proof.
  intros Hy Hy' H. pose proof (f_equal String.length H) as Hl.
  rewrite !length_isoYear in Hl. unfold isoYear in H.
  destruct ((0 <=? y) && (y <=? 9999)) eqn:E; destruct ((0 <=? y') && (y' <=? 9999)) eqn:E';
    try discriminate.
  - apply (pad_inj 4); [lia | lia | exact H].
  - destruct (Z.ltb_spec y 0); destruct (Z.ltb_spec y' 0);
      rewrite !append_cons, !append_nil_l in H; try discriminate;
      apply string_cons_inj in H; apply (pad_inj 6) in H; lia.
Qed.

Lemma isoDate_inj (y m d y' m' d' : Z) :
  - 999999 <= y <= 999999 -> - 999999 <= y' <= 999999 ->
  0 <= m < 100 -> 0 <= m' < 100 -> 0 <= d < 100 -> 0 <= d' < 100 ->
  isoDate (y, m, d) = isoDate (y', m', d') -> (y, m, d) = (y', m', d').
Proof.
  intros Hy Hy' Hm Hm' Hd Hd' H. unfold isoDate in H.
  assert (Hlen : String.length (isoYear y) = String.length (isoYear y')).
  { apply (f_equal String.length) in H.
    rewrite !length_app, !length_pad in H. lia. }
  apply append_inj_length in H as [H1 H]; [|exact Hlen].
  apply isoYear_inj in H1; [|assumption..]. subst y'.
  rewrite !append_cons, !append_nil_l in H. apply string_cons_inj in H.
  apply append_inj_length in H as [H2 H]; [|now rewrite !length_pad].
  apply (pad_inj 2) in H2; [|lia..]. subst m'.
  apply string_cons_inj in H.
  apply (pad_inj 2) in H; [|lia..]. subst d'. reflexivity.
Qed.

(** *** The day key *)

Lemma splitHead_app (sep : ascii) (a b : string) :
  Str.forallb (fun c => negb (Ascii.eqb c sep)) a = true ->
  splitHead sep (a +:+ String sep b) = a.
Proof.
  induction a as [|c a IH]; intros H.
  - rewrite append_nil_l. cbn. now rewrite Ascii.eqb_refl.
  - cbn [Str.forallb] in H. apply andb_true_iff in H as [Hc H].
    rewrite append_cons. cbn [splitHead]. apply negb_true_iff in Hc. rewrite Hc.
    now rewrite IH.
Qed.

Lemma forallb_isoDate (date : Z * Z * Z) :
  Str.forallb (fun c => negb (Ascii.eqb c "T")) (isoDate date) = true.
Proof.
  destruct date as [[y m] d]. unfold isoDate, isoYear.
  assert (Hpad : forall w n, Str.forallb (fun c => negb (Ascii.eqb c "T")) (pad w n) = true).
  { intros w n. apply (forallb_impl JS.isDigit); [|apply forallb_pad].
    intros c. each_ascii c; reflexivity || discriminate. }
  rewrite !forallb_append, !Hpad.
  destruct ((0 <=? y) && (y <=? 9999)); [now rewrite Hpad|].
  destruct (y <? 0); rewrite forallb_append, Hpad; reflexivity.
Qed.

Lemma getDayKey_isoDate (t : Z) :
  QuotaManager.getDayKey t = isoDate (civil (dayOf t)).
Proof.
  unfold QuotaManager.getDayKey, toISOString.
  destruct (civil (dayOf t)) as [[y m] d] eqn:E.
  pose proof (forallb_isoDate (y, m, d)) as H.
  match goal with
  | |- splitHead _ (_ +:+ _ +:+ _ +:+ _ +:+ _ +:+ _ +:+ ?rest) = _ =>
      transitivity (splitHead "T" (isoDate (y, m, d) +:+ String "T" rest))
  end.
  - f_equal. unfold isoDate. rewrite !append_assoc. reflexivity.
  - now apply splitHead_app.
Qed.

Lemma dayOf_bounds (t : Z) : validTime t -> - 100000000 <= dayOf t <= 100000000.
Proof.
  unfold validTime, dayOf, msPerDay. intros H.
  split; [apply Z.div_le_lower_bound | apply Z.div_le_upper_bound]; lia.
Qed.

Lemma getDayKey_dayOf (t1 t2 : Z) :
  validTime t1 -> validTime t2 ->
  (QuotaManager.getDayKey t1 = QuotaManager.getDayKey t2 <-> dayOf t1 = dayOf t2).
Proof.
  intros H1 H2. rewrite !getDayKey_isoDate. split; [|now intros ->].
  intros H. apply civil_inj.
  pose proof (civil_bounds _ (dayOf_bounds _ H1)) as B1.
  pose proof (civil_bounds _ (dayOf_bounds _ H2)) as B2.
  destruct (civil (dayOf t1)) as [[y m] d]. destruct (civil (dayOf t2)) as [[y' m'] d'].
  apply isoDate_inj; [lia..|exact H].
Qed.

(** X20. Two times have the same day key exactly when they lie on the same
    UTC day. *)
Theorem getDayKey_same_day (t1 t2 : Z) :
  validTime t1 -> validTime t2 ->
  (QuotaManager.getDayKey t1 = QuotaManager.getDayKey t2 <-> dayOf t1 = dayOf t2).
Proof. apply getDayKey_dayOf. Qed.

Lemma getDayKey_same_day_witness :
  validTime 1793491200000 /\ validTime 1793577599999 /\
  (QuotaManager.getDayKey 1793491200000 = QuotaManager.getDayKey 1793577599999 <->
   dayOf 1793491200000 = dayOf 1793577599999).
Proof.
  assert (H1 : validTime 1793491200000) by (unfold validTime; lia).
  assert (H2 : validTime 1793577599999) by (unfold validTime; lia).
  split; [exact H1|]. split; [exact H2|]. exact (getDayKey_same_day _ _ H1 H2).
Defined.

End CalendarFacts.

Module QuotaLedgerFacts.

Import QuotaManager QuotaLedger Date Calendar CalendarFacts QuotaManagerFacts.

Lemma same_day_before_midnight (t0 now : Z) :
  t0 <= now -> (dayOf now = dayOf t0 <-> now < nextUTCMidnight t0).
Proof.
  unfold nextUTCMidnight, dayOf, msPerDay. intros H.
  pose proof (Z.div_mod t0 86400000 ltac:(lia)).
  pose proof (Z.div_mod now 86400000 ltac:(lia)).
  pose proof (Z.mod_pos_bound t0 86400000 eq_refl).
  pose proof (Z.mod_pos_bound now 86400000 eq_refl).
  assert (t0 / 86400000 <= now / 86400000) by (apply Z.div_le_mono; lia).
  split; intros; lia.
Qed.

(** X21. A record whose day key was written at [t0] is reset by a later call
    exactly when the call comes at or after the reset time that was
    reported at [t0]. *)
Theorem resetIfNeeded_at_reset_time (t0 now : Z) (q : quota) :
  validTime t0 -> validTime now -> t0 <= now ->
  dayKey q = getDayKey t0 ->
  resetIfNeeded now q =
  if now <? nextUTCMidnight t0 then q
  else {| limit := limit q; used := 0; dayKey := getDayKey now |}.
Proof.
  intros H0 H1 Hle Hkey.
  pose proof (getDayKey_dayOf now t0 H1 H0) as Hsame.
  pose proof (same_day_before_midnight t0 now Hle) as Hmid.
  destruct (Z.ltb_spec now (nextUTCMidnight t0)) as [Hlt | Hge].
  - apply resetIfNeeded_same. rewrite Hkey. apply Hsame, Hmid, Hlt.
  - apply resetIfNeeded_new. rewrite Hkey. intros E. apply Hsame, Hmid in E. lia.
Qed.

Lemma resetIfNeeded_at_reset_time_witness :
  let t0 := 1793491200000 in
  let q := {| limit := 3; used := 3; dayKey := getDayKey t0 |} in
  resetIfNeeded (nextUTCMidnight t0 - 1) q = q /\
  resetIfNeeded (nextUTCMidnight t0) q =
    {| limit := 3; used := 0; dayKey := getDayKey (nextUTCMidnight t0) |}.
Proof.
  cbv zeta. split.
  - apply (resetIfNeeded_at_reset_time 1793491200000 (nextUTCMidnight 1793491200000 - 1));
      solve [unfold validTime; vm_compute; split; discriminate | vm_compute; discriminate
            | reflexivity].
  - apply (resetIfNeeded_at_reset_time 1793491200000 (nextUTCMidnight 1793491200000));
      solve [unfold validTime; vm_compute; split; discriminate | vm_compute; discriminate
            | reflexivity].
Defined.

(** X22. The reset time is the first instant of the next UTC day. *)
Theorem getNextResetTime_midnight (now : Z) :
  now < nextUTCMidnight now <= now + msPerDay /\
  nextUTCMidnight now mod msPerDay = 0 /\
  getNextResetTime now =
    isoDate (civil (dayOf now + 1)) +:+ "T00:00:00.000Z".
Proof.
  unfold getNextResetTime, nextUTCMidnight.
  assert (Hmod : ((dayOf now + 1) * msPerDay) mod msPerDay = 0)
    by (apply Z.mod_mul; discriminate).
  assert (Hday : dayOf ((dayOf now + 1) * msPerDay) = dayOf now + 1)
    by (unfold dayOf at 1; apply Z.div_mul; discriminate).
  repeat split.
  - unfold dayOf, msPerDay.
    pose proof (Z.div_mod now 86400000 ltac:(lia)).
    pose proof (Z.mod_pos_bound now 86400000 eq_refl). lia.
  - unfold dayOf, msPerDay.
    pose proof (Z.div_mod now 86400000 ltac:(lia)).
    pose proof (Z.mod_pos_bound now 86400000 eq_refl). lia.
  - exact Hmod.
  - unfold toISOString. rewrite Hday, Hmod.
    destruct (civil (dayOf now + 1)) as [[y m] d]. unfold isoDate.
    rewrite !StringFacts.append_assoc. reflexivity.
Qed.

(** X23. For a platform with a positive limit, [checkQuota] throws exactly
    when [getStatus] reports that nothing remains. *)
Theorem checkQuota_throws_iff_nothing_remains (now : Z) (platform : string)
    (quotas : gmap string quota) (q : quota) :
  quotas !! platform = Some q -> 0 < limit q ->
  exists status,
    (getStatus now platform quotas).1 = Some status /\
    ((checkQuota now platform quotas).1 <> Normal <-> st_remaining status = 0) /\
    (getStatus now platform quotas).2 = (checkQuota now platform quotas).2.
Proof.
  intros Hq Hpos. unfold getStatus, checkQuota. rewrite Hq. cbv zeta.
  eexists. split; [reflexivity|]. cbn [st_remaining fst snd].
  rewrite resetIfNeeded_limit.
  destruct (Z.leb_spec (limit q) 0); [lia|].
  destruct (Z.geb_spec (used (resetIfNeeded now q)) (limit q)); cbn [fst snd].
  - split; [|reflexivity]. split; [lia | discriminate].
  - split; [|reflexivity]. split; [congruence | lia].
Qed.

Lemma checkQuota_throws_iff_nothing_remains_witness :
  let t := 1793491200000 in
  let quotas : gmap string quota :=
    {[ "crossref"%string := {| limit := 2; used := 2; dayKey := getDayKey t |} ]} in
  exists status,
    (getStatus t "crossref" quotas).1 = Some status /\
    ((checkQuota t "crossref" quotas).1 <> Normal <-> st_remaining status = 0) /\
    (getStatus t "crossref" quotas).2 = (checkQuota t "crossref" quotas).2.
Proof.
  cbv zeta.
  eapply (checkQuota_throws_iff_nothing_remains 1793491200000 "crossref");
    [apply lookup_singleton_eq | cbn; lia].
Defined.

(** *** Platforms without a limit *)

Lemma unlimited_insert (quotas : gmap string quota) (platform : string) (q : quota) :
  (forall p r, quotas !! p = Some r -> limit r <= 0 -> used r = 0) ->
  (limit q <= 0 -> used q = 0) ->
  forall p r, <[platform := q]> quotas !! p = Some r -> limit r <= 0 -> used r = 0.
Proof.
  intros Hall Hq p r Hp. destruct (decide (platform = p)) as [-> | Hne].
  - rewrite lookup_insert_eq in Hp. injection Hp as <-. exact Hq.
  - rewrite lookup_insert_ne in Hp by exact Hne. now apply (Hall p).
Qed.

Lemma resetIfNeeded_unlimited (now : Z) (q : quota) :
  (limit q <= 0 -> used q = 0) ->
  limit (resetIfNeeded now q) <= 0 -> used (resetIfNeeded now q) = 0.
Proof. unfold resetIfNeeded. destruct (String.eqb _ _); cbn; auto. Qed.

Lemma checkQuota_unlimited (now : Z) (platform : string) (quotas : gmap string quota) :
  (forall p r, quotas !! p = Some r -> limit r <= 0 -> used r = 0) ->
  forall p r, (checkQuota now platform quotas).2 !! p = Some r -> limit r <= 0 -> used r = 0.
Proof.
  intros Hall. destruct (quotas !! platform) as [q|] eqn:Hq.
  - rewrite (checkQuota_state now platform quotas q Hq).
    apply unlimited_insert; [exact Hall|].
    apply resetIfNeeded_unlimited. now apply (Hall platform).
  - unfold checkQuota. rewrite Hq. exact Hall.
Qed.

Lemma incrementUsage_unlimited (now : Z) (platform : string) (quotas : gmap string quota) :
  (forall p r, quotas !! p = Some r -> limit r <= 0 -> used r = 0) ->
  forall p r, incrementUsage now platform quotas !! p = Some r -> limit r <= 0 -> used r = 0.
Proof.
  intros Hall. unfold incrementUsage. destruct (quotas !! platform) as [q|] eqn:Hq;
    [|exact Hall].
  destruct (Z.ltb_spec 0 (limit (resetIfNeeded now q))).
  - apply unlimited_insert; [exact Hall|]. cbn. lia.
  - apply unlimited_insert; [exact Hall|].
    apply resetIfNeeded_unlimited. now apply (Hall platform).
Qed.

Lemma perform_unlimited (quotas : gmap string quota) (c : call) :
  (forall p r, quotas !! p = Some r -> limit r <= 0 -> used r = 0) ->
  forall p r, perform quotas c !! p = Some r -> limit r <= 0 -> used r = 0.
Proof.
  intros Hall. destruct c as [now pl dl env|now pl|now pl|now pl|t1 t2 pl]; cbn [perform].
  - unfold registerPlatform. apply unlimited_insert; [exact Hall|]. reflexivity.
  - now apply checkQuota_unlimited.
  - unfold getStatus. destruct (quotas !! pl) as [q|] eqn:Hq; [|exact Hall].
    cbn [snd]. apply unlimited_insert; [exact Hall|].
    apply resetIfNeeded_unlimited. now apply (Hall pl).
  - now apply incrementUsage_unlimited.
  - pose proof (checkQuota_unlimited t1 pl quotas Hall) as H.
    destruct (checkQuota t1 pl quotas) as [[|err] quotas']; cbn [snd] in H; [|exact H].
    now apply incrementUsage_unlimited.
Qed.

Lemma performAll_unlimited (calls : list call) (quotas : gmap string quota) :
  (forall p r, quotas !! p = Some r -> limit r <= 0 -> used r = 0) ->
  forall p r, performAll quotas calls !! p = Some r -> limit r <= 0 -> used r = 0.
Proof.
  revert quotas. induction calls as [|c calls IH]; intros quotas Hall; [exact Hall|].
  unfold performAll. cbn [fold_left]. apply IH. now apply perform_unlimited.
Qed.

(** X24. A platform that is registered with a limit of 0 or less is never
    counted and never refused, after any calls, and its status shows
    nothing used and nothing remaining. *)
Theorem unlimited_platform (calls : list call) (now : Z) (platform : string) (q : quota) :
  performAll ∅ calls !! platform = Some q -> limit q <= 0 ->
  used q = 0 /\
  (checkQuota now platform (performAll ∅ calls)).1 = Normal /\
  used <$> (incrementUsage now platform (performAll ∅ calls) !! platform) = Some 0 /\
  exists status,
    (getStatus now platform (performAll ∅ calls)).1 = Some status /\
    st_used status = 0 /\ st_remaining status = 0.
Proof.
  intros Hq Hlim.
  assert (Hused : used q = 0).
  { apply (performAll_unlimited calls ∅) with (p := platform); auto.
    intros p r Hp. rewrite lookup_empty in Hp. discriminate. }
  assert (Hreset : used (resetIfNeeded now q) = 0)
    by (rewrite resetIfNeeded_used, Hused; now destruct (String.eqb _ _)).
  split; [exact Hused|]. split; [|split].
  - unfold checkQuota. rewrite Hq. cbv zeta. rewrite resetIfNeeded_limit.
    destruct (Z.leb_spec (limit q) 0); [reflexivity | lia].
  - unfold incrementUsage. rewrite Hq. rewrite resetIfNeeded_limit.
    destruct (Z.ltb_spec 0 (limit q)); [lia|].
    rewrite lookup_insert_eq. cbn. now rewrite Hreset.
  - unfold getStatus. rewrite Hq. eexists. split; [reflexivity|].
    cbn [st_used st_remaining]. rewrite resetIfNeeded_limit, Hreset. lia.
Qed.

Lemma unlimited_platform_witness :
  let t := 1793491200000 in
  let calls := [Register t "arxiv" 0 None; IncrementUsage t "arxiv";
                CheckedIncrement t t "arxiv"] in
  (checkQuota t "arxiv" (performAll ∅ calls)).1 = Normal /\
  used <$> (incrementUsage t "arxiv" (performAll ∅ calls) !! "arxiv"%string) = Some 0.
Proof.
  cbv zeta.
  pose proof (unlimited_platform
                [Register 1793491200000 "arxiv" 0 None;
                 IncrementUsage 1793491200000 "arxiv";
                 CheckedIncrement 1793491200000 1793491200000 "arxiv"]
                1793491200000 "arxiv"
                {| limit := 0; used := 0; dayKey := getDayKey 1793491200000 |})
    as H.
  destruct H as (_ & H1 & H2 & _); [vm_compute; reflexivity | cbn; lia |].
  split; [exact H1 | exact H2].
Defined.

(** *** Guarded requests within one day *)

Lemma request_same_day (t1 t2 : Z) (platform : string) (quotas : gmap string quota)
    (l u : Z) (key : string) :
  quotas !! platform = Some {| limit := l; used := u; dayKey := key |} ->
  0 < l -> getDayKey t1 = key -> getDayKey t2 = key ->
  perform quotas (CheckedIncrement t1 t2 platform) !! platform =
  Some {| limit := l; used := if u <? l then u + 1 else u; dayKey := key |}.
Proof.
  intros Hq Hpos H1 H2. cbn [perform]. unfold checkQuota. rewrite Hq. cbv zeta.
  rewrite resetIfNeeded_same by exact H1. cbn [limit used].
  destruct (Z.leb_spec l 0); [lia|].
  destruct (Z.geb_spec u l); destruct (Z.ltb_spec u l); try lia.
  - apply lookup_insert_eq.
  - erewrite incrementUsage_same_day; [|apply lookup_insert_eq|exact H2|exact Hpos].
    apply lookup_insert_eq.
Qed.

Lemma requests_same_day (times : list (Z * Z)) (platform : string)
    (quotas : gmap string quota) (l u : Z) (key : string) :
  quotas !! platform = Some {| limit := l; used := u; dayKey := key |} ->
  0 < l -> 0 <= u <= l ->
  Forall (fun t => getDayKey t.1 = key /\ getDayKey t.2 = key) times ->
  performAll quotas (requests platform times) !! platform =
  Some {| limit := l; used := Z.min (u + Z.of_nat (length times)) l; dayKey := key |}.
Proof.
  intros Hq Hpos. revert quotas u Hq.
  induction times as [|[t1 t2] times IH]; intros quotas u Hq Hu Hall.
  - cbn. rewrite Hq. do 2 f_equal. lia.
  - apply List.Forall_cons_iff in Hall as [[H1 H2] Hall]. cbn [fst snd] in H1, H2.
    unfold performAll, requests. cbn [List.map fold_left fst snd].
    pose proof (request_same_day t1 t2 platform quotas l u key Hq Hpos H1 H2) as Hstep.
    fold (requests platform times).
    fold (performAll (perform quotas (CheckedIncrement t1 t2 platform))
            (requests platform times)).
    rewrite (IH _ _ Hstep); [|destruct (Z.ltb_spec u l); lia|exact Hall].
    do 2 f_equal. cbn [length]. destruct (Z.ltb_spec u l); lia.
Qed.

(** X25. Of the guarded requests that a platform with the limit [l] receives
    on the UTC day of its registration, the first [l] are counted and no
    other. *)
Theorem requests_counted_up_to_limit (t0 : Z) (platform : string) (l : Z)
    (quotas : gmap string quota) (times : list (Z * Z)) :
  0 < l -> validTime t0 ->
  Forall (fun t => validTime t.1 /\ validTime t.2 /\
                   dayOf t.1 = dayOf t0 /\ dayOf t.2 = dayOf t0) times ->
  used <$> (performAll (registerPlatform t0 platform l None quotas)
              (requests platform times) !! platform) =
  Some (Z.min (Z.of_nat (length times)) l).
Proof.
  intros Hpos H0 Hall.
  erewrite (requests_same_day times platform _ l 0 (getDayKey t0)).
  - reflexivity.
  - unfold registerPlatform. apply lookup_insert_eq.
  - exact Hpos.
  - lia.
  - eapply List.Forall_impl; [|exact Hall]. intros [t1 t2] (V1 & V2 & D1 & D2).
    cbn [fst snd] in *. split; now apply getDayKey_dayOf.
Qed.

Lemma requests_counted_up_to_limit_witness :
  let t0 := 1793491200000 in
  used <$> (performAll (registerPlatform t0 "core" 2 None ∅)
              (requests "core" [(t0 + 1, t0 + 2); (t0 + 5000, t0 + 5001);
                                (t0 + 86399998, t0 + 86399999)]) !! "core"%string) =
  Some 2.
Proof.
  cbv zeta.
  apply (requests_counted_up_to_limit 1793491200000 "core" 2 ∅
           [(1793491200000 + 1, 1793491200000 + 2);
            (1793491200000 + 5000, 1793491200000 + 5001);
            (1793491200000 + 86399998, 1793491200000 + 86399999)]).
  - lia.
  - unfold validTime. lia.
  - repeat constructor; cbn [fst snd]; unfold validTime; try lia; reflexivity.
Defined.

(** *** Platforms are independent *)

(** X26. A call for one platform leaves the records of the others as they
    are. *)
Theorem perform_other_platform (quotas : gmap string quota) (c : call) (platform : string) :
  platformOf c <> platform -> perform quotas c !! platform = quotas !! platform.
Proof.
  assert (Hcheck : forall now p, p <> platform ->
            (checkQuota now p quotas).2 !! platform = quotas !! platform).
  { intros now p Hp. unfold checkQuota. destruct (quotas !! p) as [q|]; [|reflexivity].
    cbv zeta. destruct (limit _ <=? 0); [|destruct (used _ >=? limit _)]; cbn [snd];
      now apply lookup_insert_ne. }
  assert (Hinc : forall now p (qs : gmap string quota), p <> platform ->
            incrementUsage now p qs !! platform = qs !! platform).
  { intros now p qs Hp. unfold incrementUsage. destruct (qs !! p) as [q|]; [|reflexivity].
    destruct (0 <? limit _); now apply lookup_insert_ne. }
  destruct c as [now p dl env|now p|now p|now p|t1 t2 p]; cbn [platformOf perform];
    intros Hp.
  - unfold registerPlatform. now apply lookup_insert_ne.
  - now apply Hcheck.
  - unfold getStatus. destruct (quotas !! p) as [q|]; [|reflexivity].
    cbn [snd]. now apply lookup_insert_ne.
  - now apply Hinc.
  - specialize (Hcheck t1 p Hp).
    destruct (checkQuota t1 p quotas) as [[|err] quotas']; cbn [snd] in Hcheck;
      [|exact Hcheck].
    rewrite Hinc by exact Hp. exact Hcheck.
Qed.

Lemma perform_other_platform_witness :
  let t := 1793491200000 in
  let quotas := registerPlatform t "core" 5 None (registerPlatform t "wos" 1 None ∅) in
  perform quotas (IncrementUsage t "wos") !! "core"%string = quotas !! "core"%string.
Proof. cbv zeta. apply perform_other_platform. discriminate. Defined.

End QuotaLedgerFacts.

Module CacheStatsFacts.

Import RequestCache CacheCalls StringFacts StrFacts CacheKeyFacts.

(** *** Hits and misses *)

Lemma perform_stats {V : Type} (c : t V) (op : call V) :
  0 <= hits c -> 0 <= misses c ->
  0 <= hits (perform c op) /\ 0 <= misses (perform c op) /\
  hits (perform c op) + misses (perform c op) = lookups [op] (hits c + misses c).
Proof.
  intros Hh Hm. destruct op as [now key|now key value|now key|key|]; cbn [perform lookups].
  - unfold get. destruct (LRUCache.get now key (cache c)) as [[v|] store]; cbn; lia.
  - cbn. lia.
  - lia.
  - unfold delete. destruct (LRUCache.delete key (cache c)) as [r store]. cbn. lia.
  - cbn. lia.
Qed.

Lemma lookups_cons {V : Type} (op : call V) (ops : list (call V)) (count : Z) :
  lookups (op :: ops) count = lookups ops (lookups [op] count).
Proof. destruct op; reflexivity. Qed.

Lemma performAll_stats {V : Type} (ops : list (call V)) (c : t V) :
  0 <= hits c -> 0 <= misses c ->
  0 <= hits (performAll c ops) /\ 0 <= misses (performAll c ops) /\
  hits (performAll c ops) + misses (performAll c ops) = lookups ops (hits c + misses c).
Proof.
  revert c. induction ops as [|op ops IH]; intros c Hh Hm; [cbn; lia|].
  destruct (perform_stats c op Hh Hm) as (Hh' & Hm' & Hsum).
  unfold performAll. cbn [fold_left]. fold (performAll (perform c op) ops).
  destruct (IH (perform c op) Hh' Hm') as (H1 & H2 & H3).
  rewrite lookups_cons, <- Hsum. auto.
Qed.

(** X27. The hits and the misses of a cache add up to the number of [get]
    calls since it was created or last cleared, and the hit rate lies
    between 0 and 1. *)
Theorem getStats_counts (V : Type) (options : CacheOptions) (c0 : t V)
    (ops : list (call V)) :
  create options = Some c0 ->
  let stats := getStats (performAll c0 ops) in
  0 <= stat_hits stats /\ 0 <= stat_misses stats /\
  stat_hits stats + stat_misses stats = lookups ops 0 /\
  (0 <= stat_hitRate stats <= 1)%Q.
Proof.
  intros Hc. cbv zeta.
  assert (H0 : hits c0 = 0 /\ misses c0 = 0).
  { unfold create in Hc. destruct (_ || _); [discriminate|].
    injection Hc as <-. split; reflexivity. }
  destruct H0 as [Hh0 Hm0].
  destruct (performAll_stats ops c0) as (Hh & Hm & Hsum); [lia | lia |].
  rewrite Hh0, Hm0 in Hsum.
  unfold getStats. cbn [stat_hits stat_misses stat_hitRate].
  repeat split; auto.
  - destruct (Z.ltb_spec 0 (hits (performAll c0 ops) + misses (performAll c0 ops)));
      [|apply Qle_refl].
    unfold Qle. cbn. lia.
  - destruct (Z.ltb_spec 0 (hits (performAll c0 ops) + misses (performAll c0 ops)));
      [|discriminate].
    unfold Qle. cbn. rewrite Z2Pos.id by lia. lia.
Qed.

(** The statistics test: of three lookups after one [set], two are hits. *)
Lemma getStats_counts_witness :
  let c0 := {| cache := {| LRUCache.max := 100; LRUCache.ttl := 3600000;
                           LRUCache.items := [] |};
               hits := 0; misses := 0 |} in
  let stats := getStats (performAll c0 [Set_ 0 "key1" "value1"; Get 1 "key1";
                                        Get 2 "key1"; Get 3 "missing"]%string) in
  (stat_hits stats, stat_misses stats) = (2, 1) /\
  stat_hits stats + stat_misses stats = 3.
Proof.
  intros c0 stats. split; [reflexivity|].
  exact (proj1 (proj2 (proj2
    (getStats_counts string {| maxSize := None; ttlMs := None |} c0
       [Set_ 0 "key1" "value1"; Get 1 "key1"; Get 2 "key1"; Get 3 "missing"]%string
       eq_refl)))).
Defined.

(** *** The hashed text determines the platform and the query *)

Lemma append_inj_r (a b c : string) : a +:+ c = b +:+ c -> a = b.
Proof.
  intros H. apply CalendarFacts.append_inj_length in H; [tauto|].
  apply (f_equal String.length) in H. rewrite !length_app in H. lia.
Qed.

Lemma keyData_default (p q : string) (o : option (list (string * JSON.value))) :
  keyData p q o = keyData p q (Some (default [] o)).
Proof. reflexivity. Qed.

Lemma stringify_object (props : list (string * JSON.value)) :
  JSON.stringify (JSON.JObject props) =
  "{" +:+ JSON.join "," (List.flat_map JSON.property props) +:+ "}".
Proof. unfold JSON.stringify. now rewrite serialize_object. Qed.

(** X28. Two calls hash the same text exactly when they name the same
    platform, their queries have the same normal form and their options
    print alike. *)
Theorem keyData_inj (p1 q1 p2 q2 : string) (o1 o2 : option (list (string * JSON.value))) :
  keyData p1 q1 o1 = keyData p2 q2 o2 <->
  p1 = p2 /\
  JS.trim (JS.toLowerCase q1) = JS.trim (JS.toLowerCase q2) /\
  JSON.stringify (JSON.JObject (default [] o1)) =
  JSON.stringify (JSON.JObject (default [] o2)).
Proof.
  rewrite (keyData_default p1), (keyData_default p2), !keyData_shape, !stringify_object.
  unfold keyPrefix. rewrite !append_assoc. split.
  - intros H. rewrite !append_cons, !append_nil_l in H.
    apply CalendarFacts.string_cons_inj in H.
    apply append_inj_l in H. apply CalendarFacts.string_cons_inj in H.
    apply quote_inj in H as [-> H]. apply CalendarFacts.string_cons_inj in H.
    apply append_inj_l in H. apply CalendarFacts.string_cons_inj in H.
    apply quote_inj in H as [Hq H]. apply CalendarFacts.string_cons_inj in H.
    apply append_inj_l in H. do 2 apply CalendarFacts.string_cons_inj in H.
    repeat split; [exact Hq|].
    rewrite !append_cons, !append_nil_l. f_equal.
    change "}}"%string with ("}" +:+ "}")%string in H.
    rewrite <- !append_assoc in H. now apply append_inj_r in H.
  - intros (-> & -> & H). rewrite !append_cons, !append_nil_l in H.
    apply CalendarFacts.string_cons_inj, append_inj_r in H. now rewrite H.
Qed.

(** *** The form of a key *)

Lemma length_round (st : list Z) (kw : Z * Z) : length (SHA256.round st kw) = length st.
Proof.
  unfold SHA256.round.
  destruct st as [|a [|b [|c [|d [|e [|f [|g [|h [|i st]]]]]]]]]; reflexivity.
Qed.

Lemma length_rounds (kws : list (Z * Z)) (st : list Z) :
  length (fold_left SHA256.round kws st) = length st.
Proof.
  revert st. induction kws as [|kw kws IH]; intros st; [reflexivity|].
  cbn [fold_left]. now rewrite IH, length_round.
Qed.

Lemma length_compress (h block : list Z) : length (SHA256.compress h block) = length h.
Proof.
  unfold SHA256.compress. rewrite List.length_map, List.length_combine, length_rounds. lia.
Qed.

Lemma length_blocks (fuel : nat) (h ws : list Z) :
  length (SHA256.blocks fuel h ws) = length h.
Proof.
  revert h ws. induction fuel as [|fuel IH]; intros h ws; [reflexivity|].
  cbn [SHA256.blocks]. destruct ws; [reflexivity|]. now rewrite IH, length_compress.
Qed.

Lemma length_digest (msg : list Z) : length (SHA256.digest msg) = 8%nat.
Proof. unfold SHA256.digest. cbv zeta. now rewrite length_blocks. Qed.

Lemma hexDigit_hex (x : Z) : isHexDigit (SHA256.hexDigit (Z.land x 15)) = true.
Proof.
  assert (H : 0 <= Z.land x 15 < 16).
  { change 15 with (Z.ones 4). rewrite Z.land_ones by lia. apply Z.mod_pos_bound. lia. }
  unfold SHA256.hexDigit, isHexDigit. cbv zeta.
  destruct (Z.ltb_spec (Z.land x 15) 10); rewrite CalendarFacts.code_chr by lia; lia.
Qed.

Lemma hex_format (n : nat) (x : Z) :
  String.length (SHA256.hex n x) = n /\ Str.forallb isHexDigit (SHA256.hex n x) = true.
Proof.
  revert x. induction n as [|n IH]; intros x; [split; reflexivity|].
  cbn [SHA256.hex]. destruct (IH (Z.shiftr x 4)) as [Hl Hf].
  rewrite length_app, forallb_append, Hl, Hf. cbn [String.length Str.forallb].
  rewrite hexDigit_hex. split; [lia | reflexivity].
Qed.

Lemma hexdigest_format (ws : list Z) :
  let s := fold_right (fun w s => SHA256.hex 8 w +:+ s) EmptyString ws in
  String.length s = (8 * length ws)%nat /\ Str.forallb isHexDigit s = true.
Proof.
  cbv zeta. induction ws as [|w ws [IHl IHf]]; [split; reflexivity|].
  cbn [fold_right length]. destruct (hex_format 8 w) as [Hl Hf].
  rewrite length_app, forallb_append, Hl, Hf, IHl, IHf. split; [lia | reflexivity].
Qed.

(** X29. A key is a string of 64 lower-case hexadecimal digits. *)
Theorem generateKey_format (platform query : string)
    (options : option (list (string * JSON.value))) :
  String.length (generateKey platform query options) = 64%nat /\
  Str.forallb isHexDigit (generateKey platform query options) = true.
Proof.
  unfold generateKey, SHA256.hexdigest.
  destruct (hexdigest_format (SHA256.digest (JSON.utf8 (keyData platform query options))))
    as [Hl Hf].
  rewrite length_digest in Hl. split; [exact Hl | exact Hf].
Qed.

End CacheStatsFacts.
